(** * Qrack [CoherentUnit]: a shallow embedding of src/qregister.cpp

    The register is a dense state vector of [2^qubitCount] complex
    amplitudes.  The kernels below follow the C++ line by line:

    - [bitCapInt] (the permutation integer) is an unsigned machine word.  It
      is a [Z] whose wrap-around is written out ([wrap]); its width is
      declared in qregister.hpp, which is not among the sources, and is a
      parameter here ([bitCapIntBits]).
    - [bitLenInt] (a qubit index or a register length) is a [Z]; qubit
      indices stay far below its range.
    - expressions such as [1 << length] are evaluated by C++ in [int]; they
      are plain [Z] shifts, meaningful while the result fits an [int]
      (the theorems ask for [qubitCount <= 30]).
    - [double] is idealised as a real number, [Complex16] as a pair of reals.
    - the parallel loops [par_for], [par_for_skip] and [par_for_mask] run
      their bodies on disjoint indices; they are modelled by the sequential
      loop that a single worker executes.
    - [std::invalid_argument] is an outcome of the operation, returned
      together with the register as the throw leaves it. *)

From Stdlib Require Import ZArith Reals Lra Lia Bool String.
From stdpp Require Import base list list_numbers.
From coqutil Require Import Z.bitblast.

Local Open Scope Z_scope.

(** ** Integers *)

(** The number of bits of [bitCapInt]. *)
Class BitCapInt := bitCapIntBits : Z.

Section Integers.
Context `{BitCapInt}.

Definition wrap (z : Z) : Z := z mod 2 ^ bitCapIntBits.
Definition cap_add (a b : Z) : Z := wrap (a + b).
Definition cap_sub (a b : Z) : Z := wrap (a - b).
Definition cap_shl (a n : Z) : Z := wrap (Z.shiftl a n).
Definition cap_not (a : Z) : Z := wrap (Z.lnot a).
End Integers.

(** ** Complex amplitudes *)

(** Modelled from the spec: [Complex16] (include/common/complex16simd.hpp is
    not among the sources): a complex number with addition, multiplication,
    negation, division by a real and [norm z = re^2 + im^2]. *)
Record Complex16 : Type := mkComplex16 { real : R; imag : R }.

Definition Czero : Complex16 := mkComplex16 0 0.
Definition Cadd (a b : Complex16) : Complex16 :=
  mkComplex16 (real a + real b) (imag a + imag b).
Definition Cmul (a b : Complex16) : Complex16 :=
  mkComplex16 (real a * real b - imag a * imag b) (real a * imag b + imag a * real b).
Definition Cneg (a : Complex16) : Complex16 := mkComplex16 (- real a) (- imag a).
Definition Cdiv (a : Complex16) (r : R) : Complex16 := mkComplex16 (real a / r) (imag a / r).
Definition norm (a : Complex16) : R := (real a * real a + imag a * imag a)%R.

(** Comparisons of doubles. *)
Definition Rltb (x y : R) : bool := if Rlt_dec x y then true else false.
Definition Rleb (x y : R) : bool := if Rle_dec x y then true else false.
Definition Reqb (x y : R) : bool := if Req_dec_T x y then true else false.

(** ** The register *)

Record CoherentUnit : Type := mkCoherentUnit {
  qubitCount : Z;
  maxQPower : Z;
  stateVec : list Complex16;
  runningNorm : R;
  (** [rand_generator_ptr] with [rand_distribution]: the sequence of uniform
      draws of the engine, and how many of them were consumed. *)
  rand_distribution : nat -> R;
  rand_drawn : nat
}.

Definition with_stateVec (sv : list Complex16) (q : CoherentUnit) : CoherentUnit :=
  mkCoherentUnit (qubitCount q) (maxQPower q) sv (runningNorm q)
                 (rand_distribution q) (rand_drawn q).
Definition with_runningNorm (r : R) (q : CoherentUnit) : CoherentUnit :=
  mkCoherentUnit (qubitCount q) (maxQPower q) (stateVec q) r
                 (rand_distribution q) (rand_drawn q).
Definition with_size (n p : Z) (q : CoherentUnit) : CoherentUnit :=
  mkCoherentUnit n p (stateVec q) (runningNorm q)
                 (rand_distribution q) (rand_drawn q).

(** [sv[i]] and [sv[i] = v].  A read outside the buffer is undefined in C++
    (here: zero), a write outside it too (here: dropped). *)
Definition at_ (sv : list Complex16) (i : Z) : Complex16 := default Czero (sv !! Z.to_nat i).
Definition set_at (sv : list Complex16) (i : Z) (v : Complex16) : list Complex16 :=
  <[Z.to_nat i := v]> sv.

(** [a[i]] on an array of integers. *)
Definition at_Z (a : list Z) (i : Z) : Z := default 0 (a !! Z.to_nat i).

(** [new Complex16[n]] followed by [std::fill(.., Complex16(0.0, 0.0))]. *)
Definition new_zeroed (n : Z) : list Complex16 := replicate (Z.to_nat n) Czero.

(** [Rand]: the next draw of the engine. *)
Definition Rand (q : CoherentUnit) : R * CoherentUnit :=
  (rand_distribution q (rand_drawn q),
   mkCoherentUnit (qubitCount q) (maxQPower q) (stateVec q) (runningNorm q)
                  (rand_distribution q) (S (rand_drawn q))).

Definition ResetStateVec (nStateVec : list Complex16) (q : CoherentUnit) : CoherentUnit :=
  with_stateVec nStateVec q.

(** ** Loops *)

Section Loops.
Context {St : Type}.

(** [for (i = from; i < from + count; i++) body(i)]. *)
Fixpoint for_loop (count : nat) (i : Z) (body : Z -> St -> St) (s : St) : St :=
  match count with
  | O => s
  | S count' => for_loop count' (i + 1) body (body i s)
  end.

(** The loop of one worker of [par_for_inc]: the counter runs from [i] up
    to [end_]; the body runs on [inc i], and the worker leaves at the first
    index that [inc] pushes to [end_] or beyond. *)
Fixpoint par_for_worker (count : nat) (i end_ : Z) (inc : Z -> Z)
         (fn : Z -> St -> St) (s : St) : St :=
  match count with
  | O => s
  | S count' =>
      let j := inc i in
      if end_ <=? j then s
      else par_for_worker count' (i + 1) end_ inc fn (fn j s)
  end.

Definition par_for_inc (begin end_ : Z) (inc : Z -> Z) (fn : Z -> St -> St) (s : St) : St :=
  par_for_worker (Z.to_nat (end_ - begin)) begin end_ inc fn s.

Definition par_for (begin end_ : Z) (fn : Z -> St -> St) (s : St) : St :=
  par_for_inc begin end_ (fun i => i) fn s.
End Loops.

Section Skip.
Context `{BitCapInt} {St : Type}.

Definition par_for_skip (begin end_ skipMask maskWidth : Z)
           (fn : Z -> St -> St) (s : St) : St :=
  let lowMask := cap_sub skipMask 1 in
  let highMask := cap_shl (cap_not (cap_add lowMask skipMask)) (maskWidth - 1) in
  let incFn := fun i => Z.lor (Z.land (cap_shl i maskWidth) highMask) (Z.land i lowMask) in
  par_for_inc begin end_ incFn fn s.

(** The increment function of [par_for_mask]: push [i] apart, one mask at
    a time. *)
Definition mask_inc (maskArray : list Z) (i : Z) : Z :=
  fold_left (fun i mask =>
               let low := cap_sub mask 1 in
               let high := cap_not (cap_add low mask) in
               Z.lor (Z.land (cap_shl i 1) high) (Z.land i low))
            maskArray i.
End Skip.

(** ** Unsigned addition and subtraction on a register of qubits *)

Section Arithmetic.
Context `{BitCapInt}.

(** [CoherentUnit::INC].  [1 << length] is an [int] shift in the source: the
    embedding is that of the source for [length <= 30]. *)
Definition INC (toAdd start length : Z) (q : CoherentUnit) : CoherentUnit :=
  let lengthPower := Z.shiftl 1 length in
  let toAdd := toAdd mod lengthPower in
  if (0 <? length) && (0 <? toAdd) then
    let otherMask := Z.shiftl 1 (qubitCount q) - 1 in
    let inOutMask := cap_shl (lengthPower - 1) start in
    let otherMask := Z.lxor otherMask inOutMask in
    let nStateVec := new_zeroed (maxQPower q) in
    let nStateVec :=
      par_for 0 (maxQPower q) (fun lcv nStateVec =>
        let otherRes := Z.land lcv otherMask in
        let inOutRes := Z.land lcv inOutMask in
        let inOutInt := Z.shiftr inOutRes start in
        let outInt := cap_add inOutInt toAdd in
        let outRes :=
          if outInt <? lengthPower then Z.lor (cap_shl outInt start) otherRes
          else Z.lor (cap_shl (cap_sub outInt lengthPower) start) otherRes in
        set_at nStateVec outRes (at_ (stateVec q) lcv)) nStateVec in
    ResetStateVec nStateVec q
  else q.

(** [CoherentUnit::DEC], with the same [int] shift [1 << length]. *)
Definition DEC (toSub start length : Z) (q : CoherentUnit) : CoherentUnit :=
  let lengthPower := Z.shiftl 1 length in
  let toSub := toSub mod lengthPower in
  if (0 <? length) && (0 <? toSub) then
    let otherMask := Z.shiftl 1 (qubitCount q) - 1 in
    let inOutMask := cap_shl (lengthPower - 1) start in
    let otherMask := Z.lxor otherMask inOutMask in
    let nStateVec := new_zeroed (maxQPower q) in
    let nStateVec :=
      par_for 0 (maxQPower q) (fun lcv nStateVec =>
        let otherRes := Z.land lcv otherMask in
        let inOutRes := Z.land lcv inOutMask in
        let inOutInt := Z.shiftr inOutRes start in
        let outInt := cap_add (cap_sub inOutInt toSub) lengthPower in
        let outRes :=
          if outInt <? lengthPower then Z.lor (cap_shl outInt start) otherRes
          else Z.lor (cap_shl (cap_sub outInt lengthPower) start) otherRes in
        set_at nStateVec outRes (at_ (stateVec q) lcv)) nStateVec in
    ResetStateVec nStateVec q
  else q.
End Arithmetic.


(** ** Operations that can throw *)

Inductive outcome (A : Type) : Type :=
| Ok (a : A)
| InvalidArgument (what : string).
Arguments Ok {A} a.
Arguments InvalidArgument {A} what.

(** An operation on the register: its outcome and the register it leaves,
    also when it throws. *)
Definition op (A : Type) : Type := CoherentUnit -> outcome A * CoherentUnit.

Definition ret {A : Type} (a : A) : op A := fun q => (Ok a, q).
Definition throw {A : Type} (what : string) : op A := fun q => (InvalidArgument what, q).
Definition bind {A B : Type} (c : op A) (k : A -> op B) : op B :=
  fun q => match c q with
           | (Ok a, q') => k a q'
           | (InvalidArgument what, q') => (InvalidArgument what, q')
           end.
(** A call of a method that does not throw. *)
Definition run (f : CoherentUnit -> CoherentUnit) : op unit := fun q => (Ok tt, f q).
Definition call {A : Type} (f : CoherentUnit -> A * CoherentUnit) : op A :=
  fun q => let (a, q') := f q in (Ok a, q').

Notation "'let*' x ':=' c 'in' k" := (bind c (fun x => k))
  (at level 10, x name, c at level 100, k at level 200, only parsing).

Definition is_InvalidArgument {A : Type} (o : outcome A) : bool :=
  match o with Ok _ => false | InvalidArgument _ => true end.

(** ** Normalization *)

(** [CoherentUnit::NormalizeState].  The division is that of the source for a
    [runningNorm] other than 0 (a [double] divided by 0 is infinite or not a
    number, which the reals do not have). *)
Definition NormalizeState (q : CoherentUnit) : CoherentUnit :=
  let sv := par_for 0 (maxQPower q) (fun lcv sv =>
              let sv := set_at sv lcv (Cdiv (at_ sv lcv) (runningNorm q)) in
              if Rltb (norm (at_ sv lcv)) 1e-15 then set_at sv lcv Czero else sv)
            (stateVec q) in
  with_runningNorm 1 (with_stateVec sv q).

(** [CoherentUnit::par_norm]: the workers add up [norm(stateArray[i])] over
    the indices they draw; the partial sums are added and the root taken. *)
Definition par_norm (maxQPower : Z) (stateArray : list Complex16) : R :=
  sqrt (for_loop (Z.to_nat maxQPower) 0
          (fun i sqrNorm => (sqrNorm + norm (at_ stateArray i))%R) 0%R).

Definition UpdateRunningNorm (q : CoherentUnit) : CoherentUnit :=
  with_runningNorm (par_norm (maxQPower q) (stateVec q)) q.

(** [if (runningNorm != 1.0) NormalizeState();] *)
Definition normalize_if_needed (q : CoherentUnit) : CoherentUnit :=
  if Reqb (runningNorm q) 1 then q else NormalizeState q.

(** ** Probability and measurement of one qubit *)

(** [CoherentUnit::Prob]. *)
Definition Prob (qubitIndex : Z) (q : CoherentUnit) : R * CoherentUnit :=
  let q := normalize_if_needed q in
  let qPower := Z.shiftl 1 qubitIndex in
  let oneChance :=
    for_loop (Z.to_nat (maxQPower q)) 0 (fun lcv oneChance =>
      if Z.land lcv qPower =? qPower then (oneChance + norm (at_ (stateVec q) lcv))%R
      else oneChance) 0%R in
  (oneChance, q).

(** [CoherentUnit::M]. *)
Definition M (qubitIndex : Z) (q : CoherentUnit) : bool * CoherentUnit :=
  let q := normalize_if_needed q in
  let '(prob, q) := Rand q in
  let '(r, q) := Rand q in
  let angle := (r * 2 * PI)%R in
  let cosine := cos angle in
  let sine := sin angle in
  let qPowers := Z.shiftl 1 qubitIndex in
  let '(oneChance, q) := Prob qubitIndex q in
  let result := Rltb prob oneChance && Rltb 0 oneChance in
  let sv :=
    if result then
      let nrmlzr := if Rltb 0 oneChance then oneChance else 1%R in
      let nrm := Cdiv (mkComplex16 cosine sine) nrmlzr in
      par_for 0 (maxQPower q) (fun lcv sv =>
        if Z.land lcv qPowers =? 0 then set_at sv lcv Czero
        else set_at sv lcv (Cmul nrm (at_ sv lcv))) (stateVec q)
    else
      let nrmlzr := if Rltb oneChance 1 then sqrt (1 - oneChance) else 1%R in
      let nrm := Cdiv (mkComplex16 cosine sine) nrmlzr in
      par_for 0 (maxQPower q) (fun lcv sv =>
        if Z.land lcv qPowers =? 0 then set_at sv lcv (Cmul nrm (at_ sv lcv))
        else set_at sv lcv Czero) (stateVec q) in
  (result, UpdateRunningNorm (with_stateVec sv q)).

(** ** The 2x2 kernel and the gates built on it *)

Section Gates.
Context `{BitCapInt}.

(** Modelled from the spec: [Apply2x2] (its definition is not among the
    sources).  For every combination [c] of the other bits, [k] is [c] with
    zeros inserted at the bit positions of [qPowersSorted], low to high (the
    increment of [par_for_mask]); the amplitudes [a], [b] at [k | offset1]
    and [k | offset2] become [mtrx[0]*a + mtrx[1]*b] and
    [mtrx[2]*a + mtrx[3]*b].  With [doCalcNorm] the kernel accumulates
    [|a|^2 + |b|^2] of what it writes and updates [runningNorm] with it;
    otherwise [runningNorm] is left unchanged. *)
Definition Apply2x2 (offset1 offset2 : Z) (mtrx : list Complex16) (bitCount : Z)
    (qPowersSorted : list Z) (runningNormOnly doCalcNorm : bool)
    (q : CoherentUnit) : CoherentUnit :=
  let '(sv, nrmSqr) :=
    for_loop (Z.to_nat (Z.shiftr (maxQPower q) bitCount)) 0 (fun c '(sv, nrmSqr) =>
      let k := mask_inc qPowersSorted c in
      let a := at_ sv (Z.lor k offset1) in
      let b := at_ sv (Z.lor k offset2) in
      let a' := Cadd (Cmul (at_ mtrx 0) a) (Cmul (at_ mtrx 1) b) in
      let b' := Cadd (Cmul (at_ mtrx 2) a) (Cmul (at_ mtrx 3) b) in
      (set_at (set_at sv (Z.lor k offset1) a') (Z.lor k offset2) b',
       (nrmSqr + (norm a' + norm b'))%R))
    (stateVec q, 0%R) in
  let q := with_stateVec sv q in
  if doCalcNorm then with_runningNorm (sqrt nrmSqr) q else q.

(** [std::sort] on an array of powers. *)
Fixpoint insert_sorted (x : Z) (l : list Z) : list Z :=
  match l with
  | [] => [x]
  | y :: l' => if x <=? y then x :: l else y :: insert_sorted x l'
  end.
Definition sort (l : list Z) : list Z := fold_right insert_sorted [] l.

Definition ApplySingleBit (qubitIndex : Z) (mtrx : list Complex16) (doCalcNorm : bool)
    (q : CoherentUnit) : CoherentUnit :=
  let qPowers := [Z.shiftl 1 qubitIndex] in
  Apply2x2 0 (at_Z qPowers 0) mtrx 1 qPowers true doCalcNorm q.

Definition ApplyControlled2x2 (control target : Z) (mtrx : list Complex16)
    (doCalcNorm : bool) (q : CoherentUnit) : CoherentUnit :=
  let qPowers1 := Z.shiftl 1 control in
  let qPowers2 := Z.shiftl 1 target in
  let qPowers0 := qPowers1 + qPowers2 in
  let qPowersSorted := sort [qPowers1; qPowers2] in
  Apply2x2 qPowers0 qPowers1 mtrx 2 qPowersSorted false doCalcNorm q.

Definition ApplyAntiControlled2x2 (control target : Z) (mtrx : list Complex16)
    (doCalcNorm : bool) (q : CoherentUnit) : CoherentUnit :=
  let qPowers1 := Z.shiftl 1 control in
  let qPowers2 := Z.shiftl 1 target in
  let qPowersSorted := sort [qPowers1; qPowers2] in
  Apply2x2 0 qPowers2 mtrx 2 qPowersSorted false doCalcNorm q.

Definition pauliX : list Complex16 :=
  [mkComplex16 0 0; mkComplex16 1 0; mkComplex16 1 0; mkComplex16 0 0].

(** [CoherentUnit::X(bitLenInt)]. *)
Definition X (qubitIndex : Z) (q : CoherentUnit) : CoherentUnit :=
  ApplySingleBit qubitIndex pauliX false q.

(** [CoherentUnit::CNOT(bitLenInt, bitLenInt)]. *)
Definition CNOT (control target : Z) : op unit :=
  if control =? target then throw "CNOT control bit cannot also be target."
  else run (ApplyControlled2x2 control target pauliX false).

(** [CoherentUnit::AntiCNOT(bitLenInt, bitLenInt)]. *)
Definition AntiCNOT (control target : Z) : op unit :=
  if control =? target then throw "CNOT control bit cannot also be target."
  else run (ApplyAntiControlled2x2 control target pauliX false).

(** [CoherentUnit::CCNOT]. *)
Definition CCNOT (control1 control2 target : Z) : op unit :=
  if control1 =? control2 then throw "CCNOT control bits cannot be same bit."
  else if (control1 =? target) || (control2 =? target)
  then throw "CCNOT control bits cannot also be target."
  else
    let qPowers1 := Z.shiftl 1 control1 in
    let qPowers2 := Z.shiftl 1 control2 in
    let qPowers3 := Z.shiftl 1 target in
    let qPowers0 := qPowers1 + qPowers2 + qPowers3 in
    let qPowersSorted := sort [qPowers1; qPowers2; qPowers3] in
    run (Apply2x2 qPowers0 (qPowers1 + qPowers2) pauliX 3 qPowersSorted false false).

(** [CoherentUnit::AntiCCNOT]. *)
Definition AntiCCNOT (control1 control2 target : Z) : op unit :=
  if control1 =? control2 then throw "CCNOT control bits cannot be same bit."
  else if (control1 =? target) || (control2 =? target)
  then throw "CCNOT control bits cannot also be target."
  else
    let qPowers1 := Z.shiftl 1 control1 in
    let qPowers2 := Z.shiftl 1 control2 in
    let qPowers3 := Z.shiftl 1 target in
    let qPowersSorted := sort [qPowers1; qPowers2; qPowers3] in
    run (Apply2x2 0 qPowers3 pauliX 3 qPowersSorted false false).

(** [CoherentUnit::SetBit]. *)
Definition SetBit (qubitIndex1 : Z) (value : bool) (q : CoherentUnit) : CoherentUnit :=
  let '(m, q) := M qubitIndex1 q in
  if negb (eqb value m) then X qubitIndex1 q else q.

(** ** Logic gates on single qubits *)

(** [CoherentUnit::AND(bitLenInt, bitLenInt, bitLenInt)]. *)
Definition AND (inputBit1 inputBit2 outputBit : Z) : op unit :=
  if (inputBit1 =? inputBit2) && (inputBit2 =? outputBit) then ret tt
  else if negb (inputBit1 =? outputBit) && negb (inputBit2 =? outputBit) then
    let* _ := run (SetBit outputBit false) in
    if inputBit1 =? inputBit2 then CNOT inputBit1 outputBit
    else CCNOT inputBit1 inputBit2 outputBit
  else throw "Invalid AND arguments.".

(** [CoherentUnit::OR(bitLenInt, bitLenInt, bitLenInt)]. *)
Definition OR (inputBit1 inputBit2 outputBit : Z) : op unit :=
  if (inputBit1 =? inputBit2) && (inputBit2 =? outputBit) then ret tt
  else if negb (inputBit1 =? outputBit) && negb (inputBit2 =? outputBit) then
    let* _ := run (SetBit outputBit true) in
    if inputBit1 =? inputBit2 then AntiCNOT inputBit1 outputBit
    else AntiCCNOT inputBit1 inputBit2 outputBit
  else throw "Invalid OR arguments.".

(** [CoherentUnit::XOR(bitLenInt, bitLenInt, bitLenInt)]. *)
Definition XOR (inputBit1 inputBit2 outputBit : Z) : op unit :=
  if (inputBit1 =? inputBit2) && (inputBit2 =? outputBit) then
    run (SetBit outputBit false)
  else if inputBit1 =? outputBit then CNOT inputBit2 outputBit
  else if inputBit2 =? outputBit then CNOT inputBit1 outputBit
  else
    let* _ := run (SetBit outputBit false) in
    let* _ := CNOT inputBit1 outputBit in
    CNOT inputBit2 outputBit.

(** ** Rotations *)

(** [CoherentUnit::RT(double, bitLenInt)]. *)
Definition RT (radians : R) (qubitIndex : Z) (q : CoherentUnit) : CoherentUnit :=
  let cosine := cos (radians / 2) in
  let sine := sin (radians / 2) in
  let mtrx := [mkComplex16 1 0; mkComplex16 0 0; mkComplex16 0 0; mkComplex16 cosine sine] in
  ApplySingleBit qubitIndex mtrx true q.

(** [CoherentUnit::RX(double, bitLenInt)]. *)
Definition RX (radians : R) (qubitIndex : Z) (q : CoherentUnit) : CoherentUnit :=
  let cosine := cos (radians / 2) in
  let sine := sin (radians / 2) in
  let pauliRX := [mkComplex16 cosine 0; mkComplex16 0 (- sine);
                  mkComplex16 0 (- sine); mkComplex16 cosine 0] in
  ApplySingleBit qubitIndex pauliRX true q.

(** [CoherentUnit::RY(double, bitLenInt)]. *)
Definition RY (radians : R) (qubitIndex : Z) (q : CoherentUnit) : CoherentUnit :=
  let cosine := cos (radians / 2) in
  let sine := sin (radians / 2) in
  let pauliRY := [mkComplex16 cosine 0; mkComplex16 (- sine) 0;
                  mkComplex16 sine 0; mkComplex16 cosine 0] in
  ApplySingleBit qubitIndex pauliRY true q.

(** [CoherentUnit::RZ(double, bitLenInt)]. *)
Definition RZ (radians : R) (qubitIndex : Z) (q : CoherentUnit) : CoherentUnit :=
  let cosine := cos (radians / 2) in
  let sine := sin (radians / 2) in
  let pauliRZ := [mkComplex16 cosine (- sine); mkComplex16 0 0;
                  mkComplex16 0 0; mkComplex16 cosine sine] in
  ApplySingleBit qubitIndex pauliRZ true q.

(** [CoherentUnit::RTDyad(int, int, bitLenInt)]. *)
Definition RTDyad (numerator denominator : Z) (qubitIndex : Z) (q : CoherentUnit)
    : CoherentUnit :=
  RT ((PI * IZR numerator * 2) / IZR denominator) qubitIndex q.

(** [CoherentUnit::RXDyad(int, int, bitLenInt)]. *)
Definition RXDyad (numerator denominator : Z) (qubitIndex : Z) (q : CoherentUnit)
    : CoherentUnit :=
  RX ((- PI * IZR numerator * 2) / IZR denominator) qubitIndex q.

(** [CoherentUnit::RYDyad(int, int, bitLenInt)]. *)
Definition RYDyad (numerator denominator : Z) (qubitIndex : Z) (q : CoherentUnit)
    : CoherentUnit :=
  RY ((- PI * IZR numerator * 2) / IZR denominator) qubitIndex q.

(** [CoherentUnit::RZDyad(int, int, bitLenInt)]. *)
Definition RZDyad (numerator denominator : Z) (qubitIndex : Z) (q : CoherentUnit)
    : CoherentUnit :=
  RZ ((- PI * IZR numerator * 2) / IZR denominator) qubitIndex q.

(** [CoherentUnit::CRT(double, bitLenInt, bitLenInt)]. *)
Definition CRT (radians : R) (control target : Z) : op unit :=
  if control =? target then throw "control bit cannot also be target."
  else
    let cosine := cos (radians / 2) in
    let sine := sin (radians / 2) in
    let mtrx := [mkComplex16 1 0; mkComplex16 0 0; mkComplex16 0 0;
                 mkComplex16 cosine sine] in
    run (ApplyControlled2x2 control target mtrx true).

(** [CoherentUnit::CRTDyad(int, int, bitLenInt, bitLenInt)]. *)
Definition CRTDyad (numerator denominator : Z) (control target : Z) : op unit :=
  if control =? target then throw "CRTDyad control bit cannot also be target."
  else CRT ((- PI * IZR numerator * 2) / IZR denominator) control target.

(** [CoherentUnit::CRX(double, bitLenInt, bitLenInt)]. *)
Definition CRX (radians : R) (control target : Z) : op unit :=
  if control =? target then throw "CRX control bit cannot also be target."
  else
    let cosine := cos (radians / 2) in
    let sine := sin (radians / 2) in
    let pauliRX := [mkComplex16 cosine 0; mkComplex16 0 (- sine);
                    mkComplex16 0 (- sine); mkComplex16 cosine 0] in
    run (ApplyControlled2x2 control target pauliRX true).

(** [CoherentUnit::CRXDyad(int, int, bitLenInt, bitLenInt)]. *)
Definition CRXDyad (numerator denominator : Z) (control target : Z) : op unit :=
  if control =? target then throw "CRXDyad control bit cannot also be target."
  else CRX ((- PI * IZR numerator * 2) / IZR denominator) control target.

(** [CoherentUnit::CRY(double, bitLenInt, bitLenInt)]. *)
Definition CRY (radians : R) (control target : Z) : op unit :=
  if control =? target then throw "CRY control bit cannot also be target."
  else
    let cosine := cos (radians / 2) in
    let sine := sin (radians / 2) in
    let pauliRY := [mkComplex16 cosine 0; mkComplex16 (- sine) 0;
                    mkComplex16 sine 0; mkComplex16 cosine 0] in
    run (ApplyControlled2x2 control target pauliRY true).

(** [CoherentUnit::CRYDyad(int, int, bitLenInt, bitLenInt)]. *)
Definition CRYDyad (numerator denominator : Z) (control target : Z) : op unit :=
  if control =? target then throw "CRYDyad control bit cannot also be target."
  else CRY ((- PI * IZR numerator * 2) / IZR denominator) control target.

(** [CoherentUnit::CRZ(double, bitLenInt, bitLenInt)]. *)
Definition CRZ (radians : R) (control target : Z) : op unit :=
  if control =? target then throw "CRZ control bit cannot also be target."
  else
    let cosine := cos (radians / 2) in
    let sine := sin (radians / 2) in
    let pauliRZ := [mkComplex16 cosine (- sine); mkComplex16 0 0;
                    mkComplex16 0 0; mkComplex16 cosine sine] in
    run (ApplyControlled2x2 control target pauliRZ true).

(** [CoherentUnit::CRZDyad(int, int, bitLenInt, bitLenInt)]. *)
Definition CRZDyad (numerator denominator : Z) (control target : Z) : op unit :=
  if control =? target then throw "CRZDyad control bit cannot also be target."
  else CRZ ((- PI * IZR numerator * 2) / IZR denominator) control target.
End Gates.

(** ** Measurement of a register of qubits *)

Definition at_R (a : list R) (i : Z) : R := default 0%R (a !! Z.to_nat i).

(** The locals of the selection loop of [MReg]. *)
Record MReg_locals : Type := mkMReg_locals {
  foundPerm : bool;
  lcv_ : Z;
  lowerProb : R;
  largestProb : R;
  result_ : Z;
  nrmlzr_ : R
}.

(** [while ((!foundPerm) && (lcv < maxQPower)) { ... }]: every pass either
    sets [foundPerm] or increments [lcv], so [maxQPower] passes are enough. *)
Fixpoint MReg_select (passes : nat) (maxQPower : Z) (prob : R) (probArray : list R)
    (s : MReg_locals) : MReg_locals :=
  match passes with
  | O => s
  | S passes' =>
      if negb (foundPerm s) && (lcv_ s <? maxQPower) then
        let p := at_R probArray (lcv_ s) in
        if Rltb prob (p + lowerProb s) then
          MReg_select passes' maxQPower prob probArray
            (mkMReg_locals true (lcv_ s) (lowerProb s) (largestProb s) (lcv_ s) p)
        else
          let s' :=
            if Rleb (largestProb s) p
            then mkMReg_locals (foundPerm s) (lcv_ s) (lowerProb s) p (lcv_ s) p
            else s in
          MReg_select passes' maxQPower prob probArray
            (mkMReg_locals (foundPerm s') (lcv_ s' + 1) (lowerProb s' + p)
                           (largestProb s') (result_ s') (nrmlzr_ s'))
      else s
  end.

Section Registers.
Context `{BitCapInt}.

(** The two loops of [MReg] that fill [probArray]: zero its [lengthPower]
    entries, then add [norm(stateVec[lcv])] to the entry of the register value
    of [lcv]. *)
Definition MReg_probArray (start length : Z) (q : CoherentUnit) : list R :=
  let lengthPower := Z.shiftl 1 length in
  let regMask := cap_shl (lengthPower - 1) start in
  let probArray := replicate (Z.to_nat lengthPower) 0%R in
  for_loop (Z.to_nat (maxQPower q)) 0 (fun lcv probArray =>
    let i := Z.shiftr (Z.land lcv regMask) start in
    <[Z.to_nat i := (at_R probArray i + norm (at_ (stateVec q) lcv))%R]> probArray)
  probArray.

(** The last loop of [MReg]: the collapse onto [resultPtr]. *)
Definition MReg_collapse (resultPtr : Z) (nrm : Complex16) (q : CoherentUnit)
    : list Complex16 :=
  par_for 0 (maxQPower q) (fun lcv sv =>
    if Z.land lcv resultPtr =? resultPtr then set_at sv lcv (Cmul nrm (at_ sv lcv))
    else set_at sv lcv Czero) (stateVec q).

(** [CoherentUnit::MReg].  [probArray] is read at [lcv < maxQPower], beyond its
    [lengthPower] entries too (here: zero).  [nrmlzr] is declared without an
    initialiser; the first pass of the loop assigns it (here it starts at 0). *)
Definition MReg (start length : Z) (q : CoherentUnit) : Z * CoherentUnit :=
  if length =? 1 then
    let '(m, q) := M start q in
    ((if m then 1 else 0), q)
  else
    let q := normalize_if_needed q in
    let '(prob, q) := Rand q in
    let '(r, q) := Rand q in
    let angle := (r * 2 * PI)%R in
    let cosine := cos angle in
    let sine := sin angle in
    let lengthPower := Z.shiftl 1 length in
    let probArray := MReg_probArray start length q in
    let s := MReg_select (Z.to_nat (maxQPower q)) (maxQPower q) prob probArray
               (mkMReg_locals false 0 0 0 (cap_sub lengthPower 1) 0) in
    let result := result_ s in
    let nrmlzr := nrmlzr_ s in
    let resultPtr := cap_shl result start in
    let nrm := Cdiv (mkComplex16 cosine sine) nrmlzr in
    let sv := MReg_collapse resultPtr nrm q in
    (result, UpdateRunningNorm (with_stateVec sv q)).

(** [CoherentUnit::SetReg]. *)
Definition SetReg (start length value : Z) (q : CoherentUnit) : CoherentUnit :=
  if length =? 1 then SetBit start (value =? 1) q
  else if (start =? 0) && (length =? qubitCount q) then
    let '(r, q) := Rand q in
    let angle := (r * 2 * PI)%R in
    let q := with_runningNorm 1 q in
    let sv := for_loop (Z.to_nat (maxQPower q)) 0 (fun i sv => set_at sv i Czero)
                (stateVec q) in
    with_stateVec (set_at sv value (mkComplex16 (cos angle) (sin angle))) q
  else
    let '(regVal, q) := MReg start length q in
    for_loop (Z.to_nat length) 0 (fun i q =>
      let bitVal := negb (Z.land regVal (Z.shiftl 1 i) =? 0) in
      let valueBit := negb (Z.land value (Z.shiftl 1 i) =? 0) in
      if (bitVal && negb valueBit) || (negb bitVal && valueBit)
      then X (start + i) q else q) q.

(** ** Composition of registers *)

(** [CoherentUnit::Cohere(CoherentUnit&)]: the register and [toCopy] as the
    call leaves them.  The fresh buffer is written at every index. *)
Definition Cohere (toCopy : CoherentUnit) (q : CoherentUnit) : CoherentUnit * CoherentUnit :=
  let q := normalize_if_needed q in
  let toCopy := normalize_if_needed toCopy in
  let nQubitCount := qubitCount q + qubitCount toCopy in
  let nMaxQPower := Z.shiftl 1 nQubitCount in
  let startMask := Z.shiftl 1 (qubitCount q) - 1 in
  let endMask := Z.shiftl (Z.shiftl 1 (qubitCount toCopy) - 1) (qubitCount q) in
  let nStateVec := new_zeroed nMaxQPower in
  let nStateVec :=
    par_for 0 nMaxQPower (fun lcv nStateVec =>
      set_at nStateVec lcv
        (Cmul (at_ (stateVec q) (Z.land lcv startMask))
              (at_ (stateVec toCopy) (Z.shiftr (Z.land lcv endMask) (qubitCount q)))))
      nStateVec in
  let q := with_size nQubitCount nMaxQPower q in
  (UpdateRunningNorm (ResetStateVec nStateVec q), toCopy).
End Registers.

(** ** Binary coded decimal arithmetic *)

(** Conversions to [char] and [unsigned char]. *)
Definition to_char (z : Z) : Z := (z + 128) mod 256 - 128.
Definition to_uchar (z : Z) : Z := z mod 256.

Section BCD.
Context `{BitCapInt}.

(** The first loop of the BCD kernels, from nibble [from] on: split the
    register into nibbles and combine each one with a decimal digit of the
    operand ([combine] is [+] or [-]); [test2_checked] tells whether the
    kernel also rejects a digit above 9. *)
Definition BCD_nibbles (combine : Z -> Z -> Z) (test2_checked : bool)
    (from : Z) (count : nat) (inOutInt : Z)
    (locals : Z * list Z * bool) : Z * list Z * bool :=
  for_loop count from (fun j '(partToAdd, nibbles, isValid) =>
    let test1 := to_char (Z.shiftr (Z.land inOutInt (Z.shiftl 15 (j * 4))) (j * 4)) in
    let test2 := to_char (partToAdd mod 10) in
    let partToAdd := partToAdd / 10 in
    let nibbles := <[Z.to_nat j := to_char (combine test1 test2)]> nibbles in
    let isValid :=
      if (9 <? test1) || (test2_checked && (9 <? test2)) then false else isValid in
    (partToAdd, nibbles, isValid)) locals.

(** The second loop of [INCBCD] and [INCBCDC]: decimal carries.  The last
    component tells whether the top nibble carried out. *)
Definition INCBCD_carries (nibbleCount : Z) (nibbles : list Z) : list Z * Z * bool :=
  for_loop (Z.to_nat nibbleCount) 0 (fun j '(nibbles, outInt, carryOut) =>
    let '(nibbles, carryOut) :=
      if 9 <? at_Z nibbles j then
        let nibbles := <[Z.to_nat j := to_char (at_Z nibbles j - 10)]> nibbles in
        if to_uchar (j + 1) <? nibbleCount
        then (<[Z.to_nat (j + 1) := to_char (at_Z nibbles (j + 1) + 1)]> nibbles, carryOut)
        else (nibbles, true)
      else (nibbles, carryOut) in
    let outInt := Z.lor outInt (wrap (Z.shiftl (at_Z nibbles j) (j * 4))) in
    (nibbles, outInt, carryOut)) (nibbles, 0, false).

(** The second loop of [DECBCD] and [DECBCDC]: decimal borrows. *)
Definition DECBCD_borrows (nibbleCount : Z) (nibbles : list Z) : list Z * Z * bool :=
  for_loop (Z.to_nat nibbleCount) 0 (fun j '(nibbles, outInt, carryOut) =>
    let '(nibbles, carryOut) :=
      if at_Z nibbles j <? 0 then
        let nibbles := <[Z.to_nat j := to_char (at_Z nibbles j + 10)]> nibbles in
        if to_uchar (j + 1) <? nibbleCount
        then (<[Z.to_nat (j + 1) := to_char (at_Z nibbles (j + 1) - 1)]> nibbles, carryOut)
        else (nibbles, true)
      else (nibbles, carryOut) in
    let outInt := Z.lor outInt (wrap (Z.shiftl (at_Z nibbles j) (j * 4))) in
    (nibbles, outInt, carryOut)) (nibbles, 0, false).

(** [CoherentUnit::INCBCD]. *)
Definition INCBCD (toAdd inOutStart length : Z) : op unit :=
  let nibbleCount := length / 4 in
  if negb (nibbleCount * 4 =? length)
  then throw "BCD word bit length must be a multiple of 4."
  else run (fun q =>
    let inOutMask := Z.shiftl (Z.shiftl 1 length - 1) inOutStart in
    let otherMask := Z.shiftl 1 (qubitCount q) - 1 in
    let otherMask := Z.lxor otherMask inOutMask in
    let nStateVec := new_zeroed (maxQPower q) in
    let nStateVec :=
      par_for 0 (maxQPower q) (fun lcv nStateVec =>
        let otherRes := Z.land lcv otherMask in
        let inOutRes := Z.land lcv inOutMask in
        let inOutInt := Z.shiftr inOutRes inOutStart in
        let nibbles := replicate (Z.to_nat nibbleCount) 0 in
        let '(_, nibbles, isValid) :=
          BCD_nibbles Z.add false 0 (Z.to_nat nibbleCount) inOutInt (toAdd, nibbles, true) in
        if isValid then
          let '(_, outInt, _) := INCBCD_carries nibbleCount nibbles in
          set_at nStateVec (Z.lor (cap_shl outInt inOutStart) otherRes) (at_ (stateVec q) lcv)
        else set_at nStateVec lcv (at_ (stateVec q) lcv)) nStateVec in
    ResetStateVec nStateVec q).

(** [CoherentUnit::DECBCD]. *)
Definition DECBCD (toAdd inOutStart length : Z) : op unit :=
  let nibbleCount := length / 4 in
  if negb (nibbleCount * 4 =? length)
  then throw "BCD word bit length must be a multiple of 4."
  else run (fun q =>
    let otherMask := Z.shiftl 1 (qubitCount q) - 1 in
    let inOutMask := Z.shiftl (Z.shiftl 1 length - 1) inOutStart in
    let otherMask := Z.lxor otherMask inOutMask in
    let nStateVec := new_zeroed (maxQPower q) in
    let nStateVec :=
      par_for 0 (maxQPower q) (fun lcv nStateVec =>
        let otherRes := Z.land lcv otherMask in
        let inOutRes := Z.land lcv inOutMask in
        let inOutInt := Z.shiftr inOutRes inOutStart in
        let nibbles := replicate (Z.to_nat nibbleCount) 0 in
        let '(_, nibbles, isValid) :=
          BCD_nibbles Z.sub false 0 (Z.to_nat nibbleCount) inOutInt (toAdd, nibbles, true) in
        if isValid then
          let '(_, outInt, _) := DECBCD_borrows nibbleCount nibbles in
          set_at nStateVec (Z.lor (cap_shl outInt inOutStart) otherRes) (at_ (stateVec q) lcv)
        else set_at nStateVec lcv (at_ (stateVec q) lcv)) nStateVec in
    ResetStateVec nStateVec q).

(** The carry-in of the [*C] operations: measure the carry qubit; when it
    is set, reset it with [X] and increment the classical operand. *)
Definition carry_in (operand carryIndex : Z) : op Z :=
  let* hasCarry := call (M carryIndex) in
  if (hasCarry : bool) then
    let* _ := run (X carryIndex) in
    ret (cap_add operand 1)
  else ret operand.

(** [CoherentUnit::INCBCDC]. *)
Definition INCBCDC (toAdd inOutStart length carryIndex : Z) : op unit :=
  let* toAdd := carry_in toAdd carryIndex in
  let nibbleCount := length / 4 in
  if negb (nibbleCount * 4 =? length)
  then throw "BCD word bit length must be a multiple of 4."
  else run (fun q =>
    let inOutMask := Z.shiftl (Z.shiftl 1 length - 1) inOutStart in
    let otherMask := Z.shiftl 1 (qubitCount q) - 1 in
    let carryMask := Z.shiftl 1 carryIndex in
    let otherMask := Z.lxor otherMask (Z.lor inOutMask carryMask) in
    let nStateVec := new_zeroed (maxQPower q) in
    let nStateVec :=
      par_for_skip 0 (maxQPower q) (Z.shiftl 1 carryIndex) 1 (fun lcv nStateVec =>
        let otherRes := Z.land lcv otherMask in
        let inOutRes := Z.land lcv inOutMask in
        let inOutInt := Z.shiftr inOutRes inOutStart in
        let nibbles := replicate (Z.to_nat nibbleCount) 0 in
        let first := BCD_nibbles Z.add true 0 1 inOutInt (toAdd, nibbles, true) in
        let '(_, nibbles, isValid) :=
          BCD_nibbles Z.add true 1 (Z.to_nat (nibbleCount - 1)) inOutInt first in
        if isValid then
          let '(_, outInt, carryOut) := INCBCD_carries nibbleCount nibbles in
          let carryRes := if carryOut then carryMask else 0 in
          let outRes := Z.lor (Z.lor (cap_shl outInt inOutStart) otherRes) carryRes in
          set_at nStateVec outRes (at_ (stateVec q) lcv)
        else set_at nStateVec lcv (at_ (stateVec q) lcv)) nStateVec in
    ResetStateVec nStateVec q).

(** [CoherentUnit::DECBCDC]. *)
Definition DECBCDC (toSub inOutStart length carryIndex : Z) : op unit :=
  let* toSub := carry_in toSub carryIndex in
  let nibbleCount := length / 4 in
  if negb (nibbleCount * 4 =? length)
  then throw "BCD word bit length must be a multiple of 4."
  else run (fun q =>
    let inOutMask := Z.shiftl (Z.shiftl 1 length - 1) inOutStart in
    let otherMask := Z.shiftl 1 (qubitCount q) - 1 in
    let carryMask := Z.shiftl 1 carryIndex in
    let otherMask := Z.lxor otherMask (Z.lor inOutMask carryMask) in
    let nStateVec := new_zeroed (maxQPower q) in
    let nStateVec :=
      par_for_skip 0 (maxQPower q) (Z.shiftl 1 carryIndex) 1 (fun lcv nStateVec =>
        let otherRes := Z.land lcv otherMask in
        let inOutRes := Z.land lcv inOutMask in
        let inOutInt := Z.shiftr inOutRes inOutStart in
        let nibbles := replicate (Z.to_nat nibbleCount) 0 in
        let first := BCD_nibbles Z.sub false 0 1 inOutInt (toSub, nibbles, true) in
        let '(_, nibbles, isValid) :=
          BCD_nibbles Z.sub false 1 (Z.to_nat (nibbleCount - 1)) inOutInt first in
        if isValid then
          let '(_, outInt, carryOut) := DECBCD_borrows nibbleCount nibbles in
          let carryRes := if carryOut then carryMask else 0 in
          let outRes := Z.lor (Z.lor (cap_shl outInt inOutStart) otherRes) carryRes in
          set_at nStateVec outRes (at_ (stateVec q) lcv)
        else set_at nStateVec lcv (at_ (stateVec q) lcv)) nStateVec in
    ResetStateVec nStateVec q).
End BCD.

(** ** Indexed loads from classical memory *)

(** [(unsigned char)x] for a double [x]: the fraction is discarded. *)
Definition trunc (x : R) : Z :=
  if Rle_dec 0 x then Int_part x else - Int_part (- x).
Definition uchar_of_double (x : R) : Z := to_uchar (trunc x).

Section Superposed.
Context `{BitCapInt}.

(** [for (j = 0; j < valueBytes; j++) outputInt |= values[inputInt * valueBytes + j] << (8 * j);] *)
Definition load_value (values : list Z) (valueBytes inputInt : Z) : Z :=
  for_loop (Z.to_nat valueBytes) 0 (fun j outputInt =>
    Z.lor outputInt (wrap (Z.shiftl (at_Z values (inputInt * valueBytes + j)) (8 * j)))) 0.

(** The loop that accumulates the expectation value of the value register
    into the local [average]. *)
Definition accumulate_average (maxQPower outputMask valueStart : Z)
    (nStateVec : list Complex16) (average : R) : R :=
  for_loop (Z.to_nat maxQPower) 0 (fun i average =>
    let outputInt := Z.shiftr (Z.land i outputMask) valueStart in
    let prob := norm (at_ nStateVec i) in
    (average + prob * IZR outputInt)%R) average.

(** [CoherentUnit::SuperposedLDA].  The local [average] is declared without
    an initialiser ([double prob, average;]) and first used by [+=]: what it
    holds when the loop starts is an input of the model. *)
Definition SuperposedLDA (indexStart indexLength valueStart valueLength : Z)
    (values : list Z) (average : R) (q : CoherentUnit) : Z * CoherentUnit :=
  let q := SetReg valueStart valueLength 0 q in
  let valueBytes := (valueLength + 7) / 8 in
  let inputMask := Z.shiftl (Z.shiftl 1 indexLength - 1) indexStart in
  let outputMask := Z.shiftl (Z.shiftl 1 valueLength - 1) valueStart in
  let skipPower := Z.shiftl 1 valueStart in
  let nStateVec := new_zeroed (maxQPower q) in
  let nStateVec :=
    par_for_skip 0 (maxQPower q) skipPower 8 (fun lcv nStateVec =>
      let inputRes := Z.land lcv inputMask in
      let inputInt := Z.shiftr inputRes indexStart in
      let outputInt := load_value values valueBytes inputInt in
      let outputRes := cap_shl outputInt valueStart in
      set_at nStateVec (Z.lor outputRes lcv) (at_ (stateVec q) lcv)) nStateVec in
  let average := accumulate_average (maxQPower q) outputMask valueStart nStateVec average in
  (uchar_of_double (average + 0.5), ResetStateVec nStateVec q).

(** [CoherentUnit::SuperposedADC]; [average] as in [SuperposedLDA]. *)
Definition SuperposedADC (indexStart indexLength valueStart valueLength carryIndex : Z)
    (values : list Z) (average : R) (q : CoherentUnit) : Z * CoherentUnit :=
  let '(m, q) := M carryIndex q in
  let '(carryIn, q) := if (m : bool) then (1, X carryIndex q) else (0, q) in
  let nStateVec := new_zeroed (maxQPower q) in
  let valueBytes := (valueLength + 7) / 8 in
  let lengthPower := Z.shiftl 1 valueLength in
  let carryMask := Z.shiftl 1 carryIndex in
  let inputMask := Z.shiftl (Z.shiftl 1 indexLength - 1) indexStart in
  let outputMask := Z.shiftl (Z.shiftl 1 valueLength - 1) valueStart in
  let otherMask := Z.land (cap_sub (maxQPower q) 1) (cap_not (Z.lor inputMask outputMask)) in
  let skipPower := Z.shiftl 1 carryIndex in
  let nStateVec :=
    par_for_skip 0 (maxQPower q) skipPower 1 (fun lcv nStateVec =>
      let otherRes := Z.land lcv otherMask in
      let inputRes := Z.land lcv inputMask in
      let inputInt := Z.shiftr inputRes indexStart in
      let outputRes := Z.land lcv outputMask in
      let outputInt := load_value values valueBytes inputInt in
      let outputInt := cap_add outputInt (cap_add (Z.shiftr outputRes valueStart) carryIn) in
      let '(outputInt, carryRes) :=
        if lengthPower <=? outputInt then (cap_sub outputInt lengthPower, carryMask)
        else (outputInt, 0) in
      let outputRes := cap_shl outputInt valueStart in
      set_at nStateVec (Z.lor (Z.lor (Z.lor outputRes inputRes) otherRes) carryRes)
             (at_ (stateVec q) lcv)) nStateVec in
  let average := accumulate_average (maxQPower q) outputMask valueStart nStateVec average in
  (uchar_of_double (average + 0.5), ResetStateVec nStateVec q).

(** [CoherentUnit::SuperposedSBC]; [average] as in [SuperposedLDA]. *)
Definition SuperposedSBC (indexStart indexLength valueStart valueLength carryIndex : Z)
    (values : list Z) (average : R) (q : CoherentUnit) : Z * CoherentUnit :=
  let '(m, q) := M carryIndex q in
  let '(carryIn, q) := if (m : bool) then (0, X carryIndex q) else (1, q) in
  let nStateVec := new_zeroed (maxQPower q) in
  let valueBytes := (valueLength + 7) / 8 in
  let lengthPower := Z.shiftl 1 valueLength in
  let carryMask := Z.shiftl 1 carryIndex in
  let inputMask := Z.shiftl (Z.shiftl 1 indexLength - 1) indexStart in
  let outputMask := Z.shiftl (Z.shiftl 1 valueLength - 1) valueStart in
  let otherMask := Z.land (cap_sub (maxQPower q) 1) (cap_not (Z.lor inputMask outputMask)) in
  let skipPower := Z.shiftl 1 carryIndex in
  let nStateVec :=
    par_for_skip 0 (maxQPower q) skipPower 1 (fun lcv nStateVec =>
      let otherRes := Z.land lcv otherMask in
      let inputRes := Z.land lcv inputMask in
      let inputInt := Z.shiftr inputRes indexStart in
      let outputRes := Z.land lcv outputMask in
      let outputInt := load_value values valueBytes inputInt in
      let outputInt :=
        cap_add (Z.shiftr outputRes valueStart)
                (cap_sub lengthPower (cap_add outputInt carryIn)) in
      let '(outputInt, carryRes) :=
        if lengthPower <=? outputInt then (cap_sub outputInt lengthPower, carryMask)
        else (outputInt, 0) in
      let outputRes := cap_shl outputInt valueStart in
      set_at nStateVec (Z.lor (Z.lor (Z.lor outputRes inputRes) otherRes) carryRes)
             (at_ (stateVec q) lcv)) nStateVec in
  let average := accumulate_average (maxQPower q) outputMask valueStart nStateVec average in
  (uchar_of_double (average + 0.5), ResetStateVec nStateVec q).
End Superposed.

(** The expectation value of the value register over a state vector: the
    probability-weighted mean of the integer it holds. *)
Definition expectation (maxQPower outputMask valueStart : Z) (sv : list Complex16) : R :=
  for_loop (Z.to_nat maxQPower) 0 (fun i e =>
    (e + norm (at_ sv i) * IZR (Z.shiftr (Z.land i outputMask) valueStart))%R) 0%R.

(** A [bitCapInt] of 64 bits, for the concrete runs below. *)
#[local] Instance uint64 : BitCapInt := 64.

(** The engine whose draws are all [u]. *)
Definition constant_draws (u : R) : nat -> R := fun _ => u.

(** ** Vocabulary of the statements *)

(** The invariant of a register between operations: [maxQPower] is
    [1 << qubitCount], the buffer has [maxQPower] entries, and [1 << qubitCount]
    fits an [int]. *)
Definition well_formed (q : CoherentUnit) : Prop :=
  0 <= qubitCount q <= 30 /\
  maxQPower q = 2 ^ qubitCount q /\
  length (stateVec q) = Z.to_nat (maxQPower q).


(** Where [INC] and [DEC] send the basis index [lcv]: the register
    [start .. start+length-1] receives [v], the other bits stay. *)
Definition moved (n start length v lcv : Z) : Z :=
  Z.lor (Z.shiftl v start)
        (Z.land lcv (Z.lxor (Z.ones n) (Z.shiftl (Z.ones length) start))).
Definition register_value (start length lcv : Z) : Z := (lcv / 2 ^ start) mod 2 ^ length.
Definition reg (start length lcv : Z) : Z :=
  Z.shiftr (Z.land lcv (Z.shiftl (Z.ones length) start)) start.


(** An input bit coincides with the output bit, but not all three do. *)
Definition partial_overlap (inputBit1 inputBit2 outputBit : Z) : Prop :=
  (inputBit1 = outputBit \/ inputBit2 = outputBit) /\
  ~ (inputBit1 = inputBit2 /\ inputBit2 = outputBit).


(** The sum that [Prob] returns for a register with [runningNorm = 1]. *)
Definition oneChance_of (qubitIndex : Z) (q : CoherentUnit) : R :=
  for_loop (Z.to_nat (maxQPower q)) 0 (fun lcv oneChance =>
    if Z.land lcv (Z.shiftl 1 qubitIndex) =? Z.shiftl 1 qubitIndex
    then (oneChance + norm (at_ (stateVec q) lcv))%R
    else oneChance) 0%R.

(** The register after [n] more draws of its engine. *)
Definition drawn (n : nat) (q : CoherentUnit) : CoherentUnit :=
  mkCoherentUnit (qubitCount q) (maxQPower q) (stateVec q) (runningNorm q)
                 (rand_distribution q) (n + rand_drawn q).

(** ** Registers of the concrete runs *)

(** One qubit, amplitudes 3/5 and 4/5. *)
Definition one_qubit_3_4 : CoherentUnit :=
  mkCoherentUnit 1 2 [mkComplex16 (3 / 5) 0; mkComplex16 (4 / 5) 0] 1 (constant_draws 0) 0.

(** One qubit in the state |1>. *)
Definition one_qubit_set : CoherentUnit :=
  mkCoherentUnit 1 2 [mkComplex16 0 0; mkComplex16 1 0] 1 (constant_draws 0) 0.

(** Two qubits, amplitude 3/5 on |00> and 4/5 on |11>; the third draw of the
    engine is 1/2, the others are 0. *)
Definition two_qubits_00_11 : CoherentUnit :=
  mkCoherentUnit 2 4
    [mkComplex16 (3 / 5) 0; mkComplex16 0 0; mkComplex16 0 0; mkComplex16 (4 / 5) 0] 1
    (fun n => if Nat.eqb n 2 then (1 / 2)%R else 0%R) 0.

(** Two qubits in the state |10>: qubit 1 (the carry) is set. *)
Definition two_qubits_carry_set : CoherentUnit :=
  mkCoherentUnit 2 4
    [mkComplex16 0 0; mkComplex16 0 0; mkComplex16 1 0; mkComplex16 0 0] 1
    (constant_draws 0) 0.

(** Two qubits in the state |00>. *)
Definition two_qubits_zero : CoherentUnit :=
  mkCoherentUnit 2 4
    [mkComplex16 1 0; mkComplex16 0 0; mkComplex16 0 0; mkComplex16 0 0] 1
    (constant_draws 0) 0.

(** What [NormalizeState] does to one amplitude. *)
Definition normalized_amplitude (runningNorm : R) (a : Complex16) : Complex16 :=
  let z := Cdiv a runningNorm in
  if Rltb (norm z) 1e-15 then Czero else z.

(** ** Further operations of the register *)

(** [for (i = from; i < from + count; i++) body(i)] where the body can throw. *)
Fixpoint for_op (count : nat) (i : Z) (body : Z -> op unit) : op unit :=
  match count with
  | O => ret tt
  | S count' => bind (body i) (fun _ => for_op count' (i + 1) body)
  end.

(** [CoherentUnit::PhaseFlip]. *)
Definition PhaseFlip (q : CoherentUnit) : CoherentUnit :=
  with_stateVec
    (par_for 0 (maxQPower q) (fun lcv sv => set_at sv lcv (Cneg (at_ sv lcv))) (stateVec q)) q.

(** [CoherentUnit::ProbAll]. *)
Definition ProbAll (fullRegister : Z) (q : CoherentUnit) : R * CoherentUnit :=
  let q := normalize_if_needed q in
  (norm (at_ (stateVec q) fullRegister), q).

(** [CoherentUnit::ProbArray]: the array it fills, and the register. *)
Definition ProbArray (q : CoherentUnit) : list R * CoherentUnit :=
  let q := normalize_if_needed q in
  (for_loop (Z.to_nat (maxQPower q)) 0 (fun lcv probArray =>
     <[Z.to_nat lcv := norm (at_ (stateVec q) lcv)]> probArray)
     (replicate (Z.to_nat (maxQPower q)) 0%R), q).

(** [std::copy(&in[0], &in[0] + n, &out[0])]. *)
Definition copy_n (n : Z) (input output : list Complex16) : list Complex16 :=
  for_loop (Z.to_nat n) 0 (fun i out => set_at out i (at_ input i)) output.

(** [CoherentUnit::SetQuantumState]. *)
Definition SetQuantumState (inputState : list Complex16) (q : CoherentUnit) : CoherentUnit :=
  with_stateVec (copy_n (maxQPower q) inputState (stateVec q)) q.

(** [CoherentUnit::CloneRawState]: the array [output] after the call, and the
    register. *)
Definition CloneRawState (output : list Complex16) (q : CoherentUnit)
    : list Complex16 * CoherentUnit :=
  let q := normalize_if_needed q in
  (copy_n (maxQPower q) (stateVec q) output, q).

Section MoreGates.
Context `{BitCapInt}.

(** [CoherentUnit::par_for_mask], for a register of [qubitCount] qubits: the
    checks, then [par_for_inc] with the increment built from the first
    [maskLen] masks. *)
Definition par_for_mask {St : Type} (qubitCount begin end_ : Z) (maskArray : list Z)
    (maskLen : Z) (fn : Z -> St -> St) (s : St) : outcome St :=
  if qubitCount <? maskLen then InvalidArgument "Too many masks"
  else if for_loop (Z.to_nat (maskLen - 1)) 1
            (fun i unordered => unordered || (at_Z maskArray i <? at_Z maskArray (i - 1)))
            false
  then InvalidArgument "Masks must be ordered by size"
  else Ok (par_for_inc begin end_
             (mask_inc ((fun i => at_Z maskArray i) <$> seqZ 0 maskLen)) fn s).

(** [CoherentUnit::X(bitLenInt start, bitLenInt length)].  The fresh buffer is
    not filled; the loop writes every entry of it when the register lies
    inside the state. *)
Definition X_reg (start length : Z) (q : CoherentUnit) : CoherentUnit :=
  if length =? 1 then X start q
  else
    let inOutMask := Z.shiftl (Z.shiftl 1 length - 1) start in
    let otherMask := Z.lxor (Z.shiftl 1 (qubitCount q) - 1) inOutMask in
    let nStateVec := new_zeroed (maxQPower q) in
    let nStateVec :=
      par_for 0 (maxQPower q) (fun lcv nStateVec =>
        let otherRes := Z.land lcv otherMask in
        let inOutRes := Z.land (cap_not lcv) inOutMask in
        set_at nStateVec (Z.lor inOutRes otherRes) (at_ (stateVec q) lcv)) nStateVec in
    ResetStateVec nStateVec q.

(** [CoherentUnit::Swap(bitLenInt, bitLenInt)]. *)
Definition Swap (qubitIndex1 qubitIndex2 : Z) (q : CoherentUnit) : CoherentUnit :=
  if negb (qubitIndex1 =? qubitIndex2) then
    let qPowers1 := Z.shiftl 1 qubitIndex1 in
    let qPowers2 := Z.shiftl 1 qubitIndex2 in
    let qPowersSorted := sort [qPowers1; qPowers2] in
    Apply2x2 qPowers2 qPowers1 pauliX 2 qPowersSorted false false q
  else q.

(** [CoherentUnit::Swap(bitLenInt start1, bitLenInt start2, bitLenInt length)]. *)
Definition Swap_reg (start1 start2 length : Z) (q : CoherentUnit) : CoherentUnit :=
  if length =? 1 then Swap start1 start2 q
  else
    let distance := start1 - start2 in
    let distance := if distance <? 0 then distance * -1 else distance in
    if distance <? length then
      for_loop (Z.to_nat length) 0 (fun i q => Swap (start1 + i) (start2 + i) q) q
    else
      let reg1Mask := Z.shiftl (Z.shiftl 1 length - 1) start1 in
      let reg2Mask := Z.shiftl (Z.shiftl 1 length - 1) start2 in
      let otherMask := cap_sub (maxQPower q) 1 in
      let otherMask := Z.lxor otherMask (Z.lor reg1Mask reg2Mask) in
      let nStateVec := new_zeroed (maxQPower q) in
      let nStateVec :=
        par_for 0 (maxQPower q) (fun lcv nStateVec =>
          let otherRes := Z.land lcv otherMask in
          let reg1Res := cap_shl (Z.shiftr (Z.land lcv reg1Mask) start1) start2 in
          let reg2Res := cap_shl (Z.shiftr (Z.land lcv reg2Mask) start2) start1 in
          set_at nStateVec (Z.lor (Z.lor reg1Res reg2Res) otherRes) (at_ (stateVec q) lcv))
          nStateVec in
      ResetStateVec nStateVec q.

(** [CoherentUnit::ZeroPhaseFlip]. *)
Definition ZeroPhaseFlip (start length : Z) (q : CoherentUnit) : CoherentUnit :=
  let lengthPower := Z.shiftl 1 length in
  let regMask := cap_shl (lengthPower - 1) start in
  with_stateVec
    (par_for 0 (maxQPower q) (fun lcv sv =>
       if Z.land lcv (cap_not regMask) =? lcv then set_at sv lcv (Cneg (at_ sv lcv)) else sv)
       (stateVec q)) q.

(** [CoherentUnit::CPhaseFlipIfLess]. *)
Definition CPhaseFlipIfLess (greaterPerm start length flagIndex : Z) (q : CoherentUnit)
    : CoherentUnit :=
  let regMask := Z.shiftl (Z.shiftl 1 length - 1) start in
  let flagMask := Z.shiftl 1 flagIndex in
  with_stateVec
    (par_for 0 (maxQPower q) (fun lcv sv =>
       if (Z.shiftr (Z.land lcv regMask) start <? greaterPerm)
          && (Z.land lcv flagMask =? flagMask)
       then set_at sv lcv (Cneg (at_ sv lcv)) else sv)
       (stateVec q)) q.

(** [CoherentUnit::H(bitLenInt)]; [M_SQRT2] is the square root of 2. *)
Definition H_gate (qubitIndex : Z) (q : CoherentUnit) : CoherentUnit :=
  let had := [mkComplex16 (1 / sqrt 2) 0; mkComplex16 (1 / sqrt 2) 0;
              mkComplex16 (1 / sqrt 2) 0; mkComplex16 (- 1 / sqrt 2) 0] in
  ApplySingleBit qubitIndex had true q.

(** [CoherentUnit::CNOT(bitLenInt, bitLenInt, bitLenInt length)]. *)
Definition CNOT_reg (inputStart1 inputStart2 length : Z) : op unit :=
  if negb (inputStart1 =? inputStart2) then
    for_op (Z.to_nat length) 0 (fun i => CNOT (inputStart1 + i) (inputStart2 + i))
  else ret tt.

(** [CoherentUnit::AND(bitLenInt, bitLenInt, bitLenInt, bitLenInt length)]. *)
Definition AND_reg (inputStart1 inputStart2 outputStart length : Z) : op unit :=
  if negb ((inputStart1 =? inputStart2) && (inputStart2 =? outputStart)) then
    for_op (Z.to_nat length) 0
      (fun i => AND (inputStart1 + i) (inputStart2 + i) (outputStart + i))
  else ret tt.

(** [CoherentUnit::OR(bitLenInt, bitLenInt, bitLenInt, bitLenInt length)]. *)
Definition OR_reg (inputStart1 inputStart2 outputStart length : Z) : op unit :=
  if negb ((inputStart1 =? inputStart2) && (inputStart2 =? outputStart)) then
    for_op (Z.to_nat length) 0
      (fun i => OR (inputStart1 + i) (inputStart2 + i) (outputStart + i))
  else ret tt.

(** [CoherentUnit::XOR(bitLenInt, bitLenInt, bitLenInt, bitLenInt length)]. *)
Definition XOR_reg (inputStart1 inputStart2 outputStart length : Z) : op unit :=
  if negb ((inputStart1 =? inputStart2) && (inputStart2 =? outputStart)) then
    for_op (Z.to_nat length) 0
      (fun i => XOR (inputStart1 + i) (inputStart2 + i) (outputStart + i))
  else ret tt.

(** [CoherentUnit::CLAND(bitLenInt, bool, bitLenInt)]. *)
Definition CLAND (inputQBit : Z) (inputClassicalBit : bool) (outputBit : Z) : op unit :=
  if negb inputClassicalBit then run (SetBit outputBit false)
  else if negb (inputQBit =? outputBit) then
    bind (run (SetBit outputBit false)) (fun _ => CNOT inputQBit outputBit)
  else ret tt.

(** [CoherentUnit::CLOR(bitLenInt, bool, bitLenInt)]. *)
Definition CLOR (inputQBit : Z) (inputClassicalBit : bool) (outputBit : Z) : op unit :=
  if inputClassicalBit then run (SetBit outputBit true)
  else if negb (inputQBit =? outputBit) then
    bind (run (SetBit outputBit false)) (fun _ => CNOT inputQBit outputBit)
  else ret tt.

(** [CoherentUnit::CLXOR(bitLenInt, bool, bitLenInt)]. *)
Definition CLXOR (inputQBit : Z) (inputClassicalBit : bool) (outputBit : Z) : op unit :=
  if negb (inputQBit =? outputBit) then
    bind (run (SetBit outputBit inputClassicalBit)) (fun _ => CNOT inputQBit outputBit)
  else if inputClassicalBit then run (X outputBit)
  else ret tt.

(** [CoherentUnit::CLAND(bitLenInt, bitCapInt, bitLenInt, bitLenInt length)] and
    its siblings for [CLOR] and [CLXOR]: bit [i] of the classical input goes
    with qubit [qInputStart + i]. *)
Definition CL_reg (gate : Z -> bool -> Z -> op unit)
    (qInputStart classicalInput outputStart length : Z) : op unit :=
  for_op (Z.to_nat length) 0 (fun i =>
    let cBit := negb (Z.land (Z.shiftl 1 i) classicalInput =? 0) in
    gate (qInputStart + i) cBit (outputStart + i)).

(** [CoherentUnit::QFT]. *)
Definition QFT (start length : Z) : op unit :=
  if 0 <? length then
    let end_ := start + length in
    for_op (Z.to_nat (end_ - start)) start (fun i =>
      bind (run (H_gate i)) (fun _ =>
        for_op (Z.to_nat (end_ - i - 1)) 1 (fun j =>
          CRTDyad 1 (Z.shiftl 1 j) (i + j) i)))
  else ret tt.

(** [CoherentUnit::SetPermutation]. *)
Definition SetPermutation (perm : Z) (q : CoherentUnit) : CoherentUnit :=
  SetReg 0 (qubitCount q) perm q.

(** [CoherentUnit::CoherentUnit(bitLenInt, bitCapInt, Complex16,
    std::shared_ptr<std::default_random_engine>)]: the register it builds on
    the engine [engine] with [drawn] draws consumed, or the exception.  The
    phase [Complex16(-999.0, -999.0)] stands for an unspecified phase. *)
Definition CoherentUnit_new (qBitCount initState : Z) (phaseFac : Complex16)
    (engine : nat -> R) (drawn : nat) : outcome CoherentUnit :=
  if bitCapIntBits <? qBitCount then
    InvalidArgument
      "Cannot instantiate a register with greater capacity than native types on emulating system."
  else
    let maxQPower := Z.shiftl 1 qBitCount in
    let q := mkCoherentUnit qBitCount maxQPower (new_zeroed maxQPower) 1 engine drawn in
    if Reqb (real phaseFac) (-999) && Reqb (imag phaseFac) (-999) then
      let '(r, q) := Rand q in
      let angle := (r * 2 * PI)%R in
      Ok (with_stateVec (set_at (stateVec q) initState (mkComplex16 (cos angle) (sin angle))) q)
    else Ok (with_stateVec (set_at (stateVec q) initState phaseFac) q).

(** [CoherentUnit::Cohere(std::vector<std::shared_ptr<CoherentUnit>>)]: the
    register and the registers of [toCopy] as the call leaves them. *)
Definition Cohere_vector (toCopy : list CoherentUnit) (q : CoherentUnit)
    : CoherentUnit * list CoherentUnit :=
  let startMask := Z.shiftl 1 (qubitCount q) - 1 in
  let q := normalize_if_needed q in
  let '(toCopy, mask, offset, nQubitCount) :=
    fold_left (fun '(done, mask, offset, nQubitCount) c =>
      let c := normalize_if_needed c in
      (done ++ [c],
       mask ++ [Z.shiftl (Z.shiftl 1 (qubitCount c) - 1) nQubitCount],
       offset ++ [nQubitCount],
       nQubitCount + qubitCount c))
      toCopy ([], [], [], qubitCount q) in
  let nMaxQPower := Z.shiftl 1 nQubitCount in
  let nStateVec := new_zeroed nMaxQPower in
  let nStateVec :=
    par_for 0 nMaxQPower (fun lcv nStateVec =>
      let nStateVec := set_at nStateVec lcv (at_ (stateVec q) (Z.land lcv startMask)) in
      for_loop (length toCopy) 0 (fun j nStateVec =>
        set_at nStateVec lcv
          (Cmul (at_ nStateVec lcv)
                (at_ (stateVec (default q (toCopy !! Z.to_nat j)))
                     (Z.shiftr (Z.land lcv (at_Z mask j)) (at_Z offset j)))))
        nStateVec) nStateVec in
  let q := with_size nQubitCount nMaxQPower q in
  (UpdateRunningNorm (ResetStateVec nStateVec q), toCopy).
End MoreGates.

(** An input bit coincides with the output bit, but not all three do
    ([partial_overlap], as a test). *)
Definition partial_overlapb (inputBit1 inputBit2 outputBit : Z) : bool :=
  ((inputBit1 =? outputBit) || (inputBit2 =? outputBit))
  && negb ((inputBit1 =? inputBit2) && (inputBit2 =? outputBit)).

(** The buffer of the register holds [maxQPower] amplitudes. *)
Definition buffer_sized (q : CoherentUnit) : Prop :=
  0 <= maxQPower q /\ length (stateVec q) = Z.to_nat (maxQPower q).

(** Where [Swap] on two registers sends the basis index [x]: the value of
    the register at [s1] goes to the register at [s2] and back, the other
    bits stay. *)
Definition swapped (n s1 s2 l x : Z) : Z :=
  Z.lor (Z.lor (Z.shiftl (reg s1 l x) s2) (Z.shiftl (reg s2 l x) s1))
        (Z.land x (Z.lxor (Z.ones n) (Z.lor (Z.shiftl (Z.ones l) s1) (Z.shiftl (Z.ones l) s2)))).


(** Four qubits in the state |0001>. *)
Definition four_qubits_one : CoherentUnit :=
  mkCoherentUnit 4 16 (set_at (new_zeroed 16) 1 (mkComplex16 1 0)) 1 (constant_draws 0) 0.

(** ** The templates [reverse] and [rotate]

    The iterators are positions in the array [a]. *)
Module Templates.
Section Templates.
Context {A : Type}.

(** [std::iter_swap(first, last)]. *)
Definition iter_swap (a : list A) (first last : Z) : list A :=
  match a !! Z.to_nat first, a !! Z.to_nat last with
  | Some x, Some y => <[Z.to_nat last := x]> (<[Z.to_nat first := y]> a)
  | _, _ => a
  end.

(** The loop of [reverse], for at most [passes] passes. *)
Fixpoint reverse_passes (passes : nat) (a : list A) (first last stride : Z) : list A :=
  match passes with
  | O => a
  | S passes' =>
      if (first <? last) && (first <? last - stride) then
        let last := last - stride in
        let a := iter_swap a first last in
        reverse_passes passes' a (first + stride) last stride
      else a
  end.

(** [reverse(first, last, stride)].  Every pass brings [first] and [last]
    closer by twice the stride: with a stride of 1 or more, [last - first]
    passes are enough.  (With a stride of 0 the loop of the source does not
    end.) *)
Definition reverse (a : list A) (first last stride : Z) : list A :=
  reverse_passes (Z.to_nat (last - first)) a first last stride.

(** [rotate(first, middle, last, stride)]. *)
Definition rotate (a : list A) (first middle last stride : Z) : list A :=
  let a := reverse a first middle stride in
  let a := reverse a middle last stride in
  reverse a first last stride.
End Templates.
End Templates.

(** ** Signed addition *)

Section SignedArithmetic.
Context `{BitCapInt}.

(** [CoherentUnit::INCS]. *)
Definition INCS (toAdd inOutStart length overflowIndex : Z) (q : CoherentUnit)
    : CoherentUnit :=
  let overflowMask := Z.shiftl 1 overflowIndex in
  let signMask := Z.shiftl 1 (length - 1) in
  let otherMask := Z.shiftl 1 (qubitCount q) - 1 in
  let lengthPower := Z.shiftl 1 length in
  let inOutMask := cap_shl (lengthPower - 1) inOutStart in
  let otherMask := Z.lxor otherMask inOutMask in
  let nStateVec := new_zeroed (maxQPower q) in
  let nStateVec :=
    par_for 0 (maxQPower q) (fun lcv nStateVec =>
      let otherRes := Z.land lcv otherMask in
      let inOutRes := Z.land lcv inOutMask in
      let inOutInt := Z.shiftr inOutRes inOutStart in
      let inInt := toAdd in
      let outInt := cap_add inOutInt toAdd in
      let outRes :=
        if outInt <? lengthPower then Z.lor (cap_shl outInt inOutStart) otherRes
        else Z.lor (cap_shl (cap_sub outInt lengthPower) inOutStart) otherRes in
      let isOverflow :=
        if negb (Z.land (Z.land inOutInt inInt) signMask =? 0) then
          let inOutInt := cap_add (Z.land (cap_not inOutInt) (lengthPower - 1)) 1 in
          let inInt := cap_add (Z.land (cap_not inInt) (lengthPower - 1)) 1 in
          signMask <? cap_add inOutInt inInt
        else if negb (Z.land (Z.land (cap_not inOutInt) (cap_not inInt)) signMask =? 0) then
          signMask <=? cap_add inOutInt inInt
        else false in
      if isOverflow && (Z.land outRes overflowMask =? overflowMask)
      then set_at nStateVec outRes (Cneg (at_ (stateVec q) lcv))
      else set_at nStateVec outRes (at_ (stateVec q) lcv)) nStateVec in
  ResetStateVec nStateVec q.
End SignedArithmetic.

(** The value of the [length] bits [x] as a signed integer in two's
    complement, and whether the sum of two such values leaves its range. *)
Definition signed (length x : Z) : Z :=
  if x <? 2 ^ (length - 1) then x else x - 2 ^ length.
Definition signed_overflow (length a b : Z) : bool :=
  (signed length a + signed length b <? - 2 ^ (length - 1))
  || (2 ^ (length - 1) <=? signed length a + signed length b).

(** One qubit with amplitude 2 on |1> and [runningNorm] 2. *)
Definition one_qubit_unnormalized : CoherentUnit :=
  mkCoherentUnit 1 2 [mkComplex16 0 0; mkComplex16 2 0] 2 (constant_draws 0) 0.
(** * Properties *)

(** ** Comparisons of reals *)

Lemma Rltb_true (x y : R) : (x < y)%R -> Rltb x y = true.
Proof. intros Hlt. unfold Rltb. destruct (Rlt_dec x y); [reflexivity | contradiction]. Qed.

Lemma Rltb_false (x y : R) : (y <= x)%R -> Rltb x y = false.
Proof. intros Hle. unfold Rltb. destruct (Rlt_dec x y); [lra | reflexivity]. Qed.

Lemma Rleb_true (x y : R) : (x <= y)%R -> Rleb x y = true.
Proof. intros Hle. unfold Rleb. destruct (Rle_dec x y); [reflexivity | contradiction]. Qed.

Lemma Rleb_false (x y : R) : (y < x)%R -> Rleb x y = false.
Proof. intros Hlt. unfold Rleb. destruct (Rle_dec x y); [lra | reflexivity]. Qed.

Lemma Reqb_true (x y : R) : x = y -> Reqb x y = true.
Proof. intros Heq. unfold Reqb. destruct (Req_dec_T x y); [reflexivity | contradiction]. Qed.

Lemma Reqb_false (x y : R) : x <> y -> Reqb x y = false.
Proof. intros Hne. unfold Reqb. destruct (Req_dec_T x y); [contradiction | reflexivity]. Qed.

Lemma normalize_if_needed_id (q : CoherentUnit) :
  runningNorm q = 1%R -> normalize_if_needed q = q.
Proof. intros Hn. unfold normalize_if_needed. now rewrite Reqb_true. Qed.

Lemma Reqb_eq (x y : R) : Reqb x y = true -> x = y.
Proof. unfold Reqb. destruct (Req_dec_T x y); [trivial | discriminate]. Qed.

Lemma normalize_if_needed_normalized (q : CoherentUnit) :
  runningNorm (normalize_if_needed q) = 1%R.
Proof.
  unfold normalize_if_needed. destruct (Reqb (runningNorm q) 1) eqn:Heq.
  - now apply Reqb_eq.
  - reflexivity.
Qed.

Section General.
Context `{BitCapInt}.

(** ** INC and DEC by a multiple of [2^length] *)

Lemma shiftl_1_pow2 (n : Z) : 0 <= n -> Z.shiftl 1 n = 2 ^ n.
Proof. intros Hn. rewrite Z.shiftl_mul_pow2 by assumption. lia. Qed.

Lemma INC_DEC_skip (k start length : Z) (q : CoherentUnit) :
  k mod 2 ^ length = 0 \/ length = 0 ->
  INC k start length q = q /\ DEC k start length q = q.
Proof.
  intros Hk. unfold INC, DEC.
  destruct (Z.ltb_spec 0 length) as [Hpos | Hle]; cbn [andb]; [|split; reflexivity].
  destruct Hk as [Hk | ->]; [|lia].
  rewrite shiftl_1_pow2 by lia. rewrite Hk. split; reflexivity.
Qed.

(** C10: on a length from 0 to 30, where [1 << length] is defined, [INC] and
    [DEC] by an operand that is 0 modulo [2^length], or on a register of
    length 0, return the register as it was: every amplitude of the state
    vector, and every other field. *)
Theorem INC_DEC_trivial_unchanged (k start length : Z) (q : CoherentUnit) :
  0 <= length <= 30 ->
  k mod 2 ^ length = 0 \/ length = 0 ->
  INC k start length q = q /\ DEC k start length q = q /\
  stateVec (INC k start length q) = stateVec q /\
  stateVec (DEC k start length q) = stateVec q.
Proof.
  intros _ Hk. destruct (INC_DEC_skip k start length q Hk) as [HI HD].
  rewrite HI, HD. repeat split; reflexivity.
Qed.

(** ** The length check of the BCD operations *)

Lemma multiple_of_4_check (length : Z) :
  negb (length / 4 * 4 =? length) = negb (length mod 4 =? 0).
Proof.
  f_equal. pose proof (Z.div_mod length 4 ltac:(lia)) as Hdm.
  destruct (Z.eqb_spec (length / 4 * 4) length), (Z.eqb_spec (length mod 4) 0);
    try reflexivity; lia.
Qed.

Lemma carry_in_Ok (operand carryIndex : Z) (q : CoherentUnit) :
  exists v, fst (carry_in operand carryIndex q) = Ok v.
Proof.
  unfold carry_in, bind, call, run, ret.
  destruct (M carryIndex q) as [[|] q']; cbn; eauto.
Qed.

(** C7: each of [INCBCD], [DECBCD], [INCBCDC] and [DECBCDC] throws
    [std::invalid_argument] exactly when [length] is not a multiple of 4. *)
Theorem BCD_throws_iff_length_not_multiple_of_4
    (operand inOutStart length carryIndex : Z) (q : CoherentUnit) :
  is_InvalidArgument (fst (INCBCD operand inOutStart length q)) = negb (length mod 4 =? 0) /\
  is_InvalidArgument (fst (DECBCD operand inOutStart length q)) = negb (length mod 4 =? 0) /\
  is_InvalidArgument (fst (INCBCDC operand inOutStart length carryIndex q))
    = negb (length mod 4 =? 0) /\
  is_InvalidArgument (fst (DECBCDC operand inOutStart length carryIndex q))
    = negb (length mod 4 =? 0).
Proof.
  rewrite <- multiple_of_4_check.
  repeat split.
  - unfold INCBCD. destruct (negb _); reflexivity.
  - unfold DECBCD. destruct (negb _); reflexivity.
  - unfold INCBCDC, bind.
    destruct (carry_in_Ok operand carryIndex q) as [v Hv].
    destruct (carry_in operand carryIndex q) as [o q']. cbn in Hv. subst o.
    destruct (negb _); reflexivity.
  - unfold DECBCDC, bind.
    destruct (carry_in_Ok operand carryIndex q) as [v Hv].
    destruct (carry_in operand carryIndex q) as [o q']. cbn in Hv. subst o.
    destruct (negb _); reflexivity.
Qed.

(** ** Overlapping arguments of the logic gates *)

(** C6, as the code has it: [AND] and [OR] return at once when the three
    bits coincide and throw, leaving the register untouched, on a partial
    overlap.  [XOR] never throws on an overlap: with three equal bits it
    clears the bit with [SetBit]; when one input is the output it applies
    [CNOT] from the other input. *)
Theorem logic_gates_on_overlap (inputBit1 inputBit2 outputBit : Z) (q : CoherentUnit) :
  (inputBit1 = inputBit2 /\ inputBit2 = outputBit ->
     AND inputBit1 inputBit2 outputBit q = (Ok tt, q) /\
     OR inputBit1 inputBit2 outputBit q = (Ok tt, q) /\
     XOR inputBit1 inputBit2 outputBit q = (Ok tt, SetBit outputBit false q)) /\
  (partial_overlap inputBit1 inputBit2 outputBit ->
     AND inputBit1 inputBit2 outputBit q = (InvalidArgument "Invalid AND arguments.", q) /\
     OR inputBit1 inputBit2 outputBit q = (InvalidArgument "Invalid OR arguments.", q) /\
     fst (XOR inputBit1 inputBit2 outputBit q) = Ok tt /\
     XOR inputBit1 inputBit2 outputBit q
       = CNOT (if inputBit1 =? outputBit then inputBit2 else inputBit1) outputBit q).
Proof.
  split.
  - intros [-> ->]. unfold AND, OR, XOR. rewrite Z.eqb_refl. cbn. repeat split; reflexivity.
  - intros [Hov Hne]. unfold AND, OR, XOR.
    destruct (Z.eqb_spec inputBit1 inputBit2) as [He12 | Hn12];
      destruct (Z.eqb_spec inputBit2 outputBit) as [He2o | Hn2o];
      destruct (Z.eqb_spec inputBit1 outputBit) as [He1o | Hn1o];
      cbn; try (exfalso; intuition congruence).
    + repeat split; try reflexivity.
      unfold CNOT. destruct (Z.eqb_spec inputBit1 outputBit); [congruence | reflexivity].
    + repeat split; try reflexivity.
      unfold CNOT. destruct (Z.eqb_spec inputBit2 outputBit); [congruence | reflexivity].
Qed.

(** ** [INCBCDC] and [DECBCDC] on a bad length *)

Lemma BCDC_throw_after_carry_in (operand inOutStart length carryIndex : Z) (q : CoherentUnit) :
  length mod 4 <> 0 ->
  INCBCDC operand inOutStart length carryIndex q
    = (InvalidArgument "BCD word bit length must be a multiple of 4.",
       snd (carry_in operand carryIndex q)) /\
  DECBCDC operand inOutStart length carryIndex q
    = (InvalidArgument "BCD word bit length must be a multiple of 4.",
       snd (carry_in operand carryIndex q)).
Proof.
  intros Hlen. unfold INCBCDC, DECBCDC, bind.
  destruct (carry_in_Ok operand carryIndex q) as [v Hv].
  destruct (carry_in operand carryIndex q) as [o q']. cbn in Hv. subst o. cbn [snd].
  rewrite multiple_of_4_check.
  destruct (Z.eqb_spec (length mod 4) 0); [contradiction | split; reflexivity].
Qed.
End General.
Lemma small_land_ones (x n : Z) : 0 <= n -> 0 <= x < 2 ^ n -> Z.land x (Z.ones n) = x.
Proof. intros Hn Hx. rewrite Z.land_ones by assumption. apply Z.mod_small. assumption. Qed.

Lemma reg_shiftr_land (s l x : Z) :
  0 <= s -> 0 <= l ->
  Z.shiftr (Z.land x (Z.shiftl (Z.ones l) s)) s = Z.land (Z.shiftr x s) (Z.ones l).
Proof. intros Hs Hl. Z.bitblast. Qed.

Lemma reg_range (s l x : Z) : 0 <= s -> 0 <= l -> 0 <= reg s l x < 2 ^ l.
Proof.
  intros Hs Hl. unfold reg. rewrite reg_shiftr_land by assumption.
  rewrite Z.land_ones by assumption. apply Z.mod_pos_bound. apply Z.pow_pos_nonneg; lia.
Qed.

Lemma reg_moved (n s l w x : Z) :
  0 <= s -> 0 <= l -> s + l <= n -> 0 <= w < 2 ^ l ->
  reg s l (moved n s l w x) = w.
Proof.
  intros Hs Hl Hsl Hw. unfold reg, moved.
  rewrite <- (small_land_ones w l) at 2 by assumption.
  rewrite <- (small_land_ones w l) at 1 by assumption.
  Z.bitblast.
Qed.

Lemma moved_moved (n s l w w' x : Z) :
  0 <= s -> 0 <= l -> s + l <= n -> 0 <= w < 2 ^ l ->
  moved n s l w' (moved n s l w x) = moved n s l w' x.
Proof.
  intros Hs Hl Hsl Hw. unfold moved. f_equal.
  rewrite <- (small_land_ones w l) by assumption.
  Z.bitblast.
Qed.

Lemma moved_range (n s l w x : Z) :
  0 <= s -> 0 <= l -> s + l <= n -> 0 <= w < 2 ^ l -> 0 <= x < 2 ^ n ->
  0 <= moved n s l w x < 2 ^ n.
Proof.
  intros Hs Hl Hsl Hw Hx. unfold moved.
  assert (Hn : 0 <= n) by lia.
  match goal with |- 0 <= ?y < _ => replace y with (Z.land y (Z.ones n)) end.
  - rewrite Z.land_ones by assumption. apply Z.mod_pos_bound. apply Z.pow_pos_nonneg; lia.
  - rewrite <- (small_land_ones w l) by assumption.
    Z.bitblast.
Qed.

Lemma moved_reg (n s l x : Z) :
  0 <= s -> 0 <= l -> s + l <= n -> 0 <= x < 2 ^ n ->
  moved n s l (reg s l x) x = x.
Proof.
  intros Hs Hl Hsl Hx. assert (Hn : 0 <= n) by lia. unfold moved, reg.
  rewrite reg_shiftr_land by assumption.
  rewrite <- (small_land_ones x n) at 3 by assumption.
  Z.bitblast.
Qed.

(** Outside the register the bits of [moved .. x] are those of [x]. *)
Lemma moved_testbit_outside (n s l w x j : Z) :
  0 <= s -> 0 <= l -> s + l <= n -> 0 <= w < 2 ^ l -> 0 <= x < 2 ^ n ->
  ~ (s <= j < s + l) ->
  Z.testbit (moved n s l w x) j = Z.testbit x j.
Proof.
  intros Hs Hl Hsl Hw Hx Hj. assert (Hn : 0 <= n) by lia. unfold moved.
  destruct (Z.lt_ge_cases j 0) as [Hneg | Hpos]; [now rewrite !Z.testbit_neg_r|].
  rewrite <- (small_land_ones w l) by assumption.
  rewrite <- (small_land_ones x n) at 2 by assumption.
  Z.bitblast_core.
Qed.


Section LoopLemmas.
Context {St : Type}.

Lemma par_for_worker_fold (fn : Z -> St -> St) (end_ : Z) (count : nat) :
  forall (i : Z) (s : St),
    i + Z.of_nat count <= end_ ->
    par_for_worker count i end_ (fun i => i) fn s
    = fold_left (fun s k => fn k s) (seqZ i (Z.of_nat count)) s.
Proof.
  induction count as [|count IH]; intros i s Hle.
  - reflexivity.
  - cbn [par_for_worker]. destruct (Z.leb_spec end_ i) as [Hge | Hlt]; [lia|].
    rewrite (seqZ_cons i) by lia. cbn [fold_left].
    rewrite IH by lia. do 2 f_equal. lia.
Qed.

Lemma par_for_fold (fn : Z -> St -> St) (n : Z) (s : St) :
  par_for 0 n fn s = fold_left (fun s k => fn k s) (seqZ 0 n) s.
Proof.
  unfold par_for, par_for_inc. rewrite Z.sub_0_r.
  destruct (Z.le_gt_cases 0 n) as [Hn | Hn].
  - rewrite par_for_worker_fold by lia. now rewrite Z2Nat.id.
  - rewrite (seqZ_nil 0 n) by lia.
    now replace (Z.to_nat n) with 0%nat by lia.
Qed.

Lemma for_loop_fold (body : Z -> St -> St) (count : nat) :
  forall (i : Z) (s : St),
    for_loop count i body s = fold_left (fun s k => body k s) (seqZ i (Z.of_nat count)) s.
Proof.
  induction count as [|count IH]; intros i s.
  - reflexivity.
  - cbn [for_loop]. rewrite (seqZ_cons i) by lia. cbn [fold_left].
    rewrite IH. do 2 f_equal. lia.
Qed.
End LoopLemmas.

Lemma fold_left_ext_seqZ {St : Type} (f g : St -> Z -> St) (n : Z) (s : St) :
  (forall s k, 0 <= k < n -> f s k = g s k) ->
  fold_left f (seqZ 0 n) s = fold_left g (seqZ 0 n) s.
Proof.
  intros Hfg.
  assert (Hall : Forall (fun k => 0 <= k < n) (seqZ 0 n)).
  { apply Forall_seqZ. intros. lia. }
  revert s. induction Hall as [|k ks Hk _ IH]; intros s; [reflexivity|].
  cbn [fold_left]. rewrite Hfg by assumption. apply IH.
Qed.

Lemma at_set_at_eq (sv : list Complex16) (i : Z) (v : Complex16) :
  0 <= i -> (Z.to_nat i < length sv)%nat -> at_ (set_at sv i v) i = v.
Proof.
  intros Hi Hlt. unfold at_, set_at. now rewrite list_lookup_insert_eq.
Qed.

Lemma at_set_at_ne (sv : list Complex16) (i j : Z) (v : Complex16) :
  0 <= i -> 0 <= j -> i <> j -> at_ (set_at sv i v) j = at_ sv j.
Proof.
  intros Hi Hj Hne. unfold at_, set_at. rewrite list_lookup_insert_ne; [reflexivity | lia].
Qed.

Lemma length_set_at (sv : list Complex16) (i : Z) (v : Complex16) :
  length (set_at sv i v) = length sv.
Proof. apply length_insert. Qed.

Lemma list_eq_at (sv sv' : list Complex16) :
  length sv = length sv' ->
  (forall i, 0 <= i < Z.of_nat (length sv) -> at_ sv i = at_ sv' i) ->
  sv = sv'.
Proof.
  intros Hlen Hat. apply list_eq_same_length with (n := length sv); [now symmetry | reflexivity |].
  intros i x y Hi Hx Hy.
  specialize (Hat (Z.of_nat i) ltac:(lia)). unfold at_ in Hat.
  rewrite Nat2Z.id, Hx, Hy in Hat. exact Hat.
Qed.

(** A loop that writes [v i] to [dst[f i]] for every [i] below [n], where
    [f] permutes the indices below [n]. *)
Lemma scatter_values (f g : Z -> Z) (v : Z -> Complex16) (n : Z) :
  (forall i, 0 <= i < n -> 0 <= f i < n) ->
  (forall i, 0 <= i < n -> g (f i) = i) ->
  let dst := fold_left (fun ns i => set_at ns (f i) (v i)) (seqZ 0 n) (new_zeroed n) in
  length dst = Z.to_nat n /\ forall i, 0 <= i < n -> at_ dst (f i) = v i.
Proof.
  intros Hrange Hinv.
  assert (Hgen : forall k : nat, Z.of_nat k <= n ->
    let dst := fold_left (fun ns i => set_at ns (f i) (v i)) (seqZ 0 (Z.of_nat k))
                 (new_zeroed n) in
    length dst = Z.to_nat n /\ forall i, 0 <= i < Z.of_nat k -> at_ dst (f i) = v i).
  { induction k as [|k IH]; intros Hk.
    - cbn. split; [apply length_replicate | intros; lia].
    - rewrite seqZ_S, fold_left_app. cbn [fold_left].
      destruct (IH ltac:(lia)) as [Hlen Hat]. cbn zeta in *.
      set (dst := fold_left _ _ _) in *.
      rewrite Z.add_0_l. split; [now rewrite length_set_at|].
      intros i Hi. destruct (Z.eq_dec i (Z.of_nat k)) as [-> | Hne].
      + apply at_set_at_eq; [|rewrite Hlen]; specialize (Hrange (Z.of_nat k)); lia.
      + rewrite at_set_at_ne.
        * apply Hat. lia.
        * specialize (Hrange (Z.of_nat k)); lia.
        * specialize (Hrange i); lia.
        * intros Heq. apply Hne.
          rewrite <- (Hinv i), <- (Hinv (Z.of_nat k)) by lia. now rewrite Heq. }
  destruct (Z.le_gt_cases 0 n) as [Hn | Hn].
  - specialize (Hgen (Z.to_nat n)). rewrite Z2Nat.id in Hgen by assumption.
    apply Hgen. lia.
  - rewrite seqZ_nil by lia. cbn. split; [apply length_replicate | intros; lia].
Qed.

(** The same for a loop that moves the amplitudes of [src]. *)
Lemma scatter_spec (f g : Z -> Z) (src : list Complex16) (n : Z) :
  (forall i, 0 <= i < n -> 0 <= f i < n) ->
  (forall i, 0 <= i < n -> g (f i) = i) ->
  let dst := fold_left (fun ns i => set_at ns (f i) (at_ src i)) (seqZ 0 n) (new_zeroed n) in
  length dst = Z.to_nat n /\ forall i, 0 <= i < n -> at_ dst (f i) = at_ src i.
Proof. intros Hrange Hinv. exact (scatter_values f g (at_ src) n Hrange Hinv). Qed.

(** A loop that updates every entry of a buffer in place. *)
Lemma inplace_fold (h : Complex16 -> Complex16) (body : Z -> list Complex16 -> list Complex16)
    (sv : list Complex16) :
  (forall (l : list Complex16) (i : nat) (x : Complex16),
     l !! i = Some x -> body (Z.of_nat i) l = <[i := h x]> l) ->
  forall k : nat, (k <= length sv)%nat ->
    fold_left (fun l i => body i l) (seqZ 0 (Z.of_nat k)) sv = (h <$> take k sv) ++ drop k sv.
Proof.
  intros Hbody. induction k as [|k IH]; intros Hk.
  - cbn. now rewrite drop_0.
  - rewrite seqZ_S, fold_left_app, IH by lia. cbn [fold_left]. rewrite Z.add_0_l.
    destruct (lookup_lt_is_Some_2 sv k ltac:(lia)) as [x Hx].
    rewrite (Hbody _ k x).
    + rewrite insert_app_r_alt by (rewrite length_fmap, length_take_le; lia).
      rewrite length_fmap, length_take_le, Nat.sub_diag by lia.
      rewrite (drop_S sv x k Hx), (take_S_r sv k x Hx), fmap_app. cbn.
      now rewrite <- app_assoc.
    + rewrite lookup_app_r by (rewrite length_fmap, length_take_le; lia).
      rewrite length_fmap, length_take_le, Nat.sub_diag by lia.
      now rewrite lookup_drop, Nat.add_0_r.
Qed.

Lemma NormalizeState_map (q : CoherentUnit) :
  length (stateVec q) = Z.to_nat (maxQPower q) -> 0 <= maxQPower q ->
  NormalizeState q
  = with_runningNorm 1
      (with_stateVec (normalized_amplitude (runningNorm q) <$> stateVec q) q).
Proof.
  intros Hlen Hpos. unfold NormalizeState. do 2 f_equal.
  rewrite par_for_fold. rewrite <- (Z2Nat.id (maxQPower q)) at 1 by assumption.
  rewrite (inplace_fold (normalized_amplitude (runningNorm q))).
  - rewrite <- Hlen, firstn_all, drop_all. apply app_nil_r.
  - intros l i x Hx. unfold at_, set_at. rewrite Nat2Z.id.
    rewrite list_lookup_insert_eq by (eapply lookup_lt_Some; eassumption).
    rewrite Hx. cbn [default]. unfold normalized_amplitude. cbv zeta.
    destruct (Rltb _ _); [|reflexivity].
    now rewrite list_insert_insert_eq.
  - lia.
Qed.
Section RoundTrip.
Context `{BitCapInt}.
Hypothesis Hbits : 32 <= bitCapIntBits.

Lemma wrap_small (z : Z) : 0 <= z < 2 ^ 31 -> wrap z = z.
Proof.
  intros Hz. unfold wrap. apply Z.mod_small.
  assert (2 ^ 31 < 2 ^ bitCapIntBits) by (apply Z.pow_lt_mono_r; lia). lia.
Qed.

Lemma pow2_le_30 (a : Z) : 0 <= a <= 30 -> 0 < 2 ^ a <= 2 ^ 30.
Proof.
  intros Ha. split; [apply Z.pow_pos_nonneg; lia | apply Z.pow_le_mono_r; lia].
Qed.

Lemma shiftl_small (w s l : Z) :
  0 <= s -> 0 <= l -> s + l <= 30 -> 0 <= w < 2 ^ l -> 0 <= Z.shiftl w s < 2 ^ 30.
Proof.
  intros Hs Hl Hsl Hw. rewrite Z.shiftl_mul_pow2 by assumption.
  pose proof (pow2_le_30 (s + l) ltac:(lia)) as Hp. rewrite Z.pow_add_r in Hp by assumption.
  pose proof (pow2_le_30 s ltac:(lia)). nia.
Qed.

Lemma INC_stateVec (k start length : Z) (q : CoherentUnit) :
  well_formed q -> 0 <= start -> 0 < length -> start + length <= qubitCount q ->
  0 < k mod 2 ^ length ->
  INC k start length q =
  with_stateVec
    (fold_left (fun ns lcv =>
       set_at ns (moved (qubitCount q) start length
                    ((reg start length lcv + k) mod 2 ^ length) lcv)
              (at_ (stateVec q) lcv))
       (seqZ 0 (maxQPower q)) (new_zeroed (maxQPower q))) q.
Proof.
  intros (Hn & Hpow & Hlen) Hs Hl Hsl Hk. unfold INC.
  rewrite shiftl_1_pow2 by lia.
  destruct (Z.ltb_spec 0 length); [|lia].
  destruct (Z.ltb_spec 0 (k mod 2 ^ length)); [|lia]. cbn [andb].
  unfold ResetStateVec. f_equal. rewrite par_for_fold.
  apply fold_left_ext_seqZ. intros ns lcv Hlcv. f_equal.
  rewrite shiftl_1_pow2 by lia.
  replace (2 ^ length - 1) with (Z.ones length) by (rewrite Z.ones_equiv; lia).
  replace (2 ^ qubitCount q - 1) with (Z.ones (qubitCount q)) by (rewrite Z.ones_equiv; lia).
  pose proof (pow2_le_30 length ltac:(lia)) as Hpl.
  assert (Hones : 0 <= Z.ones length < 2 ^ length) by (rewrite Z.ones_equiv; lia).
  assert (Hmask : cap_shl (Z.ones length) start = Z.shiftl (Z.ones length) start).
  { unfold cap_shl. apply wrap_small.
    pose proof (shiftl_small (Z.ones length) start length); lia. }
  rewrite !Hmask.
  fold (reg start length lcv).
  pose proof (reg_range start length lcv Hs ltac:(lia)) as Hv.
  pose proof (Z.mod_pos_bound k (2 ^ length) ltac:(lia)) as Hkm.
  unfold cap_add. rewrite (wrap_small (reg start length lcv + k mod 2 ^ length)) by lia.
  unfold moved.
  replace ((reg start length lcv + k) mod 2 ^ length)
    with ((reg start length lcv + k mod 2 ^ length) mod 2 ^ length)
    by (now rewrite Zplus_mod_idemp_r).
  destruct (Z.ltb_spec (reg start length lcv + k mod 2 ^ length) (2 ^ length)) as [Hlt | Hge].
  - rewrite (Z.mod_small (reg start length lcv + k mod 2 ^ length)) by lia.
    unfold cap_shl. rewrite wrap_small; [reflexivity|].
    pose proof (shiftl_small (reg start length lcv + k mod 2 ^ length) start length); lia.
  - unfold cap_sub, cap_shl. rewrite (wrap_small (_ - _)) by lia.
    replace ((reg start length lcv + k mod 2 ^ length) mod 2 ^ length)
      with (reg start length lcv + k mod 2 ^ length - 2 ^ length).
    + rewrite wrap_small; [reflexivity|].
      pose proof (shiftl_small (reg start length lcv + k mod 2 ^ length - 2 ^ length)
                    start length); lia.
    + apply Z.mod_unique with (q := 1); lia.
Qed.

Lemma DEC_stateVec (k start length : Z) (q : CoherentUnit) :
  well_formed q -> 0 <= start -> 0 < length -> start + length <= qubitCount q ->
  0 < k mod 2 ^ length ->
  DEC k start length q =
  with_stateVec
    (fold_left (fun ns lcv =>
       set_at ns (moved (qubitCount q) start length
                    ((reg start length lcv - k) mod 2 ^ length) lcv)
              (at_ (stateVec q) lcv))
       (seqZ 0 (maxQPower q)) (new_zeroed (maxQPower q))) q.
Proof.
  intros (Hn & Hpow & Hlen) Hs Hl Hsl Hk. unfold DEC.
  rewrite shiftl_1_pow2 by lia.
  destruct (Z.ltb_spec 0 length); [|lia].
  destruct (Z.ltb_spec 0 (k mod 2 ^ length)); [|lia]. cbn [andb].
  unfold ResetStateVec. f_equal. rewrite par_for_fold.
  apply fold_left_ext_seqZ. intros ns lcv Hlcv. f_equal.
  rewrite shiftl_1_pow2 by lia.
  replace (2 ^ length - 1) with (Z.ones length) by (rewrite Z.ones_equiv; lia).
  replace (2 ^ qubitCount q - 1) with (Z.ones (qubitCount q)) by (rewrite Z.ones_equiv; lia).
  pose proof (pow2_le_30 length ltac:(lia)) as Hpl.
  assert (Hones : 0 <= Z.ones length < 2 ^ length) by (rewrite Z.ones_equiv; lia).
  assert (Hmask : cap_shl (Z.ones length) start = Z.shiftl (Z.ones length) start).
  { unfold cap_shl. apply wrap_small.
    pose proof (shiftl_small (Z.ones length) start length); lia. }
  rewrite !Hmask.
  fold (reg start length lcv).
  pose proof (reg_range start length lcv Hs ltac:(lia)) as Hv.
  pose proof (Z.mod_pos_bound k (2 ^ length) ltac:(lia)) as Hkm.
  assert (Hout : cap_add (cap_sub (reg start length lcv) (k mod 2 ^ length)) (2 ^ length)
                 = reg start length lcv - k mod 2 ^ length + 2 ^ length).
  { unfold cap_add, cap_sub, wrap. rewrite Zplus_mod_idemp_l.
    apply Z.mod_small.
    assert (2 ^ 31 < 2 ^ bitCapIntBits) by (apply Z.pow_lt_mono_r; lia). lia. }
  rewrite Hout. unfold moved.
  replace ((reg start length lcv - k) mod 2 ^ length)
    with ((reg start length lcv - k mod 2 ^ length) mod 2 ^ length)
    by (now rewrite Zminus_mod_idemp_r).
  destruct (Z.ltb_spec (reg start length lcv - k mod 2 ^ length + 2 ^ length) (2 ^ length))
    as [Hlt | Hge].
  - replace ((reg start length lcv - k mod 2 ^ length) mod 2 ^ length)
      with (reg start length lcv - k mod 2 ^ length + 2 ^ length)
      by (apply Z.mod_unique with (q := -1); lia).
    unfold cap_shl. rewrite wrap_small; [reflexivity|].
    pose proof (shiftl_small (reg start length lcv - k mod 2 ^ length + 2 ^ length)
                  start length); lia.
  - unfold cap_sub, cap_shl. rewrite (wrap_small (_ - _)) by lia.
    rewrite (Z.mod_small (reg start length lcv - k mod 2 ^ length)) by lia.
    replace (reg start length lcv - k mod 2 ^ length + 2 ^ length - 2 ^ length)
      with (reg start length lcv - k mod 2 ^ length) by lia.
    rewrite wrap_small; [reflexivity|].
    pose proof (shiftl_small (reg start length lcv - k mod 2 ^ length) start length); lia.
Qed.

Lemma with_stateVec_same (q : CoherentUnit) : with_stateVec (stateVec q) q = q.
Proof. destruct q. reflexivity. Qed.

Lemma register_value_reg (start length lcv : Z) :
  0 <= start -> 0 <= length -> reg start length lcv = register_value start length lcv.
Proof.
  intros Hs Hl. unfold reg, register_value. rewrite reg_shiftr_land by assumption.
  rewrite Z.land_ones, Z.shiftr_div_pow2 by assumption. reflexivity.
Qed.


Lemma mod_add_sub_cancel (v k m : Z) : 0 <= v < m -> ((v + k) mod m - k) mod m = v.
Proof.
  intros Hv. rewrite Zminus_mod_idemp_l.
  replace (v + k - k) with v by lia. apply Z.mod_small. assumption.
Qed.

Lemma mod_sub_add_cancel (v k m : Z) : 0 <= v < m -> ((v - k) mod m + k) mod m = v.
Proof.
  intros Hv. rewrite Zplus_mod_idemp_l.
  replace (v - k + k) with v by lia. apply Z.mod_small. assumption.
Qed.

Lemma with_stateVec_restore (sv : list Complex16) (q : CoherentUnit) :
  with_stateVec (stateVec q) (with_stateVec sv q) = q.
Proof. destruct q. reflexivity. Qed.

(** C4: on a register that lies inside the state, [INC] moves the amplitude of
    every basis index to the index whose register value is [(v + k) mod
    2^length] and whose other bits are the same, [DEC] moves it to
    [(v - k) mod 2^length], and [DEC] after [INC] gives back the register it
    started from. *)
Theorem INC_DEC_round_trip (k start length : Z) (q : CoherentUnit) :
  well_formed q -> 0 <= start -> 0 <= length -> start + length <= qubitCount q ->
  (forall lcv, 0 <= lcv < maxQPower q ->
     exists dest, 0 <= dest < maxQPower q /\
       at_ (stateVec (INC k start length q)) dest = at_ (stateVec q) lcv /\
       register_value start length dest = (register_value start length lcv + k) mod 2 ^ length /\
       forall j, ~ (start <= j < start + length) -> Z.testbit dest j = Z.testbit lcv j) /\
  (forall lcv, 0 <= lcv < maxQPower q ->
     exists dest, 0 <= dest < maxQPower q /\
       at_ (stateVec (DEC k start length q)) dest = at_ (stateVec q) lcv /\
       register_value start length dest = (register_value start length lcv - k) mod 2 ^ length /\
       forall j, ~ (start <= j < start + length) -> Z.testbit dest j = Z.testbit lcv j) /\
  DEC k start length (INC k start length q) = q.
Proof.
  intros Hwf Hs Hl Hsl.
  pose proof Hwf as (Hn & Hpow & Hlen).
  destruct (Z.eq_dec length 0) as [Hl0 | Hl0];
    [|destruct (Z.eq_dec (k mod 2 ^ length) 0) as [Hk0 | Hk0]].
  - (* a register of length 0 *)
    destruct (INC_DEC_skip k start length q ltac:(tauto)) as [HI HD].
    rewrite HI, HD. subst length. unfold register_value.
    repeat split; try reflexivity; intros lcv Hlcv; exists lcv;
      rewrite !Z.mod_1_r; auto.
  - (* an operand that is 0 modulo 2^length *)
    destruct (INC_DEC_skip k start length q ltac:(tauto)) as [HI HD].
    rewrite HI, HD.
    assert (Hp : 0 < 2 ^ length) by (apply Z.pow_pos_nonneg; lia).
    assert (Hv : forall lcv, register_value start length lcv mod 2 ^ length
                             = register_value start length lcv).
    { intros lcv. unfold register_value. apply Z.mod_mod. lia. }
    repeat split; try reflexivity; intros lcv Hlcv; exists lcv;
      (split; [assumption|]); (split; [reflexivity|]); (split; [|reflexivity]).
    + now rewrite <- Zplus_mod_idemp_r, Hk0, Z.add_0_r, Hv.
    + now rewrite <- Zminus_mod_idemp_r, Hk0, Z.sub_0_r, Hv.
  - (* the permutation proper *)
    assert (Hl' : 0 < length) by lia.
    assert (Hk : 0 < k mod 2 ^ length).
    { pose proof (Z.mod_pos_bound k (2 ^ length) ltac:(apply Z.pow_pos_nonneg; lia)). lia. }
    set (n := qubitCount q) in *.
    set (fI := fun lcv => moved n start length ((reg start length lcv + k) mod 2 ^ length) lcv).
    set (fD := fun lcv => moved n start length ((reg start length lcv - k) mod 2 ^ length) lcv).
    assert (Hp : 0 < 2 ^ length) by (apply Z.pow_pos_nonneg; lia).
    assert (HrI : forall i, 0 <= i < maxQPower q -> 0 <= fI i < maxQPower q).
    { intros i Hi. rewrite Hpow in *. apply moved_range; try lia.
      apply Z.mod_pos_bound. lia. }
    assert (HrD : forall i, 0 <= i < maxQPower q -> 0 <= fD i < maxQPower q).
    { intros i Hi. rewrite Hpow in *. apply moved_range; try lia.
      apply Z.mod_pos_bound. lia. }
    assert (HDI : forall i, 0 <= i < maxQPower q -> fD (fI i) = i).
    { intros i Hi. rewrite Hpow in Hi. unfold fD, fI.
      pose proof (reg_range start length i Hs Hl) as Hv.
      rewrite reg_moved, moved_moved by (try apply Z.mod_pos_bound; lia).
      rewrite mod_add_sub_cancel by assumption. apply moved_reg; lia. }
    assert (HID : forall i, 0 <= i < maxQPower q -> fI (fD i) = i).
    { intros i Hi. rewrite Hpow in Hi. unfold fD, fI.
      pose proof (reg_range start length i Hs Hl) as Hv.
      rewrite reg_moved, moved_moved by (try apply Z.mod_pos_bound; lia).
      rewrite mod_sub_add_cancel by assumption. apply moved_reg; lia. }
    assert (HI : INC k start length q
                 = with_stateVec
                     (fold_left (fun ns i => set_at ns (fI i) (at_ (stateVec q) i))
                        (seqZ 0 (maxQPower q)) (new_zeroed (maxQPower q))) q)
      by exact (INC_stateVec k start length q Hwf Hs Hl' Hsl Hk).
    assert (HD : forall q', well_formed q' -> qubitCount q' = n -> maxQPower q' = maxQPower q ->
                 DEC k start length q'
                 = with_stateVec
                     (fold_left (fun ns i => set_at ns (fD i) (at_ (stateVec q') i))
                        (seqZ 0 (maxQPower q)) (new_zeroed (maxQPower q))) q').
    { intros q' Hwf' Hn' Hm'. rewrite <- Hm'. unfold fD. rewrite <- Hn'.
      apply DEC_stateVec; try assumption. lia. }
    destruct (scatter_spec fI fD (stateVec q) (maxQPower q) HrI HDI) as [HlenI HatI].
    destruct (scatter_spec fD fI (stateVec q) (maxQPower q) HrD HID) as [HlenD HatD].
    set (svI := fold_left _ _ _) in HI, HlenI, HatI.
    split; [|split].
    + intros lcv Hlcv. exists (fI lcv). split; [auto|]. rewrite HI. cbn [stateVec with_stateVec].
      split; [auto|]. rewrite Hpow in Hlcv. split.
      * rewrite <- !register_value_reg by assumption. unfold fI.
        apply reg_moved; try lia. apply Z.mod_pos_bound. lia.
      * intros j Hj. apply moved_testbit_outside; try lia. apply Z.mod_pos_bound. lia.
    + intros lcv Hlcv. exists (fD lcv). split; [auto|]. rewrite (HD q Hwf eq_refl eq_refl). cbn [stateVec with_stateVec].
      split; [auto|]. rewrite Hpow in Hlcv. split.
      * rewrite <- !register_value_reg by assumption. unfold fD.
        apply reg_moved; try lia. apply Z.mod_pos_bound. lia.
      * intros j Hj. apply moved_testbit_outside; try lia. apply Z.mod_pos_bound. lia.
    + rewrite HI.
      assert (HwfI : well_formed (with_stateVec svI q)).
      { repeat split; cbn; first [lia | exact Hpow | exact HlenI]. }
      rewrite (HD _ HwfI eq_refl eq_refl).
      cbn [stateVec with_stateVec].
      destruct (scatter_spec fD fI svI (maxQPower q) HrD HID) as [HlenF HatF].
      match goal with
      | |- with_stateVec ?sv _ = _ =>
          replace sv with (stateVec q); [apply with_stateVec_restore|]
      end.
      symmetry. apply list_eq_at; [lia|].
      intros i Hi. rewrite HlenF, Z2Nat.id in Hi by lia.
      rewrite <- (HDI i) at 1 by assumption.
      rewrite HatF by auto. apply HatI. assumption.
Qed.

(** ** Cohere *)

Lemma NormalizeState_size (q : CoherentUnit) :
  qubitCount (NormalizeState q) = qubitCount q /\ maxQPower (NormalizeState q) = maxQPower q.
Proof. split; reflexivity. Qed.

Lemma normalize_if_needed_size (q : CoherentUnit) :
  qubitCount (normalize_if_needed q) = qubitCount q /\
  maxQPower (normalize_if_needed q) = maxQPower q.
Proof. unfold normalize_if_needed. destruct (Reqb _ _); split; reflexivity. Qed.

Lemma Cdiv_Czero (r : R) : Cdiv Czero r = Czero.
Proof. unfold Cdiv, Czero. cbn [real imag]. f_equal; unfold Rdiv; lra. Qed.

Lemma normalized_amplitude_Czero (r : R) : normalized_amplitude r Czero = Czero.
Proof.
  unfold normalized_amplitude. cbv zeta. destruct (Rltb _ _); [reflexivity | apply Cdiv_Czero].
Qed.

(** The amplitudes of the operand that [Cohere] multiplies: the operand's
    own when its [runningNorm] is 1, and otherwise what [NormalizeState]
    leaves of them. *)
Lemma at_normalize_if_needed (q : CoherentUnit) (i : Z) :
  length (stateVec q) = Z.to_nat (maxQPower q) -> 0 <= maxQPower q ->
  at_ (stateVec (normalize_if_needed q)) i
  = if Reqb (runningNorm q) 1 then at_ (stateVec q) i
    else if Rltb (norm (Cdiv (at_ (stateVec q) i) (runningNorm q))) 1e-15 then Czero
         else Cdiv (at_ (stateVec q) i) (runningNorm q).
Proof.
  intros Hlen Hpos. unfold normalize_if_needed.
  destruct (Reqb (runningNorm q) 1); [reflexivity|].
  rewrite NormalizeState_map by assumption.
  cbn [stateVec with_runningNorm with_stateVec].
  unfold at_. rewrite list_lookup_fmap.
  destruct (stateVec q !! Z.to_nat i) as [a|]; cbn [fmap option_fmap option_map default].
  - reflexivity.
  - exact (eq_sym (normalized_amplitude_Czero (runningNorm q))).
Qed.

(** C3: [Cohere] leaves a register of [n + m] qubits whose amplitude at the
    combined index [k] is the product of the amplitude of [self] at
    [k & ((1<<n)-1)] and the amplitude of [other] at [(k >> n) & ((1<<m)-1)].
    The amplitude of an operand whose [runningNorm] is 1 is the one it had
    before the call; the amplitude [a] of an operand whose [runningNorm] [r]
    is not 1 enters as [a / r], or as zero when the squared magnitude of
    [a / r] is below 1e-15.  [other] is left with these amplitudes and
    [runningNorm] 1. *)
Theorem Cohere_tensor_product (q toCopy : CoherentUnit) :
  well_formed q -> well_formed toCopy -> qubitCount q + qubitCount toCopy <= 30 ->
  runningNorm q <> 0%R -> runningNorm toCopy <> 0%R ->
  let n := qubitCount q in
  let m := qubitCount toCopy in
  let amplitude := fun (operand : CoherentUnit) (i : Z) =>
    if Reqb (runningNorm operand) 1 then at_ (stateVec operand) i
    else if Rltb (norm (Cdiv (at_ (stateVec operand) i) (runningNorm operand))) 1e-15
         then Czero
         else Cdiv (at_ (stateVec operand) i) (runningNorm operand) in
  let q' := fst (Cohere toCopy q) in
  let other' := snd (Cohere toCopy q) in
  qubitCount q' = n + m /\
  maxQPower q' = 2 ^ (n + m) /\
  length (stateVec q') = Z.to_nat (2 ^ (n + m)) /\
  (forall k, 0 <= k < 2 ^ (n + m) ->
     at_ (stateVec q') k
     = Cmul (amplitude q (Z.land k (Z.shiftl 1 n - 1)))
            (amplitude toCopy (Z.land (Z.shiftr k n) (Z.shiftl 1 m - 1)))) /\
  qubitCount other' = m /\
  runningNorm other' = 1%R /\
  (forall i, at_ (stateVec other') i = amplitude toCopy i) /\
  (runningNorm q = 1%R -> runningNorm toCopy = 1%R ->
     other' = toCopy /\
     forall k, 0 <= k < 2 ^ (n + m) ->
       at_ (stateVec q') k
       = Cmul (at_ (stateVec q) (Z.land k (Z.shiftl 1 n - 1)))
              (at_ (stateVec toCopy) (Z.land (Z.shiftr k n) (Z.shiftl 1 m - 1)))).
Proof.
  intros (Hn & Hpow & Hlen) (Hm & Hpowm & Hlenm) Hnm _ _ n m amplitude q' other'.
  assert (Hpq : 0 <= maxQPower q) by (rewrite Hpow; apply Z.pow_nonneg; lia).
  assert (Hpt : 0 <= maxQPower toCopy) by (rewrite Hpowm; apply Z.pow_nonneg; lia).
  assert (Hampq : forall i, at_ (stateVec (normalize_if_needed q)) i = amplitude q i)
    by (intros i; apply at_normalize_if_needed; assumption).
  assert (Hampt : forall i, at_ (stateVec (normalize_if_needed toCopy)) i = amplitude toCopy i)
    by (intros i; apply at_normalize_if_needed; assumption).
  destruct (normalize_if_needed_size q) as [Hqn _].
  destruct (normalize_if_needed_size toCopy) as [Htn _].
  assert (Hother : other' = normalize_if_needed toCopy) by reflexivity.
  assert (Hat : forall k, 0 <= k < 2 ^ (n + m) ->
            at_ (stateVec q') k
            = Cmul (amplitude q (Z.land k (Z.shiftl 1 n - 1)))
                   (amplitude toCopy (Z.land (Z.shiftr k n) (Z.shiftl 1 m - 1)))).
  { intros k Hk. rewrite <- Hampq, <- Hampt. subst q'. unfold Cohere. cbn [fst].
    rewrite Hqn, Htn. fold n m.
    rewrite par_for_fold, (shiftl_1_pow2 (n + m)) by lia.
    match goal with
    | |- context [fold_left (fun ns i => set_at ns i (@?v i)) _ _] =>
        destruct (scatter_values (fun i => i) (fun i => i) v (2 ^ (n + m))
                    ltac:(auto) ltac:(auto)) as [_ Hat']
    end.
    cbn zeta in Hat'.
    cbn [stateVec UpdateRunningNorm ResetStateVec with_runningNorm with_stateVec with_size].
    rewrite (Hat' k Hk). do 2 f_equal.
    rewrite shiftl_1_pow2 by lia.
    replace (2 ^ m - 1) with (Z.ones m) by (rewrite Z.ones_equiv; lia).
    apply reg_shiftr_land; lia. }
  assert (Hsize : qubitCount q' = n + m /\ maxQPower q' = 2 ^ (n + m) /\
                  length (stateVec q') = Z.to_nat (2 ^ (n + m))).
  { subst q'. unfold Cohere. cbn [fst]. rewrite Hqn, Htn. fold n m.
    rewrite par_for_fold, (shiftl_1_pow2 (n + m)) by lia.
    match goal with
    | |- context [fold_left (fun ns i => set_at ns i (@?v i)) _ _] =>
        destruct (scatter_values (fun i => i) (fun i => i) v (2 ^ (n + m))
                    ltac:(auto) ltac:(auto)) as [Hlen' _]
    end.
    cbn zeta in Hlen'.
    cbn [qubitCount maxQPower stateVec UpdateRunningNorm ResetStateVec with_runningNorm
         with_stateVec with_size].
    repeat split; assumption. }
  destruct Hsize as (Hs1 & Hs2 & Hs3).
  split; [exact Hs1|]. split; [exact Hs2|]. split; [exact Hs3|]. split; [exact Hat|].
  split; [rewrite Hother; exact Htn|].
  split; [rewrite Hother; apply normalize_if_needed_normalized|].
  split; [intros i; rewrite Hother; apply Hampt|].
  intros Hq1 Ht1. split.
  - rewrite Hother. now apply normalize_if_needed_id.
  - intros k Hk. rewrite (Hat k Hk). unfold amplitude. now rewrite !Reqb_true.
Qed.
End RoundTrip.

(** * Concrete runs *)

(** Evaluation of the model on a concrete register: everything is computed
    but the operations on reals. *)
Ltac run_model :=
  cbv -[Rplus Rmult Rminus Rdiv Ropp Rinv cos sin PI sqrt IZR Rlt_dec Rle_dec Req_dec_T
        Int_part up Rlt Rle Rgt Rge Rltb Rleb Reqb trunc uchar_of_double].

Lemma cos_draw_0 : cos (0 * 2 * PI) = 1%R.
Proof. replace (0 * 2 * PI)%R with 0%R by lra. apply cos_0. Qed.

Lemma sin_draw_0 : sin (0 * 2 * PI) = 0%R.
Proof. replace (0 * 2 * PI)%R with 0%R by lra. apply sin_0. Qed.

Lemma sqrt_of_square (x y : R) : (0 <= y)%R -> x = (y * y)%R -> sqrt x = y.
Proof. intros Hy ->. apply sqrt_square. assumption. Qed.

(** ** Measurement of one qubit *)

Lemma Prob_normalized (i : Z) (q : CoherentUnit) :
  runningNorm q = 1%R -> Prob i q = (oneChance_of i q, q).
Proof.
  intros Hn. unfold Prob. rewrite normalize_if_needed_id by assumption. reflexivity.
Qed.

(** [M] on a normalized register, when the draw falls below the probability
    of |1>: the amplitudes that survive are multiplied by [e^(i phi) / p]. *)
Lemma M_set (i : Z) (q : CoherentUnit) :
  runningNorm q = 1%R ->
  (rand_distribution q (rand_drawn q) < oneChance_of i q)%R ->
  (0 < oneChance_of i q)%R ->
  M i q =
  (true,
   let phi := (rand_distribution q (S (rand_drawn q)) * 2 * PI)%R in
   let nrm := Cdiv (mkComplex16 (cos phi) (sin phi)) (oneChance_of i q) in
   UpdateRunningNorm (with_stateVec
     (par_for 0 (maxQPower q) (fun lcv sv =>
        if Z.land lcv (Z.shiftl 1 i) =? 0 then set_at sv lcv Czero
        else set_at sv lcv (Cmul nrm (at_ sv lcv))) (stateVec q)) (drawn 2 q))).
Proof.
  intros Hn Hu Hp.
  unfold M. rewrite normalize_if_needed_id by assumption.
  cbn [Rand]. rewrite Prob_normalized by assumption.
  change (oneChance_of i _) with (oneChance_of i q).
  rewrite !Rltb_true by assumption. cbn [andb]. reflexivity.
Qed.

(** [M] on a normalized register, when the draw does not fall below the
    probability [p < 1] of |1>: the amplitudes that survive are multiplied by
    [e^(i phi) / sqrt (1 - p)]. *)
Lemma M_clear (i : Z) (q : CoherentUnit) :
  runningNorm q = 1%R ->
  (oneChance_of i q <= rand_distribution q (rand_drawn q))%R ->
  (oneChance_of i q < 1)%R ->
  M i q =
  (false,
   let phi := (rand_distribution q (S (rand_drawn q)) * 2 * PI)%R in
   let nrm := Cdiv (mkComplex16 (cos phi) (sin phi)) (sqrt (1 - oneChance_of i q)) in
   UpdateRunningNorm (with_stateVec
     (par_for 0 (maxQPower q) (fun lcv sv =>
        if Z.land lcv (Z.shiftl 1 i) =? 0 then set_at sv lcv (Cmul nrm (at_ sv lcv))
        else set_at sv lcv Czero) (stateVec q)) (drawn 2 q))).
Proof.
  intros Hn Hu Hp.
  unfold M. rewrite normalize_if_needed_id by assumption.
  cbn [Rand]. rewrite Prob_normalized by assumption.
  change (oneChance_of i _) with (oneChance_of i q).
  rewrite (Rltb_false _ (oneChance_of i q)) by assumption.
  rewrite (Rltb_true (oneChance_of i q) 1) by assumption. cbn [andb]. reflexivity.
Qed.

Lemma CoherentUnit_eq (n p : Z) (sv sv' : list Complex16) (r r' : R) (d : nat -> R) (k : nat) :
  sv = sv' -> r = r' ->
  mkCoherentUnit n p sv r d k = mkCoherentUnit n p sv' r' d k.
Proof. intros -> ->. reflexivity. Qed.

Lemma Complex16_eq (a a' b b' : R) : a = a' -> b = b' -> mkComplex16 a b = mkComplex16 a' b'.
Proof. intros -> ->. reflexivity. Qed.

(** Equality of two evaluated state vectors, entry by entry. *)
Ltac amplitudes :=
  repeat (apply (f_equal2 (@cons Complex16)); [apply Complex16_eq; lra|]);
  reflexivity.

Lemma oneChance_one_qubit_3_4 : oneChance_of 0 one_qubit_3_4 = (16 / 25)%R.
Proof. run_model. lra. Qed.

Lemma M_one_qubit_3_4 :
  M 0 one_qubit_3_4
  = (true, mkCoherentUnit 1 2 [Czero; mkComplex16 (25 / 16 * (4 / 5)) 0] (5 / 4)
                          (constant_draws 0) 2).
Proof.
  rewrite M_set;
    [|reflexivity
     |rewrite oneChance_one_qubit_3_4; unfold one_qubit_3_4, constant_draws; cbn; lra
     |rewrite oneChance_one_qubit_3_4; lra].
  rewrite oneChance_one_qubit_3_4. f_equal.
  run_model. rewrite cos_draw_0, sin_draw_0.
  apply CoherentUnit_eq; [amplitudes | apply sqrt_of_square; lra].
Qed.

(** C1, the code at one qubit with amplitudes (3/5, 4/5) and draws u = 0,
    phi = 0: [M] returns [true], but the surviving amplitude 4/5 is multiplied
    by [1 / p = 25/16], not by [1 / sqrt p = 5/4], and [runningNorm] is left
    at 5/4. *)
Theorem M_divides_by_probability :
  fst (M 0 one_qubit_3_4) = true /\
  at_ (stateVec (snd (M 0 one_qubit_3_4))) 0 = Czero /\
  at_ (stateVec (snd (M 0 one_qubit_3_4))) 1 = mkComplex16 (25 / 16 * (4 / 5)) 0 /\
  runningNorm (snd (M 0 one_qubit_3_4)) = (5 / 4)%R /\
  runningNorm (snd (M 0 one_qubit_3_4)) <> 1%R.
Proof.
  rewrite M_one_qubit_3_4. cbn. repeat split; try reflexivity. lra.
Qed.

(** ** Dyadic rotations *)

(** C5, the code: [RTDyad] hands [RT] the angle [(+pi * p * 2) / q]; at
    p = 1, q = 4 on the state |1> this is not what [RT] does with the negated
    angle [(-pi * p * 2) / q].  The other dyadic rotations do negate it; the
    controlled ones differ from their radian form only by the text of the
    exception for [control = target]. *)
Theorem RTDyad_angle_not_negated :
  (forall p d i q, RTDyad p d i q = RT ((PI * IZR p * 2) / IZR d) i q) /\
  RTDyad 1 4 0 one_qubit_set <> RT ((- PI * IZR 1 * 2) / IZR 4) 0 one_qubit_set /\
  (forall p d i q,
     RXDyad p d i q = RX ((- PI * IZR p * 2) / IZR d) i q /\
     RYDyad p d i q = RY ((- PI * IZR p * 2) / IZR d) i q /\
     RZDyad p d i q = RZ ((- PI * IZR p * 2) / IZR d) i q) /\
  (forall p d control target q, control <> target ->
     CRTDyad p d control target q = CRT ((- PI * IZR p * 2) / IZR d) control target q /\
     CRXDyad p d control target q = CRX ((- PI * IZR p * 2) / IZR d) control target q /\
     CRYDyad p d control target q = CRY ((- PI * IZR p * 2) / IZR d) control target q /\
     CRZDyad p d control target q = CRZ ((- PI * IZR p * 2) / IZR d) control target q).
Proof.
  split; [reflexivity|]. split; [|split].
  - intros Heq.
    apply (f_equal (fun q => imag (at_ (stateVec q) 1))) in Heq.
    revert Heq. run_model. intros Heq.
    replace (- PI * 1 * 2 / 4 / 2)%R with (- (PI / 4))%R in Heq by lra.
    replace (PI * 1 * 2 / 4 / 2)%R with (PI / 4)%R in Heq by lra.
    rewrite sin_neg in Heq.
    assert (Hpos : (0 < sin (PI / 4))%R).
    { pose proof PI_RGT_0. apply sin_gt_0; lra. }
    lra.
  - intros p d i q. repeat split; reflexivity.
  - intros p d control target q Hne.
    unfold CRTDyad, CRXDyad, CRYDyad, CRZDyad.
    destruct (Z.eqb_spec control target); [contradiction|]. repeat split; reflexivity.
Qed.

(** ** The carry-in of the BCD operations *)

Lemma oneChance_two_qubits_carry_set : oneChance_of 1 two_qubits_carry_set = 1%R.
Proof. run_model. lra. Qed.

Lemma M_two_qubits_carry_set :
  M 1 two_qubits_carry_set
  = (true, mkCoherentUnit 2 4 [Czero; Czero; mkComplex16 1 0; Czero] 1 (constant_draws 0) 2).
Proof.
  rewrite M_set;
    [|reflexivity
     |rewrite oneChance_two_qubits_carry_set; unfold two_qubits_carry_set, constant_draws;
      cbn; lra
     |rewrite oneChance_two_qubits_carry_set; lra].
  rewrite oneChance_two_qubits_carry_set. f_equal.
  run_model. rewrite cos_draw_0, sin_draw_0.
  apply CoherentUnit_eq; [amplitudes | apply sqrt_of_square; lra].
Qed.

Lemma carry_in_two_qubits_carry_set (operand : Z) :
  carry_in operand 1 two_qubits_carry_set
  = (Ok (cap_add operand 1),
     mkCoherentUnit 2 4 [mkComplex16 1 0; Czero; Czero; Czero] 1 (constant_draws 0) 2).
Proof.
  unfold carry_in, bind, call. rewrite M_two_qubits_carry_set.
  unfold run, ret. f_equal.
  run_model. apply CoherentUnit_eq; [amplitudes | reflexivity].
Qed.

Lemma M_two_qubits_zero :
  M 1 two_qubits_zero
  = (false, mkCoherentUnit 2 4 [mkComplex16 1 0; Czero; Czero; Czero] 1 (constant_draws 0) 2).
Proof.
  assert (Hp : oneChance_of 1 two_qubits_zero = 0%R) by (run_model; lra).
  rewrite M_clear;
    [|reflexivity
     |rewrite Hp; unfold two_qubits_zero, constant_draws; cbn; lra
     |rewrite Hp; lra].
  rewrite Hp. f_equal. run_model. rewrite cos_draw_0, sin_draw_0.
  replace (1 - 0)%R with 1%R by lra. rewrite sqrt_1.
  apply CoherentUnit_eq; [amplitudes | apply sqrt_of_square; lra].
Qed.

Lemma carry_in_two_qubits_zero (operand : Z) :
  carry_in operand 1 two_qubits_zero
  = (Ok operand,
     mkCoherentUnit 2 4 [mkComplex16 1 0; Czero; Czero; Czero] 1 (constant_draws 0) 2).
Proof.
  unfold carry_in, bind, call. rewrite M_two_qubits_zero. reflexivity.
Qed.

Lemma oneChance_two_qubits_00_11 : oneChance_of 1 two_qubits_00_11 = (16 / 25)%R.
Proof. run_model. lra. Qed.

Lemma M_two_qubits_00_11 :
  M 1 two_qubits_00_11
  = (true, mkCoherentUnit 2 4 [Czero; Czero; Czero; mkComplex16 (5 / 4) 0] (5 / 4)
             (rand_distribution two_qubits_00_11) 2).
Proof.
  rewrite M_set;
    [|reflexivity
     |rewrite oneChance_two_qubits_00_11; unfold two_qubits_00_11; cbn; lra
     |rewrite oneChance_two_qubits_00_11; lra].
  rewrite oneChance_two_qubits_00_11. f_equal.
  run_model. rewrite cos_draw_0, sin_draw_0.
  apply CoherentUnit_eq; [amplitudes | apply sqrt_of_square; lra].
Qed.

Lemma carry_in_two_qubits_00_11 (operand : Z) :
  carry_in operand 1 two_qubits_00_11
  = (Ok (cap_add operand 1),
     mkCoherentUnit 2 4 [Czero; mkComplex16 (5 / 4) 0; Czero; Czero] (5 / 4)
       (rand_distribution two_qubits_00_11) 2).
Proof.
  unfold carry_in, bind, call. rewrite M_two_qubits_00_11.
  unfold run, ret. f_equal.
  run_model. apply CoherentUnit_eq; [amplitudes | reflexivity].
Qed.

Lemma carry_in_leaves (operand carryIndex : Z) (q : CoherentUnit) :
  snd (carry_in operand carryIndex q)
  = if fst (M carryIndex q) then X carryIndex (snd (M carryIndex q))
    else snd (M carryIndex q).
Proof.
  unfold carry_in, bind, call, run, ret.
  destruct (M carryIndex q) as [[|] q']; reflexivity.
Qed.

(** C9: on a length that is not a multiple of 4, [INCBCDC] and [DECBCDC] throw
    after the carry-in: the register that the exception leaves is the one
    that [M] on the carry qubit leaves, with [X] on the carry qubit when [M]
    returned true and without it otherwise.  With carry qubit 1 and a
    register of length 1, on two qubits: from the state |10> (carry set) the
    register is left in |00>; from |00> (carry clear) the amplitudes are
    left as they were; from 3/5 |00> + 4/5 |11> (carry in superposition, draw
    0) the superposition is gone and the register is left with the single
    amplitude 5/4 on |01>. *)
Theorem BCDC_not_atomic_on_error :
  (forall operand inOutStart length carryIndex q,
     length mod 4 <> 0 ->
     INCBCDC operand inOutStart length carryIndex q
       = (InvalidArgument "BCD word bit length must be a multiple of 4.",
          if fst (M carryIndex q) then X carryIndex (snd (M carryIndex q))
          else snd (M carryIndex q)) /\
     DECBCDC operand inOutStart length carryIndex q
       = (InvalidArgument "BCD word bit length must be a multiple of 4.",
          if fst (M carryIndex q) then X carryIndex (snd (M carryIndex q))
          else snd (M carryIndex q))) /\
  stateVec two_qubits_carry_set = [Czero; Czero; mkComplex16 1 0; Czero] /\
  stateVec (snd (INCBCDC 1 0 1 1 two_qubits_carry_set))
    = [mkComplex16 1 0; Czero; Czero; Czero] /\
  stateVec (snd (DECBCDC 1 0 1 1 two_qubits_carry_set))
    = [mkComplex16 1 0; Czero; Czero; Czero] /\
  snd (INCBCDC 1 0 1 1 two_qubits_carry_set) <> two_qubits_carry_set /\
  snd (DECBCDC 1 0 1 1 two_qubits_carry_set) <> two_qubits_carry_set /\
  stateVec two_qubits_zero = [mkComplex16 1 0; Czero; Czero; Czero] /\
  stateVec (snd (INCBCDC 1 0 1 1 two_qubits_zero))
    = [mkComplex16 1 0; Czero; Czero; Czero] /\
  stateVec (snd (DECBCDC 1 0 1 1 two_qubits_zero))
    = [mkComplex16 1 0; Czero; Czero; Czero] /\
  stateVec two_qubits_00_11
    = [mkComplex16 (3 / 5) 0; mkComplex16 0 0; mkComplex16 0 0; mkComplex16 (4 / 5) 0] /\
  stateVec (snd (INCBCDC 1 0 1 1 two_qubits_00_11))
    = [Czero; mkComplex16 (5 / 4) 0; Czero; Czero] /\
  stateVec (snd (DECBCDC 1 0 1 1 two_qubits_00_11))
    = [Czero; mkComplex16 (5 / 4) 0; Czero; Czero].
Proof.
  split.
  { intros operand inOutStart length carryIndex q Hlen.
    rewrite <- (carry_in_leaves operand carryIndex q).
    now apply BCDC_throw_after_carry_in. }
  destruct (BCDC_throw_after_carry_in 1 0 1 1 two_qubits_carry_set ltac:(discriminate))
    as [-> ->].
  destruct (BCDC_throw_after_carry_in 1 0 1 1 two_qubits_zero ltac:(discriminate))
    as [-> ->].
  destruct (BCDC_throw_after_carry_in 1 0 1 1 two_qubits_00_11 ltac:(discriminate))
    as [-> ->].
  rewrite carry_in_two_qubits_carry_set, carry_in_two_qubits_zero, carry_in_two_qubits_00_11.
  cbn [snd stateVec].
  repeat split; try reflexivity; intros Heq; discriminate Heq.
Qed.

(** ** XOR with overlapping arguments *)

Lemma SetBit_one_qubit_set :
  SetBit 0 false one_qubit_set
  = mkCoherentUnit 1 2 [mkComplex16 1 0; Czero] 1 (constant_draws 0) 2.
Proof.
  assert (HM : M 0 one_qubit_set
               = (true, mkCoherentUnit 1 2 [Czero; mkComplex16 1 0] 1 (constant_draws 0) 2)).
  { assert (Hp : oneChance_of 0 one_qubit_set = 1%R) by (run_model; lra).
    rewrite M_set;
      [|reflexivity
       |rewrite Hp; unfold one_qubit_set, constant_draws; cbn; lra
       |rewrite Hp; lra].
    rewrite Hp. f_equal. run_model. rewrite cos_draw_0, sin_draw_0.
    apply CoherentUnit_eq; [amplitudes | apply sqrt_of_square; lra]. }
  unfold SetBit. rewrite HM. run_model.
  apply CoherentUnit_eq; [amplitudes | reflexivity].
Qed.

(** C6 as stated fails for [XOR]: with input 1 equal to the output (and
    input 2 different) it does not throw, and with three equal bits it is
    not a no-op: on one qubit in the state |1> it leaves the state |0>. *)
Lemma XOR_overlap_counterexample :
  ~ ((forall inputBit1 inputBit2 outputBit q,
        partial_overlap inputBit1 inputBit2 outputBit ->
        exists what, XOR inputBit1 inputBit2 outputBit q = (InvalidArgument what, q)) \/
     (forall bit q, XOR bit bit bit q = (Ok tt, q))).
Proof.
  intros [Hthrow | Hnop].
  - destruct (Hthrow 0 1 0 two_qubits_zero) as [what Hwhat].
    + split; [left; reflexivity | intros [Heq _]; discriminate Heq].
    + apply (f_equal fst) in Hwhat. discriminate Hwhat.
  - specialize (Hnop 0 one_qubit_set).
    unfold XOR, run in Hnop. cbn [Z.eqb andb] in Hnop.
    rewrite SetBit_one_qubit_set in Hnop.
    apply (f_equal (fun r => real (at_ (stateVec (snd r)) 0))) in Hnop.
    revert Hnop. run_model. lra.
Qed.

(** ** Measurement of a register *)

(** The selection loop of [MReg], pass by pass. *)
Lemma MReg_select_found (passes : nat) (maxQPower : Z) (prob : R) (probArray : list R)
    (s : MReg_locals) :
  foundPerm s = true -> MReg_select passes maxQPower prob probArray s = s.
Proof. intros Hf. destruct passes; cbn [MReg_select]; [|rewrite Hf]; reflexivity. Qed.

Lemma MReg_select_hit (passes : nat) (maxQPower : Z) (prob : R) (probArray : list R)
    (s : MReg_locals) :
  foundPerm s = false -> lcv_ s < maxQPower ->
  (prob < at_R probArray (lcv_ s) + lowerProb s)%R ->
  MReg_select (S passes) maxQPower prob probArray s
  = mkMReg_locals true (lcv_ s) (lowerProb s) (largestProb s) (lcv_ s)
                  (at_R probArray (lcv_ s)).
Proof.
  intros Hf Hlt Hp. cbn [MReg_select]. rewrite Hf.
  destruct (Z.ltb_spec (lcv_ s) maxQPower); [|lia]. cbn [negb andb].
  rewrite Rltb_true by assumption. now apply MReg_select_found.
Qed.

Lemma MReg_select_miss (passes : nat) (maxQPower : Z) (prob : R) (probArray : list R)
    (s : MReg_locals) :
  foundPerm s = false -> lcv_ s < maxQPower ->
  (at_R probArray (lcv_ s) + lowerProb s <= prob)%R ->
  MReg_select (S passes) maxQPower prob probArray s
  = MReg_select passes maxQPower prob probArray
      (if Rleb (largestProb s) (at_R probArray (lcv_ s))
       then mkMReg_locals false (lcv_ s + 1) (lowerProb s + at_R probArray (lcv_ s))
                          (at_R probArray (lcv_ s)) (lcv_ s) (at_R probArray (lcv_ s))
       else mkMReg_locals false (lcv_ s + 1) (lowerProb s + at_R probArray (lcv_ s))
                          (largestProb s) (result_ s) (nrmlzr_ s)).
Proof.
  intros Hf Hlt Hp. cbn [MReg_select]. rewrite Hf.
  destruct (Z.ltb_spec (lcv_ s) maxQPower); [|lia]. cbn [negb andb].
  rewrite Rltb_false by assumption.
  destruct (Rleb _ _); cbn; rewrite ?Hf; reflexivity.
Qed.

(** [MReg] on a register with [runningNorm = 1] and a length other than 1. *)
Lemma MReg_normalized (start length : Z) (q : CoherentUnit) :
  length <> 1 -> runningNorm q = 1%R ->
  MReg start length q =
  let prob := rand_distribution q (rand_drawn q) in
  let phi := (rand_distribution q (S (rand_drawn q)) * 2 * PI)%R in
  let s := MReg_select (Z.to_nat (maxQPower q)) (maxQPower q) prob
             (MReg_probArray start length q)
             (mkMReg_locals false 0 0 0 (cap_sub (Z.shiftl 1 length) 1) 0) in
  (result_ s,
   UpdateRunningNorm (with_stateVec
     (MReg_collapse (cap_shl (result_ s) start)
        (Cdiv (mkComplex16 (cos phi) (sin phi)) (nrmlzr_ s)) q) (drawn 2 q))).
Proof.
  intros Hl Hn. unfold MReg.
  destruct (Z.eqb_spec length 1); [contradiction|].
  rewrite normalize_if_needed_id by assumption. reflexivity.
Qed.

Lemma reals_eq (x x' : R) (l l' : list R) : x = x' -> l = l' -> x :: l = x' :: l'.
Proof. intros -> ->. reflexivity. Qed.

Lemma probArray_two_qubits_00_11 :
  MReg_probArray 0 2 two_qubits_00_11 = [(9 / 25)%R; 0%R; 0%R; (16 / 25)%R].
Proof. run_model. repeat (apply reals_eq; [lra|]). reflexivity. Qed.

Lemma MReg_two_qubits_00_11 :
  MReg 0 2 two_qubits_00_11
  = (0, mkCoherentUnit 2 4
          [mkComplex16 (5 / 3) 0; Czero; Czero; mkComplex16 (20 / 9) 0] (25 / 9)
          (rand_distribution two_qubits_00_11) 2).
Proof.
  rewrite MReg_normalized by (try reflexivity; discriminate).
  rewrite probArray_two_qubits_00_11. cbv zeta.
  change (Z.to_nat (maxQPower two_qubits_00_11)) with 4%nat.
  rewrite MReg_select_hit; [|reflexivity|reflexivity|run_model; lra].
  cbn [result_ nrmlzr_ lcv_]. f_equal.
  run_model. rewrite cos_draw_0, sin_draw_0.
  apply CoherentUnit_eq; [amplitudes | apply sqrt_of_square; lra].
Qed.


Lemma NormalizeState_after_MReg :
  NormalizeState
    (mkCoherentUnit 2 4 [mkComplex16 (5 / 3) 0; Czero; Czero; mkComplex16 (20 / 9) 0]
       (25 / 9) (rand_distribution two_qubits_00_11) 2)
  = mkCoherentUnit 2 4 [mkComplex16 (3 / 5) 0; Czero; Czero; mkComplex16 (4 / 5) 0] 1
      (rand_distribution two_qubits_00_11) 2.
Proof.
  rewrite NormalizeState_map by (cbn; first [reflexivity | lia]).
  unfold with_runningNorm, with_stateVec. cbn [qubitCount maxQPower stateVec runningNorm
    rand_distribution rand_drawn fmap list_fmap].
  unfold normalized_amplitude, Czero. cbv zeta.
  rewrite (Rltb_false (norm (Cdiv (mkComplex16 (5 / 3) 0) (25 / 9)))) by (run_model; lra).
  rewrite (Rltb_true (norm (Cdiv (mkComplex16 0 0) (25 / 9)))) by (run_model; lra).
  rewrite (Rltb_false (norm (Cdiv (mkComplex16 (20 / 9) 0) (25 / 9)))) by (run_model; lra).
  run_model. apply CoherentUnit_eq; [amplitudes | reflexivity].
Qed.

Lemma MReg_renormalizes (start length : Z) (q : CoherentUnit) :
  runningNorm q <> 1%R -> MReg start length q = MReg start length (NormalizeState q).
Proof.
  intros Hn. unfold MReg. destruct (length =? 1).
  - unfold M, normalize_if_needed. rewrite (Reqb_false _ _ Hn).
    now rewrite (Reqb_true (runningNorm (NormalizeState q)) 1).
  - unfold normalize_if_needed. rewrite (Reqb_false _ _ Hn).
    now rewrite (Reqb_true (runningNorm (NormalizeState q)) 1).
Qed.

Lemma probArray_after_MReg :
  MReg_probArray 0 2
    (mkCoherentUnit 2 4 [mkComplex16 (3 / 5) 0; Czero; Czero; mkComplex16 (4 / 5) 0] 1
       (rand_distribution two_qubits_00_11) 2)
  = [(9 / 25)%R; 0%R; 0%R; (16 / 25)%R].
Proof. run_model. repeat (apply reals_eq; [lra|]). reflexivity. Qed.

Ltac select_step :=
  cbn [lcv_ lowerProb largestProb result_ nrmlzr_ foundPerm];
  change (at_R [(9 / 25)%R; 0%R; 0%R; (16 / 25)%R] 0) with (9 / 25)%R;
  change (at_R [(9 / 25)%R; 0%R; 0%R; (16 / 25)%R] (0 + 1)) with 0%R;
  change (at_R [(9 / 25)%R; 0%R; 0%R; (16 / 25)%R] (0 + 1 + 1)) with 0%R;
  change (at_R [(9 / 25)%R; 0%R; 0%R; (16 / 25)%R] (0 + 1 + 1 + 1)) with (16 / 25)%R.

Lemma MReg_again_two_qubits_00_11 :
  fst (MReg 0 2 (snd (MReg 0 2 two_qubits_00_11))) = 3.
Proof.
  rewrite MReg_two_qubits_00_11. cbn [snd].
  rewrite MReg_renormalizes by (cbn; lra).
  rewrite NormalizeState_after_MReg.
  rewrite MReg_normalized by (try reflexivity; discriminate).
  rewrite probArray_after_MReg. cbv zeta. cbn [fst].
  change (Z.to_nat (maxQPower _)) with 4%nat.
  cbn [maxQPower rand_distribution rand_drawn two_qubits_00_11 Nat.eqb].
  rewrite MReg_select_miss; [|reflexivity|reflexivity|select_step; lra].
  select_step. rewrite (Rleb_true 0 (9 / 25)) by lra.
  rewrite MReg_select_miss; [|reflexivity|reflexivity|select_step; lra].
  select_step. rewrite (Rleb_false (9 / 25) 0) by lra.
  rewrite MReg_select_miss; [|reflexivity|reflexivity|select_step; lra].
  select_step. rewrite (Rleb_false (9 / 25) 0) by lra.
  rewrite MReg_select_hit; [|reflexivity|reflexivity|select_step; lra].
  reflexivity.
Qed.

(** C2, the code on two qubits with amplitude 3/5 on |00> and 4/5 on |11>:
    with the draw u = 0, [MReg(0, 2)] returns 0, yet the amplitude at index 3,
    whose register value is 3, is 20/9 afterwards: the collapse keeps every
    index that contains the bits of the result.  [MReg(0, 2)] called again,
    with the draw u = 1/2, returns 3. *)
Theorem MReg_keeps_other_register_values :
  fst (MReg 0 2 two_qubits_00_11) = 0 /\
  register_value 0 2 3 = 3 /\
  at_ (stateVec (snd (MReg 0 2 two_qubits_00_11))) 3 = mkComplex16 (20 / 9) 0 /\
  at_ (stateVec (snd (MReg 0 2 two_qubits_00_11))) 3 <> Czero /\
  fst (MReg 0 2 (snd (MReg 0 2 two_qubits_00_11))) = 3.
Proof.
  split; [now rewrite MReg_two_qubits_00_11|].
  split; [reflexivity|].
  split; [now rewrite MReg_two_qubits_00_11|].
  split; [|exact MReg_again_two_qubits_00_11].
  rewrite MReg_two_qubits_00_11. cbn [fst snd stateVec].
  run_model. intros Heq. apply (f_equal real) in Heq. cbn in Heq. lra.
Qed.

(** ** The value returned by the indexed loads *)

Lemma for_loop_sum_from (f : Z -> R) (count : nat) :
  forall (i : Z) (a : R),
    for_loop count i (fun i a => (a + f i)%R) a
    = (a + for_loop count i (fun i a => (a + f i)%R) 0)%R.
Proof.
  induction count as [|count IH]; intros i a; cbn [for_loop].
  - lra.
  - rewrite IH. rewrite (IH (i + 1) (0 + f i)%R). lra.
Qed.

Lemma accumulate_average_from (maxQPower outputMask valueStart : Z)
    (nStateVec : list Complex16) (average : R) :
  accumulate_average maxQPower outputMask valueStart nStateVec average
  = (average + expectation maxQPower outputMask valueStart nStateVec)%R.
Proof.
  unfold accumulate_average, expectation.
  apply (for_loop_sum_from
           (fun i => (norm (at_ nStateVec i)
                      * IZR (Z.shiftr (Z.land i outputMask) valueStart))%R)).
Qed.

Lemma uchar_of_double_value (x : R) (z : Z) :
  0 <= z < 256 -> (IZR z <= x < IZR z + 1)%R -> uchar_of_double x = z.
Proof.
  intros Hz Hx. unfold uchar_of_double, trunc, to_uchar.
  assert (0 <= IZR z)%R by (apply IZR_le; lia).
  destruct (Rle_dec 0 x) as [_ | Hneg]; [|lra].
  rewrite <- (Int_part_spec x z) by lra. apply Z.mod_small. assumption.
Qed.

Lemma SuperposedADC_two_qubits_zero (average : R) :
  SuperposedADC 0 0 0 1 1 [0] average two_qubits_zero
  = (uchar_of_double (average + 0 + 1 / 2),
     mkCoherentUnit 2 4 [mkComplex16 1 0; Czero; Czero; Czero] 1 (constant_draws 0) 2).
Proof.
  unfold SuperposedADC. rewrite M_two_qubits_zero. cbv iota beta zeta.
  rewrite accumulate_average_from. run_model.
  do 2 f_equal. lra.
Qed.

(** C8, the code: the three operations return the rounding of what the
    local [average] held before the accumulation loop plus the expectation
    value of the value register over the state they leave.  [SuperposedADC]
    on two qubits in the state |00> (one value qubit, carry qubit 1, table
    [0]) leaves the value register at 0 with certainty; started from 41,
    [average] makes it return 41. *)
Theorem Superposed_return_adds_uninitialized_average :
  (forall indexStart indexLength valueStart valueLength values average q,
     let r := SuperposedLDA indexStart indexLength valueStart valueLength values average q in
     fst r = uchar_of_double
               (average
                + expectation (maxQPower (snd r))
                    (Z.shiftl (Z.shiftl 1 valueLength - 1) valueStart) valueStart
                    (stateVec (snd r))
                + 0.5)) /\
  (forall indexStart indexLength valueStart valueLength carryIndex values average q,
     let r := SuperposedADC indexStart indexLength valueStart valueLength carryIndex
                values average q in
     fst r = uchar_of_double
               (average
                + expectation (maxQPower (snd r))
                    (Z.shiftl (Z.shiftl 1 valueLength - 1) valueStart) valueStart
                    (stateVec (snd r))
                + 0.5)) /\
  (forall indexStart indexLength valueStart valueLength carryIndex values average q,
     let r := SuperposedSBC indexStart indexLength valueStart valueLength carryIndex
                values average q in
     fst r = uchar_of_double
               (average
                + expectation (maxQPower (snd r))
                    (Z.shiftl (Z.shiftl 1 valueLength - 1) valueStart) valueStart
                    (stateVec (snd r))
                + 0.5)) /\
  expectation 4 (Z.shiftl (Z.shiftl 1 1 - 1) 0) 0
    (stateVec (snd (SuperposedADC 0 0 0 1 1 [0] 41 two_qubits_zero))) = 0%R /\
  fst (SuperposedADC 0 0 0 1 1 [0] 41 two_qubits_zero) = 41 /\
  fst (SuperposedADC 0 0 0 1 1 [0] 0 two_qubits_zero) = 0.
Proof.
  split; [|split; [|split]].
  - intros. subst r. unfold SuperposedLDA. cbn [fst snd].
    rewrite accumulate_average_from. reflexivity.
  - intros. subst r. unfold SuperposedADC.
    destruct (M carryIndex q) as [[|] q1]; cbn [fst snd];
      rewrite accumulate_average_from; reflexivity.
  - intros. subst r. unfold SuperposedSBC.
    destruct (M carryIndex q) as [[|] q1]; cbn [fst snd];
      rewrite accumulate_average_from; reflexivity.
  - rewrite !SuperposedADC_two_qubits_zero. cbn [fst snd stateVec].
    split; [run_model; lra|].
    split; apply uchar_of_double_value; try lia; lra.
Qed.

(** * The theorems at concrete registers *)

Lemma well_formed_two_qubits_00_11 : well_formed two_qubits_00_11.
Proof. repeat split; cbn; try lia; reflexivity. Qed.

Lemma well_formed_one_qubit_set : well_formed one_qubit_set.
Proof. repeat split; cbn; try lia; reflexivity. Qed.

Lemma uint64_bits : 32 <= bitCapIntBits.
Proof. unfold bitCapIntBits, uint64. lia. Qed.

(** [INC] by 8 on a register of 3 qubits. *)
Lemma INC_DEC_trivial_unchanged_witness :
  0 <= 3 <= 30 /\ 8 mod 2 ^ 3 = 0 /\
  INC 8 0 3 two_qubits_00_11 = two_qubits_00_11 /\
  DEC 8 0 3 two_qubits_00_11 = two_qubits_00_11.
Proof.
  split; [lia|]. split; [reflexivity|].
  pose proof (INC_DEC_trivial_unchanged 8 0 3 two_qubits_00_11 ltac:(lia)
                (or_introl eq_refl))
    as (HI & HD & _).
  split; assumption.
Defined.

(** [INC] and [DEC] by 1 on the two qubits of a register. *)
Lemma INC_DEC_round_trip_witness :
  well_formed two_qubits_00_11 /\
  0 + 2 <= qubitCount two_qubits_00_11 /\
  DEC 1 0 2 (INC 1 0 2 two_qubits_00_11) = two_qubits_00_11.
Proof.
  split; [exact well_formed_two_qubits_00_11|].
  split; [cbn; lia|].
  apply (INC_DEC_round_trip uint64_bits 1 0 2 two_qubits_00_11
           well_formed_two_qubits_00_11); cbn; lia.
Defined.

Lemma well_formed_one_qubit_unnormalized : well_formed one_qubit_unnormalized.
Proof. repeat split; cbn; try lia; reflexivity. Qed.

(** [Cohere] of one qubit with amplitude 2 and [runningNorm] 2 with one qubit
    in the state |1>: the amplitude 2 enters as 2 / 2. *)
Lemma Cohere_tensor_product_witness :
  well_formed one_qubit_unnormalized /\ well_formed one_qubit_set /\
  runningNorm one_qubit_unnormalized <> 0%R /\ runningNorm one_qubit_set <> 0%R /\
  qubitCount (fst (Cohere one_qubit_set one_qubit_unnormalized)) = 2 /\
  at_ (stateVec (fst (Cohere one_qubit_set one_qubit_unnormalized))) 3
  = Cmul (mkComplex16 (2 / 2) (0 / 2)) (mkComplex16 1 0).
Proof.
  assert (Hq : runningNorm one_qubit_unnormalized <> 0%R) by (cbn; lra).
  assert (Ht : runningNorm one_qubit_set <> 0%R) by (cbn; lra).
  split; [exact well_formed_one_qubit_unnormalized|].
  split; [exact well_formed_one_qubit_set|].
  split; [exact Hq|]. split; [exact Ht|].
  pose proof (Cohere_tensor_product one_qubit_unnormalized one_qubit_set
                well_formed_one_qubit_unnormalized well_formed_one_qubit_set
                ltac:(cbn; lia) Hq Ht)
    as (Hn & _ & _ & Hat & _).
  split; [exact Hn|].
  rewrite (Hat 3 ltac:(cbn; lia)). run_model.
  rewrite (Reqb_false 2 1) by lra.
  rewrite Rltb_false by lra.
  rewrite (Reqb_true 1 1) by reflexivity.
  reflexivity.
Defined.

(** [AND], [OR] and [XOR] with input 1 on the output qubit, and with three
    equal qubits. *)
Lemma logic_gates_on_overlap_witness :
  partial_overlap 0 1 0 /\
  AND 0 1 0 two_qubits_zero = (InvalidArgument "Invalid AND arguments.", two_qubits_zero) /\
  OR 0 1 0 two_qubits_zero = (InvalidArgument "Invalid OR arguments.", two_qubits_zero) /\
  XOR 0 1 0 two_qubits_zero = CNOT 1 0 two_qubits_zero /\
  AND 1 1 1 two_qubits_zero = (Ok tt, two_qubits_zero).
Proof.
  assert (Hov : partial_overlap 0 1 0).
  { split; [left; reflexivity | intros [Heq _]; discriminate Heq]. }
  split; [exact Hov|].
  destruct (logic_gates_on_overlap 0 1 0 two_qubits_zero) as [_ Hpartial].
  destruct (Hpartial Hov) as (HAND & HOR & _ & HXOR).
  destruct (logic_gates_on_overlap 1 1 1 two_qubits_zero) as [Hsame _].
  destruct (Hsame (conj eq_refl eq_refl)) as (HAND1 & _).
  repeat split; assumption.
Defined.

(** [INCBCDC] and [DECBCDC] on a register of length 1. *)
Lemma BCDC_not_atomic_on_error_witness :
  1 mod 4 <> 0 /\
  fst (INCBCDC 1 0 1 1 two_qubits_carry_set)
    = InvalidArgument "BCD word bit length must be a multiple of 4." /\
  fst (DECBCDC 1 0 1 1 two_qubits_carry_set)
    = InvalidArgument "BCD word bit length must be a multiple of 4.".
Proof.
  assert (Hlen : 1 mod 4 <> 0) by discriminate.
  split; [exact Hlen|].
  destruct BCDC_not_atomic_on_error as [Hthrow _].
  destruct (Hthrow 1 0 1 1 two_qubits_carry_set Hlen) as [-> ->].
  split; reflexivity.
Defined.

(** * Further properties of the register *)

(** ** Loops that update the buffer in place *)

Lemma inplace_indexed (h : Z -> Complex16 -> Complex16)
    (body : Z -> list Complex16 -> list Complex16) (sv : list Complex16) :
  (forall (l : list Complex16) (i : nat) (x : Complex16),
     l !! i = Some x -> body (Z.of_nat i) l = <[i := h (Z.of_nat i) x]> l) ->
  forall k : nat, (k <= length sv)%nat ->
    fold_left (fun l i => body i l) (seqZ 0 (Z.of_nat k)) sv
    = imap (fun i x => h (Z.of_nat i) x) (take k sv) ++ drop k sv.
Proof.
  intros Hbody. induction k as [|k IH]; intros Hk.
  - cbn. now rewrite drop_0.
  - rewrite seqZ_S, fold_left_app, IH by lia. cbn [fold_left]. rewrite Z.add_0_l.
    destruct (lookup_lt_is_Some_2 sv k ltac:(lia)) as [x Hx].
    rewrite (Hbody _ k x).
    + rewrite insert_app_r_alt by (rewrite length_imap, length_take_le; lia).
      rewrite length_imap, length_take_le, Nat.sub_diag by lia.
      rewrite (drop_S sv x k Hx), (take_S_r sv k x Hx), imap_app. cbn.
      rewrite length_take_le, Nat.add_0_r by lia.
      now rewrite <- app_assoc.
    + rewrite lookup_app_r by (rewrite length_imap, length_take_le; lia).
      rewrite length_imap, length_take_le, Nat.sub_diag by lia.
      now rewrite lookup_drop, Nat.add_0_r.
Qed.

(** A [par_for] over the whole buffer whose body rewrites entry [lcv] from
    its own content. *)
Lemma par_for_inplace (h : Z -> Complex16 -> Complex16)
    (body : Z -> list Complex16 -> list Complex16) (sv : list Complex16) (n : Z) :
  0 <= n -> length sv = Z.to_nat n ->
  (forall (l : list Complex16) (i : nat) (x : Complex16),
     l !! i = Some x -> body (Z.of_nat i) l = <[i := h (Z.of_nat i) x]> l) ->
  par_for 0 n body sv = imap (fun i x => h (Z.of_nat i) x) sv.
Proof.
  intros Hn Hlen Hbody. rewrite par_for_fold.
  rewrite <- (Z2Nat.id n) by assumption.
  rewrite (inplace_indexed h body sv Hbody) by lia.
  rewrite <- Hlen, firstn_all, drop_all. apply app_nil_r.
Qed.

Lemma at_imap (h : Z -> Complex16 -> Complex16) (sv : list Complex16) (i : Z) :
  0 <= i < Z.of_nat (length sv) ->
  at_ (imap (fun i x => h (Z.of_nat i) x) sv) i = h i (at_ sv i).
Proof.
  intros Hi. unfold at_. rewrite list_lookup_imap.
  destruct (lookup_lt_is_Some_2 sv (Z.to_nat i) ltac:(lia)) as [x Hx].
  rewrite Hx. cbn. now rewrite Z2Nat.id by lia.
Qed.

Lemma set_at_lookup (l : list Complex16) (i : nat) (x v : Complex16) :
  l !! i = Some x -> set_at l (Z.of_nat i) v = <[i := v]> l /\ at_ l (Z.of_nat i) = x.
Proof. intros Hx. unfold set_at, at_. rewrite Nat2Z.id, Hx. split; reflexivity. Qed.

Lemma Cneg_involutive (a : Complex16) : Cneg (Cneg a) = a.
Proof. destruct a as [re im]. unfold Cneg. cbn. f_equal; lra. Qed.

Lemma fmap_Cneg_involutive (sv : list Complex16) : Cneg <$> (Cneg <$> sv) = sv.
Proof.
  induction sv as [|a sv IH]; [reflexivity|].
  cbn. rewrite Cneg_involutive. f_equal. exact IH.
Qed.

Lemma norm_Cneg (a : Complex16) : norm (Cneg a) = norm a.
Proof. destruct a as [re im]. unfold norm, Cneg. cbn. lra. Qed.

Lemma with_stateVec_twice (sv sv' : list Complex16) (q : CoherentUnit) :
  with_stateVec sv (with_stateVec sv' q) = with_stateVec sv q.
Proof. reflexivity. Qed.

(** ** PhaseFlip *)

Lemma PhaseFlip_map (q : CoherentUnit) :
  buffer_sized q -> PhaseFlip q = with_stateVec (Cneg <$> stateVec q) q.
Proof.
  intros [Hn Hlen]. unfold PhaseFlip. f_equal.
  rewrite (par_for_inplace (fun _ a => Cneg a)) by
    (try assumption; intros l i x Hx; destruct (set_at_lookup l i x (Cneg x) Hx) as [_ Hat];
     rewrite Hat; unfold set_at; now rewrite Nat2Z.id).
  apply (imap_const Cneg).
Qed.

(** X1: [PhaseFlip] negates every amplitude, keeps the squared magnitude of
    each one, and applied twice gives back the register. *)
Theorem PhaseFlip_negates_and_is_involutive (q : CoherentUnit) :
  buffer_sized q ->
  stateVec (PhaseFlip q) = Cneg <$> stateVec q /\
  (forall lcv, norm (at_ (stateVec (PhaseFlip q)) lcv) = norm (at_ (stateVec q) lcv)) /\
  PhaseFlip (PhaseFlip q) = q.
Proof.
  intros Hq. pose proof Hq as [Hn Hlen]. rewrite PhaseFlip_map by assumption.
  split; [reflexivity|]. split.
  - intros lcv. cbn [stateVec with_stateVec]. unfold at_. rewrite list_lookup_fmap.
    destruct (stateVec q !! Z.to_nat lcv); cbn; [apply norm_Cneg | reflexivity].
  - rewrite PhaseFlip_map
      by (split; cbn; [assumption | now rewrite length_fmap]).
    cbn [stateVec with_stateVec]. rewrite with_stateVec_twice.
    rewrite fmap_Cneg_involutive. apply with_stateVec_same.
Qed.

(** ** Conditional phase flips *)

Lemma par_for_flip (c : Z -> bool) (sv : list Complex16) (n : Z) :
  0 <= n -> length sv = Z.to_nat n ->
  par_for 0 n (fun lcv sv => if c lcv then set_at sv lcv (Cneg (at_ sv lcv)) else sv) sv
  = imap (fun i x => if c (Z.of_nat i) then Cneg x else x) sv.
Proof.
  intros Hn Hlen.
  apply (par_for_inplace (fun i a => if c i then Cneg a else a)); try assumption.
  intros l i x Hx. destruct (set_at_lookup l i x (Cneg x) Hx) as [Hset Hat].
  destruct (c (Z.of_nat i)).
  - now rewrite Hat.
  - symmetry. now apply list_insert_id.
Qed.

Lemma imap_flip_twice (c : Z -> bool) (sv : list Complex16) :
  imap (fun i x => if c (Z.of_nat i) then Cneg x else x)
       (imap (fun i x => if c (Z.of_nat i) then Cneg x else x) sv) = sv.
Proof.
  apply list_eq. intros i. rewrite !list_lookup_imap.
  destruct (sv !! i) as [x|]; cbn; [|reflexivity].
  destruct (c (Z.of_nat i)); [now rewrite Cneg_involutive | reflexivity].
Qed.

Lemma flip_twice (c : Z -> bool) (q : CoherentUnit) :
  buffer_sized q ->
  let flip q :=
    with_stateVec
      (par_for 0 (maxQPower q)
         (fun lcv sv => if c lcv then set_at sv lcv (Cneg (at_ sv lcv)) else sv)
         (stateVec q)) q in
  flip (flip q) = q.
Proof.
  intros [Hn Hlen] flip. subst flip. cbn [maxQPower stateVec with_stateVec].
  rewrite with_stateVec_twice.
  rewrite (par_for_flip c (stateVec q)) by assumption.
  rewrite par_for_flip by (try assumption; now rewrite length_imap).
  rewrite imap_flip_twice. apply with_stateVec_same.
Qed.

Lemma land_lnot_eq_iff (x m w : Z) :
  0 <= w -> 0 <= x < 2 ^ w ->
  Z.land x (Z.land (Z.lnot m) (Z.ones w)) = x <-> Z.land x m = 0.
Proof.
  intros Hw Hx. split; intros Heq.
  - rewrite <- Heq. Z.bitblast.
  - assert (Hx' : Z.land x (Z.lnot m) = x).
    { replace x with (Z.lor (Z.land x m) (Z.land x (Z.lnot m))) at 2 by Z.bitblast.
      now rewrite Heq, Z.lor_0_l. }
    rewrite Z.land_assoc, Hx'. apply small_land_ones; assumption.
Qed.

Lemma land_mask_shiftl_reg (start length x : Z) :
  0 <= start -> 0 <= length ->
  Z.land x (Z.shiftl (Z.ones length) start) = Z.shiftl (reg start length x) start.
Proof. intros Hs Hl. unfold reg. rewrite reg_shiftr_land by assumption. Z.bitblast. Qed.

Lemma land_pow2_testbit (x f : Z) :
  0 <= f -> (Z.land x (Z.shiftl 1 f) =? Z.shiftl 1 f) = Z.testbit x f.
Proof.
  intros Hf. rewrite shiftl_1_pow2 by assumption.
  destruct (Z.testbit x f) eqn:Hbit.
  - apply Z.eqb_eq. apply Z.bits_inj'. intros j Hj.
    rewrite Z.land_spec, Z.pow2_bits_eqb by assumption.
    destruct (Z.eqb_spec f j) as [<- | Hne]; [now rewrite Hbit | apply andb_false_r].
  - apply Z.eqb_neq. intros Heq.
    apply (f_equal (fun z => Z.testbit z f)) in Heq.
    rewrite Z.land_spec, Hbit, Z.pow2_bits_eqb, Z.eqb_refl in Heq by assumption.
    discriminate Heq.
Qed.

Section PhaseFlips.
Context `{BitCapInt}.
Hypothesis Hbits : 32 <= bitCapIntBits.

Lemma ZeroPhaseFlip_condition (start length : Z) (q : CoherentUnit) (lcv : Z) :
  well_formed q -> 0 <= start -> 0 <= length -> start + length <= qubitCount q ->
  0 <= lcv < maxQPower q ->
  (Z.land lcv (cap_not (cap_shl (Z.shiftl 1 length - 1) start)) =? lcv)
  = (register_value start length lcv =? 0).
Proof.
  intros (Hn & Hpow & Hlen) Hs Hl Hsl Hlcv. rewrite Hpow in Hlcv.
  assert (Hw0 : 0 <= bitCapIntBits) by lia.
  rewrite shiftl_1_pow2 by assumption.
  replace (2 ^ length - 1) with (Z.ones length) by (rewrite Z.ones_equiv; lia).
  pose proof (pow2_le_30 length ltac:(lia)) as Hpl.
  pose proof (pow2_le_30 (qubitCount q) ltac:(lia)) as Hpn.
  assert (Hones : 0 <= Z.ones length < 2 ^ length) by (rewrite Z.ones_equiv; lia).
  assert (Hmask : cap_shl (Z.ones length) start = Z.shiftl (Z.ones length) start).
  { unfold cap_shl. apply (wrap_small Hbits).
    pose proof (shiftl_small (Z.ones length) start length); lia. }
  rewrite Hmask. unfold cap_not, wrap.
  rewrite <- Z.land_ones by exact Hw0.
  rewrite <- register_value_reg by assumption.
  assert (Hw : 0 <= lcv < 2 ^ bitCapIntBits).
  { assert (2 ^ 31 < 2 ^ bitCapIntBits) by (apply Z.pow_lt_mono_r; lia). lia. }
  pose proof (land_lnot_eq_iff lcv (Z.shiftl (Z.ones length) start) bitCapIntBits
                Hw0 Hw) as Hiff.
  rewrite land_mask_shiftl_reg in Hiff by assumption.
  rewrite Z.shiftl_eq_0_iff in Hiff by assumption.
  destruct (Z.eqb_spec (reg start length lcv) 0) as [Hz | Hnz].
  - apply Z.eqb_eq. now apply Hiff.
  - apply Z.eqb_neq. intros Heq. apply Hnz. now apply Hiff.
Qed.

(** X2: on a register that lies inside the state, [ZeroPhaseFlip] negates
    exactly the amplitudes of the basis states whose register value is 0, and
    applied twice gives back the register. *)
Theorem ZeroPhaseFlip_negates_zero_register (start length : Z) (q : CoherentUnit) :
  well_formed q -> 0 <= start -> 0 <= length -> start + length <= qubitCount q ->
  (forall lcv, 0 <= lcv < maxQPower q ->
     at_ (stateVec (ZeroPhaseFlip start length q)) lcv
     = if register_value start length lcv =? 0
       then Cneg (at_ (stateVec q) lcv) else at_ (stateVec q) lcv) /\
  ZeroPhaseFlip start length (ZeroPhaseFlip start length q) = q.
Proof.
  intros Hwf Hs Hl Hsl. pose proof Hwf as (Hn & Hpow & Hlen).
  assert (Hsized : buffer_sized q).
  { split; [|assumption]. rewrite Hpow. apply Z.pow_nonneg. lia. }
  split.
  - intros lcv Hlcv. unfold ZeroPhaseFlip. cbn [stateVec with_stateVec].
    rewrite (par_for_flip
               (fun lcv => Z.land lcv (cap_not (cap_shl (Z.shiftl 1 length - 1) start)) =? lcv))
      by apply Hsized.
    rewrite (at_imap (fun i x =>
               if Z.land i (cap_not (cap_shl (Z.shiftl 1 length - 1) start)) =? i
               then Cneg x else x)) by lia.
    now rewrite (ZeroPhaseFlip_condition start length q lcv Hwf Hs Hl Hsl Hlcv).
  - apply (flip_twice
             (fun lcv => Z.land lcv (cap_not (cap_shl (Z.shiftl 1 length - 1) start)) =? lcv)
             q Hsized).
Qed.

(** X3: [CPhaseFlipIfLess] negates exactly the amplitudes of the basis states
    whose register value is below [greaterPerm] and whose flag qubit is set,
    and applied twice gives back the register. *)
Theorem CPhaseFlipIfLess_negates_less_with_flag
    (greaterPerm start length flagIndex : Z) (q : CoherentUnit) :
  buffer_sized q -> 0 <= start -> 0 <= length -> start + length <= 30 ->
  0 <= flagIndex <= 30 ->
  (forall lcv, 0 <= lcv < maxQPower q ->
     at_ (stateVec (CPhaseFlipIfLess greaterPerm start length flagIndex q)) lcv
     = if (register_value start length lcv <? greaterPerm) && Z.testbit lcv flagIndex
       then Cneg (at_ (stateVec q) lcv) else at_ (stateVec q) lcv) /\
  CPhaseFlipIfLess greaterPerm start length flagIndex
    (CPhaseFlipIfLess greaterPerm start length flagIndex q) = q.
Proof.
  intros Hsized Hs Hl _ [Hf _]. pose proof Hsized as [Hn Hlen].
  set (c := fun lcv =>
         (Z.shiftr (Z.land lcv (Z.shiftl (Z.shiftl 1 length - 1) start)) start <? greaterPerm)
         && (Z.land lcv (Z.shiftl 1 flagIndex) =? Z.shiftl 1 flagIndex)).
  split.
  - intros lcv Hlcv. unfold CPhaseFlipIfLess. cbn [stateVec with_stateVec].
    rewrite (par_for_flip c) by assumption.
    rewrite (at_imap (fun i x => if c i then Cneg x else x)) by lia.
    subst c. cbv beta.
    rewrite land_pow2_testbit by assumption.
    rewrite shiftl_1_pow2 by assumption.
    replace (2 ^ length - 1) with (Z.ones length) by (rewrite Z.ones_equiv; lia).
    fold (reg start length lcv). now rewrite register_value_reg.
  - apply (flip_twice c q Hsized).
Qed.
End PhaseFlips.

(** ** NormalizeState *)

Lemma Cdiv_1 (a : Complex16) : Cdiv a 1 = a.
Proof. destruct a as [re im]. unfold Cdiv. cbn. f_equal; lra. Qed.

Lemma normalized_amplitude_cases (r : R) (a : Complex16) :
  normalized_amplitude r a = Czero \/
  (normalized_amplitude r a = Cdiv a r /\ (1e-15 <= norm (Cdiv a r))%R).
Proof.
  unfold normalized_amplitude. cbv zeta. unfold Rltb.
  destruct (Rlt_dec (norm (Cdiv a r)) 1e-15) as [Hlt | Hge]; [left; reflexivity|].
  right. split; [reflexivity | lra].
Qed.

Lemma normalized_amplitude_idempotent (r : R) (a : Complex16) :
  normalized_amplitude 1 (normalized_amplitude r a) = normalized_amplitude r a.
Proof.
  destruct (normalized_amplitude_cases r a) as [-> | [-> Hge]].
  - unfold normalized_amplitude. cbv zeta. rewrite Cdiv_1.
    rewrite Rltb_true; [reflexivity|]. unfold norm, Czero. cbn [real imag]. lra.
  - unfold normalized_amplitude at 1. cbv zeta. rewrite Cdiv_1.
    now rewrite Rltb_false.
Qed.

Lemma NormalizeState_sized (q : CoherentUnit) :
  buffer_sized q -> buffer_sized (NormalizeState q).
Proof.
  intros [Hn Hlen]. rewrite NormalizeState_map by assumption.
  split; cbn; [assumption | now rewrite length_fmap].
Qed.

(** X4: on a [runningNorm] other than 0, [NormalizeState] leaves [runningNorm]
    at 1, divides every amplitude by the [runningNorm] it found and clears the
    quotients whose squared magnitude is below 1e-15; a second
    [NormalizeState] changes nothing. *)
Theorem NormalizeState_idempotent (q : CoherentUnit) :
  buffer_sized q -> runningNorm q <> 0%R ->
  runningNorm (NormalizeState q) = 1%R /\
  stateVec (NormalizeState q) = normalized_amplitude (runningNorm q) <$> stateVec q /\
  (forall lcv,
     at_ (stateVec (NormalizeState q)) lcv = Czero \/
     (1e-15 <= norm (at_ (stateVec (NormalizeState q)) lcv))%R) /\
  NormalizeState (NormalizeState q) = NormalizeState q.
Proof.
  intros Hq _. pose proof Hq as [Hn Hlen].
  pose proof (NormalizeState_sized q Hq) as [Hn' Hlen'].
  rewrite (NormalizeState_map (NormalizeState q)) by assumption.
  rewrite (NormalizeState_map q) by assumption.
  cbn [runningNorm stateVec with_runningNorm with_stateVec].
  split; [reflexivity|]. split; [reflexivity|]. split.
  - intros lcv. unfold at_. rewrite list_lookup_fmap.
    destruct (stateVec q !! Z.to_nat lcv) as [a|]; cbn; [|left; reflexivity].
    destruct (normalized_amplitude_cases (runningNorm q) a) as [-> | [-> Hge]];
      [left; reflexivity | right; exact Hge].
  - unfold with_runningNorm, with_stateVec. cbn. f_equal.
    rewrite <- list_fmap_compose. apply list_fmap_ext.
    intros i a _. apply normalized_amplitude_idempotent.
Qed.

(** ** Measurement of one qubit, in general *)

Lemma normalize_if_needed_sized (q : CoherentUnit) :
  buffer_sized q -> buffer_sized (normalize_if_needed q).
Proof.
  intros Hq. unfold normalize_if_needed. destruct (Reqb _ _); [assumption|].
  now apply NormalizeState_sized.
Qed.

Lemma land_pow2_zero_testbit (x f : Z) :
  0 <= f -> (Z.land x (Z.shiftl 1 f) =? 0) = negb (Z.testbit x f).
Proof.
  intros Hf. pose proof (land_pow2_testbit x f Hf) as Hbit.
  assert (Hpos : 0 < Z.shiftl 1 f).
  { rewrite shiftl_1_pow2 by assumption. apply Z.pow_pos_nonneg; lia. }
  destruct (Z.testbit x f); cbn.
  - apply Z.eqb_eq in Hbit. rewrite Hbit. apply Z.eqb_neq. lia.
  - apply Z.eqb_neq in Hbit. apply Z.eqb_eq.
    destruct (Z.eq_dec (Z.land x (Z.shiftl 1 f)) 0) as [Hz | Hnz]; [assumption|].
    exfalso. apply Hbit. rewrite shiftl_1_pow2 in * by assumption.
    apply Z.bits_inj'. intros j Hj.
    rewrite Z.land_spec, Z.pow2_bits_eqb by assumption.
    destruct (Z.eqb_spec f j) as [<- | Hne]; [|apply andb_false_r].
    rewrite andb_true_r. destruct (Z.testbit x f) eqn:Hxf; [reflexivity|].
    exfalso. apply Hnz. apply Z.bits_inj'. intros k Hk.
    rewrite Z.land_spec, Z.pow2_bits_eqb, Z.bits_0 by assumption.
    destruct (Z.eqb_spec f k) as [<- | Hne]; [now rewrite Hxf | apply andb_false_r].
Qed.

(** X5: [M] keeps the size of the buffer, zeroes every amplitude whose qubit
    disagrees with the result it returns, and multiplies all the others by
    one and the same complex factor. *)
Theorem M_collapses_onto_result (qubitIndex : Z) (q : CoherentUnit) :
  buffer_sized q -> 0 <= qubitIndex <= 30 ->
  let r := M qubitIndex q in
  length (stateVec (snd r)) = length (stateVec q) /\
  (forall lcv, 0 <= lcv < maxQPower q ->
     Z.testbit lcv qubitIndex = negb (fst r) ->
     at_ (stateVec (snd r)) lcv = Czero) /\
  exists nrm, forall lcv, 0 <= lcv < maxQPower q ->
     Z.testbit lcv qubitIndex = fst r ->
     at_ (stateVec (snd r)) lcv = Cmul nrm (at_ (stateVec (normalize_if_needed q)) lcv).
Proof.
  intros Hq [Hi _] r. subst r. unfold M.
  pose proof (normalize_if_needed_sized q Hq) as [Hn0 Hlen0].
  pose proof (normalize_if_needed_normalized q) as Hnorm.
  pose proof (normalize_if_needed_size q) as [_ Hmax].
  assert (Hlenq : length (stateVec (normalize_if_needed q)) = length (stateVec q)).
  { destruct Hq as [_ Hl]. rewrite Hlen0, Hl, Hmax. reflexivity. }
  set (q0 := normalize_if_needed q) in *.
  cbn [Rand]. rewrite Prob_normalized by exact Hnorm.
  cbn [maxQPower stateVec].
  set (p := oneChance_of qubitIndex _).
  set (result := Rltb _ p && Rltb 0 p).
  set (phase := mkComplex16 _ _).
  cbn [fst snd stateVec UpdateRunningNorm with_runningNorm with_stateVec].
  destruct result.
  - set (nrm := Cdiv phase _).
    rewrite (par_for_inplace
               (fun lcv a => if Z.land lcv (Z.shiftl 1 qubitIndex) =? 0 then Czero
                             else Cmul nrm a))
      by (try assumption; intros l i x Hx;
          destruct (set_at_lookup l i x Czero Hx) as [Hs1 Hat];
          destruct (set_at_lookup l i x (Cmul nrm x) Hx) as [Hs2 _];
          rewrite Hat; destruct (_ =? 0); assumption).
    split; [now rewrite length_imap|]. split.
    + intros lcv Hlcv Hbit. rewrite <- Hmax in Hlcv.
      rewrite (at_imap (fun lcv a => if Z.land lcv (Z.shiftl 1 qubitIndex) =? 0 then Czero
                                     else Cmul nrm a)) by lia.
      now rewrite land_pow2_zero_testbit, Hbit.
    + exists nrm. intros lcv Hlcv Hbit. rewrite <- Hmax in Hlcv.
      rewrite (at_imap (fun lcv a => if Z.land lcv (Z.shiftl 1 qubitIndex) =? 0 then Czero
                                     else Cmul nrm a)) by lia.
      now rewrite land_pow2_zero_testbit, Hbit.
  - set (nrm := Cdiv phase _).
    rewrite (par_for_inplace
               (fun lcv a => if Z.land lcv (Z.shiftl 1 qubitIndex) =? 0 then Cmul nrm a
                             else Czero))
      by (try assumption; intros l i x Hx;
          destruct (set_at_lookup l i x Czero Hx) as [Hs1 Hat];
          destruct (set_at_lookup l i x (Cmul nrm x) Hx) as [Hs2 _];
          rewrite Hat; destruct (_ =? 0); assumption).
    split; [now rewrite length_imap|]. split.
    + intros lcv Hlcv Hbit. rewrite <- Hmax in Hlcv.
      rewrite (at_imap (fun lcv a => if Z.land lcv (Z.shiftl 1 qubitIndex) =? 0 then Cmul nrm a
                                     else Czero)) by lia.
      now rewrite land_pow2_zero_testbit, Hbit.
    + exists nrm. intros lcv Hlcv Hbit. rewrite <- Hmax in Hlcv.
      rewrite (at_imap (fun lcv a => if Z.land lcv (Z.shiftl 1 qubitIndex) =? 0 then Cmul nrm a
                                     else Czero)) by lia.
      now rewrite land_pow2_zero_testbit, Hbit.
Qed.

(** ** Prob and M on a qubit index beyond the register *)

Lemma for_loop_skip {St : Type} (body : Z -> St -> St) (count : nat) :
  forall (i : Z) (s : St),
    (forall k a, i <= k < i + Z.of_nat count -> body k a = a) ->
    for_loop count i body s = s.
Proof.
  induction count as [|count IH]; intros i s Hbody.
  - reflexivity.
  - cbn [for_loop]. rewrite Hbody by lia. apply IH. intros k a Hk. apply Hbody. lia.
Qed.

Lemma testbit_above (x n i : Z) : 0 <= x < 2 ^ n -> 0 <= n <= i -> Z.testbit x i = false.
Proof.
  intros Hx Hi. rewrite <- (Z.mod_small x (2 ^ n)) by assumption.
  apply Z.mod_pow2_bits_high. lia.
Qed.

Lemma oneChance_of_beyond (qubitIndex : Z) (q : CoherentUnit) :
  0 <= maxQPower q <= 2 ^ qubitIndex -> 0 <= qubitIndex ->
  oneChance_of qubitIndex q = 0%R.
Proof.
  intros Hmax Hi. unfold oneChance_of. apply for_loop_skip.
  intros k a Hk. rewrite land_pow2_testbit by assumption.
  rewrite (testbit_above k qubitIndex qubitIndex); [reflexivity | lia | lia].
Qed.

(** X6: when the qubit index is not below the number of qubits, [Prob]
    returns 0 and [M] returns false: neither checks the index. *)
Theorem Prob_M_beyond_register (qubitIndex : Z) (q : CoherentUnit) :
  well_formed q -> qubitCount q <= qubitIndex <= 30 ->
  fst (Prob qubitIndex q) = 0%R /\ fst (M qubitIndex q) = false.
Proof.
  intros (Hn & Hpow & Hlen) [Hi _].
  pose proof (normalize_if_needed_size q) as [_ Hmax].
  pose proof (normalize_if_needed_normalized q) as Hnorm.
  assert (Hle : 0 <= maxQPower (normalize_if_needed q) <= 2 ^ qubitIndex).
  { rewrite Hmax, Hpow. split; [apply Z.pow_nonneg; lia | apply Z.pow_le_mono_r; lia]. }
  split.
  - unfold Prob. cbv zeta. cbn [fst].
    apply (oneChance_of_beyond qubitIndex (normalize_if_needed q)); [assumption | lia].
  - unfold M. set (q0 := normalize_if_needed q) in *. cbn [Rand].
    rewrite Prob_normalized by exact Hnorm.
    cbn [maxQPower stateVec].
    set (p := oneChance_of qubitIndex _).
    assert (Hp : p = 0%R) by (subst p; apply oneChance_of_beyond; [exact Hle | lia]).
    rewrite Hp. rewrite (Rltb_false 0 0) by lra. rewrite andb_false_r. reflexivity.
Qed.

(** ** INC and DEC as permutations of the amplitudes *)

Lemma permuted_unique (f g : Z -> Z) (src sv1 sv2 : list Complex16) (n : Z) :
  length sv1 = Z.to_nat n -> length sv2 = Z.to_nat n ->
  (forall i, 0 <= i < n -> 0 <= g i < n) ->
  (forall i, 0 <= i < n -> f (g i) = i) ->
  (forall i, 0 <= i < n -> at_ sv1 (f i) = at_ src i) ->
  (forall i, 0 <= i < n -> at_ sv2 (f i) = at_ src i) ->
  sv1 = sv2.
Proof.
  intros H1 H2 Hg Hfg Hat1 Hat2. apply list_eq_at; [congruence|].
  intros i Hi. rewrite H1 in Hi.
  assert (Hi' : 0 <= i < n) by lia.
  rewrite <- (Hfg i Hi'). rewrite Hat1, Hat2 by auto. reflexivity.
Qed.

Section Permutations.
Context `{BitCapInt}.
Hypothesis Hbits : 32 <= bitCapIntBits.

Lemma INC_shape (k start length : Z) (q : CoherentUnit) :
  well_formed q -> 0 <= start -> 0 <= length -> start + length <= qubitCount q ->
  exists sv, INC k start length q = with_stateVec sv q /\
    List.length sv = Z.to_nat (maxQPower q) /\
    forall lcv, 0 <= lcv < maxQPower q ->
      at_ sv (moved (qubitCount q) start length
                ((reg start length lcv + k) mod 2 ^ length) lcv) = at_ (stateVec q) lcv.
Proof.
  intros Hwf Hs Hl Hsl. pose proof Hwf as (Hn & Hpow & Hlen).
  assert (Hp : 0 < 2 ^ length) by (apply Z.pow_pos_nonneg; lia).
  destruct (Z.eq_dec length 0) as [Hl0 | Hl0];
    [|destruct (Z.eq_dec (k mod 2 ^ length) 0) as [Hk0 | Hk0]].
  - destruct (INC_DEC_skip k start length q ltac:(tauto)) as [HI _].
    exists (stateVec q). rewrite HI, with_stateVec_same. repeat split; [assumption|].
    intros lcv Hlcv. f_equal. subst length. rewrite Z.mod_1_r.
    rewrite <- (moved_reg (qubitCount q) start 0 lcv) at 2 by lia.
    f_equal. pose proof (reg_range start 0 lcv Hs ltac:(lia)). cbn in *. lia.
  - destruct (INC_DEC_skip k start length q ltac:(tauto)) as [HI _].
    exists (stateVec q). rewrite HI, with_stateVec_same. repeat split; [assumption|].
    intros lcv Hlcv. f_equal.
    rewrite <- Zplus_mod_idemp_r, Hk0, Z.add_0_r.
    rewrite Z.mod_small by (apply reg_range; lia).
    apply moved_reg; lia.
  - assert (Hk : 0 < k mod 2 ^ length).
    { pose proof (Z.mod_pos_bound k (2 ^ length) Hp). lia. }
    rewrite (INC_stateVec Hbits k start length q Hwf Hs ltac:(lia) Hsl Hk).
    set (f := fun lcv => moved (qubitCount q) start length
                           ((reg start length lcv + k) mod 2 ^ length) lcv).
    set (g := fun lcv => moved (qubitCount q) start length
                           ((reg start length lcv - k) mod 2 ^ length) lcv).
    assert (Hr : forall i, 0 <= i < maxQPower q -> 0 <= f i < maxQPower q).
    { intros i Hi. rewrite Hpow in *. apply moved_range; try lia.
      apply Z.mod_pos_bound. lia. }
    assert (Hgf : forall i, 0 <= i < maxQPower q -> g (f i) = i).
    { intros i Hi. rewrite Hpow in Hi. unfold f, g.
      pose proof (reg_range start length i Hs Hl) as Hv.
      rewrite reg_moved, moved_moved by (try apply Z.mod_pos_bound; lia).
      rewrite mod_add_sub_cancel by assumption. apply moved_reg; lia. }
    destruct (scatter_spec f g (stateVec q) (maxQPower q) Hr Hgf) as [Hlen' Hat].
    eexists. split; [reflexivity|]. split; [exact Hlen' | exact Hat].
Qed.

Lemma DEC_shape (k start length : Z) (q : CoherentUnit) :
  well_formed q -> 0 <= start -> 0 <= length -> start + length <= qubitCount q ->
  exists sv, DEC k start length q = with_stateVec sv q /\
    List.length sv = Z.to_nat (maxQPower q) /\
    forall lcv, 0 <= lcv < maxQPower q ->
      at_ sv (moved (qubitCount q) start length
                ((reg start length lcv - k) mod 2 ^ length) lcv) = at_ (stateVec q) lcv.
Proof.
  intros Hwf Hs Hl Hsl. pose proof Hwf as (Hn & Hpow & Hlen).
  assert (Hp : 0 < 2 ^ length) by (apply Z.pow_pos_nonneg; lia).
  destruct (Z.eq_dec length 0) as [Hl0 | Hl0];
    [|destruct (Z.eq_dec (k mod 2 ^ length) 0) as [Hk0 | Hk0]].
  - destruct (INC_DEC_skip k start length q ltac:(tauto)) as [_ HD].
    exists (stateVec q). rewrite HD, with_stateVec_same. repeat split; [assumption|].
    intros lcv Hlcv. f_equal. subst length. rewrite Z.mod_1_r.
    rewrite <- (moved_reg (qubitCount q) start 0 lcv) at 2 by lia.
    f_equal. pose proof (reg_range start 0 lcv Hs ltac:(lia)). cbn in *. lia.
  - destruct (INC_DEC_skip k start length q ltac:(tauto)) as [_ HD].
    exists (stateVec q). rewrite HD, with_stateVec_same. repeat split; [assumption|].
    intros lcv Hlcv. f_equal.
    rewrite <- Zminus_mod_idemp_r, Hk0, Z.sub_0_r.
    rewrite Z.mod_small by (apply reg_range; lia).
    apply moved_reg; lia.
  - assert (Hk : 0 < k mod 2 ^ length).
    { pose proof (Z.mod_pos_bound k (2 ^ length) Hp). lia. }
    rewrite (DEC_stateVec Hbits k start length q Hwf Hs ltac:(lia) Hsl Hk).
    set (f := fun lcv => moved (qubitCount q) start length
                           ((reg start length lcv - k) mod 2 ^ length) lcv).
    set (g := fun lcv => moved (qubitCount q) start length
                           ((reg start length lcv + k) mod 2 ^ length) lcv).
    assert (Hr : forall i, 0 <= i < maxQPower q -> 0 <= f i < maxQPower q).
    { intros i Hi. rewrite Hpow in *. apply moved_range; try lia.
      apply Z.mod_pos_bound. lia. }
    assert (Hgf : forall i, 0 <= i < maxQPower q -> g (f i) = i).
    { intros i Hi. rewrite Hpow in Hi. unfold f, g.
      pose proof (reg_range start length i Hs Hl) as Hv.
      rewrite reg_moved, moved_moved by (try apply Z.mod_pos_bound; lia).
      rewrite mod_sub_add_cancel by assumption. apply moved_reg; lia. }
    destruct (scatter_spec f g (stateVec q) (maxQPower q) Hr Hgf) as [Hlen' Hat].
    eexists. split; [reflexivity|]. split; [exact Hlen' | exact Hat].
Qed.

Lemma well_formed_with_stateVec (sv : list Complex16) (q : CoherentUnit) :
  well_formed q -> length sv = Z.to_nat (maxQPower q) -> well_formed (with_stateVec sv q).
Proof. intros (Hn & Hpow & Hlen) Hsv. repeat split; cbn; first [lia | assumption]. Qed.

Lemma moved_back (n start length k x : Z) :
  0 <= start -> 0 <= length -> start + length <= n -> 0 <= x < 2 ^ n ->
  moved n start length
    ((reg start length (moved n start length ((reg start length x - k) mod 2 ^ length) x) + k)
       mod 2 ^ length)
    (moved n start length ((reg start length x - k) mod 2 ^ length) x) = x.
Proof.
  intros Hs Hl Hsl Hx.
  assert (Hp : 0 < 2 ^ length) by (apply Z.pow_pos_nonneg; lia).
  pose proof (reg_range start length x Hs Hl) as Hv.
  rewrite reg_moved, moved_moved by (try apply Z.mod_pos_bound; lia).
  rewrite mod_sub_add_cancel by assumption. apply moved_reg; lia.
Qed.

(** X7: two [INC]s on the same register add up: [INC a] after [INC b] is
    [INC (a + b)]. *)
Theorem INC_INC_adds (a b start length : Z) (q : CoherentUnit) :
  well_formed q -> 0 <= start -> 0 <= length -> start + length <= qubitCount q ->
  INC a start length (INC b start length q) = INC (a + b) start length q.
Proof.
  intros Hwf Hs Hl Hsl. pose proof Hwf as (Hn & Hpow & Hlen).
  assert (Hp : 0 < 2 ^ length) by (apply Z.pow_pos_nonneg; lia).
  destruct (INC_shape b start length q Hwf Hs Hl Hsl) as (svb & Hb & Hlb & Hatb).
  destruct (INC_shape (a + b) start length q Hwf Hs Hl Hsl) as (svab & Hab & Hlab & Hatab).
  rewrite Hb, Hab.
  pose proof (well_formed_with_stateVec svb q Hwf Hlb) as Hwfb.
  destruct (INC_shape a start length (with_stateVec svb q) Hwfb Hs Hl Hsl)
    as (sva & Ha & Hla & Hata).
  rewrite Ha, with_stateVec_twice. f_equal.
  cbn [qubitCount maxQPower stateVec with_stateVec] in Hla, Hata.
  set (n := qubitCount q) in *.
  apply (permuted_unique
           (fun lcv => moved n start length ((reg start length lcv + (a + b)) mod 2 ^ length) lcv)
           (fun lcv => moved n start length ((reg start length lcv - (a + b)) mod 2 ^ length) lcv)
           (stateVec q) sva svab (maxQPower q)); try assumption.
  - intros i Hi. rewrite Hpow in *. apply moved_range; try lia. apply Z.mod_pos_bound. lia.
  - intros i Hi. rewrite Hpow in Hi. apply moved_back; lia.
  - intros i Hi. rewrite <- Hatb by assumption.
    assert (Hr : 0 <= moved n start length ((reg start length i + b) mod 2 ^ length) i
                 < maxQPower q).
    { rewrite Hpow in *. apply moved_range; try lia. apply Z.mod_pos_bound. lia. }
    rewrite <- (Hata _ Hr). f_equal.
    rewrite reg_moved, moved_moved by (try apply Z.mod_pos_bound; lia).
    f_equal. rewrite Zplus_mod_idemp_l. f_equal. lia.
Qed.

(** X8: [DEC k] is [INC] of the complement [2^length - k mod 2^length]. *)
Theorem DEC_is_INC_of_complement (k start length : Z) (q : CoherentUnit) :
  well_formed q -> 0 <= start -> 0 <= length -> start + length <= qubitCount q ->
  DEC k start length q = INC (2 ^ length - k mod 2 ^ length) start length q.
Proof.
  intros Hwf Hs Hl Hsl. pose proof Hwf as (Hn & Hpow & Hlen).
  assert (Hp : 0 < 2 ^ length) by (apply Z.pow_pos_nonneg; lia).
  destruct (DEC_shape k start length q Hwf Hs Hl Hsl) as (svd & Hd & Hld & Hatd).
  destruct (INC_shape (2 ^ length - k mod 2 ^ length) start length q Hwf Hs Hl Hsl)
    as (svi & Hi & Hli & Hati).
  rewrite Hd, Hi. f_equal.
  set (n := qubitCount q) in *.
  apply (permuted_unique
           (fun lcv => moved n start length ((reg start length lcv - k) mod 2 ^ length) lcv)
           (fun lcv => moved n start length ((reg start length lcv + k) mod 2 ^ length) lcv)
           (stateVec q) svd svi (maxQPower q)); try assumption.
  - intros i Hr. rewrite Hpow in *. apply moved_range; try lia. apply Z.mod_pos_bound. lia.
  - intros i Hr. rewrite Hpow in Hr.
    pose proof (reg_range start length i Hs Hl) as Hv.
    rewrite reg_moved, moved_moved by (try apply Z.mod_pos_bound; lia).
    rewrite mod_add_sub_cancel by assumption. apply moved_reg; lia.
  - intros i Hr. rewrite <- (Hati i Hr). f_equal. f_equal.
    replace (reg start length i + (2 ^ length - k mod 2 ^ length))
      with (reg start length i - k mod 2 ^ length + 1 * 2 ^ length) by lia.
    rewrite Z.mod_add by lia. now rewrite Zminus_mod_idemp_r.
Qed.

End Permutations.

(** ** When the gates throw *)

Lemma for_op_ok (body : Z -> op unit) (count : nat) :
  forall (i : Z) (q : CoherentUnit),
    (forall k q', i <= k < i + Z.of_nat count -> fst (body k q') = Ok tt) ->
    fst (for_op count i body q) = Ok tt.
Proof.
  induction count as [|count IH]; intros i q Hbody.
  - reflexivity.
  - cbn [for_op]. unfold bind.
    pose proof (Hbody i q ltac:(lia)) as Hi.
    destruct (body i q) as [[[] | what] q']; cbn in Hi; [|discriminate].
    apply IH. intros k q'' Hk. apply Hbody. lia.
Qed.

Lemma for_op_throws_at_once (body : Z -> op unit) (count : nat) (i : Z)
    (q q' : CoherentUnit) (what : string) :
  body i q = (InvalidArgument what, q') ->
  for_op (S count) i body q = (InvalidArgument what, q').
Proof. intros Hb. cbn [for_op]. unfold bind. now rewrite Hb. Qed.

Section Throws.
Context `{BitCapInt}.

Lemma CNOT_distinct (control target : Z) (q : CoherentUnit) :
  control <> target -> fst (CNOT control target q) = Ok tt.
Proof. intros Hne. unfold CNOT. destruct (Z.eqb_spec control target); [congruence | reflexivity]. Qed.

Lemma partial_overlapb_shift (a b o i : Z) :
  partial_overlapb (a + i) (b + i) (o + i) = partial_overlapb a b o.
Proof.
  unfold partial_overlapb.
  destruct (Z.eqb_spec a o), (Z.eqb_spec b o), (Z.eqb_spec a b),
    (Z.eqb_spec (a + i) (o + i)), (Z.eqb_spec (b + i) (o + i)), (Z.eqb_spec (a + i) (b + i));
    try reflexivity; lia.
Qed.

Lemma AND_throws (a b o : Z) (q : CoherentUnit) :
  is_InvalidArgument (fst (AND a b o q)) = partial_overlapb a b o.
Proof.
  unfold AND, partial_overlapb, CNOT, CCNOT, bind, run, ret, throw.
  destruct (Z.eqb_spec a b), (Z.eqb_spec b o), (Z.eqb_spec a o);
    cbn; try reflexivity; try lia; subst;
    repeat match goal with
           | |- context [?x =? ?y] => destruct (Z.eqb_spec x y); try lia
           end; reflexivity.
Qed.

Lemma OR_throws (a b o : Z) (q : CoherentUnit) :
  is_InvalidArgument (fst (OR a b o q)) = partial_overlapb a b o.
Proof.
  unfold OR, partial_overlapb, AntiCNOT, AntiCCNOT, bind, run, ret, throw.
  destruct (Z.eqb_spec a b), (Z.eqb_spec b o), (Z.eqb_spec a o);
    cbn; try reflexivity; try lia; subst;
    repeat match goal with
           | |- context [?x =? ?y] => destruct (Z.eqb_spec x y); try lia
           end; reflexivity.
Qed.

Lemma XOR_throws (a b o : Z) (q : CoherentUnit) :
  is_InvalidArgument (fst (XOR a b o q)) = false.
Proof.
  unfold XOR, CNOT, bind, run, ret, throw.
  destruct (Z.eqb_spec a b), (Z.eqb_spec b o), (Z.eqb_spec a o);
    cbn; try reflexivity; try lia; subst;
    repeat match goal with
           | |- context [?x =? ?y] => destruct (Z.eqb_spec x y); try lia
           end; reflexivity.
Qed.

Lemma Ok_of_not_thrown (o : outcome unit) : is_InvalidArgument o = false -> o = Ok tt.
Proof. destruct o as [[]|]; [reflexivity | discriminate]. Qed.

(** X11: [AND] and [OR] throw exactly on a partial overlap of their
    arguments, and [XOR] never throws: the checks of the [CNOT]s and [CCNOT]s
    they call are never hit. *)
Theorem logic_gates_throw_iff_partial_overlap (inputBit1 inputBit2 outputBit : Z)
    (q : CoherentUnit) :
  is_InvalidArgument (fst (AND inputBit1 inputBit2 outputBit q))
    = partial_overlapb inputBit1 inputBit2 outputBit /\
  is_InvalidArgument (fst (OR inputBit1 inputBit2 outputBit q))
    = partial_overlapb inputBit1 inputBit2 outputBit /\
  is_InvalidArgument (fst (XOR inputBit1 inputBit2 outputBit q)) = false.
Proof. split; [apply AND_throws | split; [apply OR_throws | apply XOR_throws]]. Qed.

Lemma CL_gates_ok (inputQBit : Z) (inputClassicalBit : bool) (outputBit : Z)
    (q : CoherentUnit) :
  fst (CLAND inputQBit inputClassicalBit outputBit q) = Ok tt /\
  fst (CLOR inputQBit inputClassicalBit outputBit q) = Ok tt /\
  fst (CLXOR inputQBit inputClassicalBit outputBit q) = Ok tt.
Proof.
  unfold CLAND, CLOR, CLXOR, bind, run, ret, CNOT, throw.
  destruct inputClassicalBit, (Z.eqb_spec inputQBit outputBit); cbn; repeat split; reflexivity.
Qed.

(** X12: the gates with a classical input never throw, on one qubit or on a
    register, also when the input qubit is the output qubit; in that case
    [CLAND] with a set bit and [CLOR] and [CLXOR] with a clear bit leave the
    register as it was. *)
Theorem classical_logic_gates_never_throw
    (inputQBit : Z) (inputClassicalBit : bool) (outputBit : Z)
    (qInputStart classicalInput outputStart length : Z) (q : CoherentUnit) :
  fst (CLAND inputQBit inputClassicalBit outputBit q) = Ok tt /\
  fst (CLOR inputQBit inputClassicalBit outputBit q) = Ok tt /\
  fst (CLXOR inputQBit inputClassicalBit outputBit q) = Ok tt /\
  fst (CL_reg CLAND qInputStart classicalInput outputStart length q) = Ok tt /\
  fst (CL_reg CLOR qInputStart classicalInput outputStart length q) = Ok tt /\
  fst (CL_reg CLXOR qInputStart classicalInput outputStart length q) = Ok tt /\
  CLAND outputBit true outputBit q = (Ok tt, q) /\
  CLOR outputBit false outputBit q = (Ok tt, q) /\
  CLXOR outputBit false outputBit q = (Ok tt, q).
Proof.
  destruct (CL_gates_ok inputQBit inputClassicalBit outputBit q) as (HA & HO & HX).
  repeat split; try assumption.
  - unfold CL_reg. apply for_op_ok. intros k q' _. apply CL_gates_ok.
  - unfold CL_reg. apply for_op_ok. intros k q' _. apply CL_gates_ok.
  - unfold CL_reg. apply for_op_ok. intros k q' _. apply CL_gates_ok.
  - unfold CLAND. cbn. now rewrite Z.eqb_refl.
  - unfold CLOR. cbn. now rewrite Z.eqb_refl.
  - unfold CLXOR. cbn. now rewrite Z.eqb_refl.
Qed.

Lemma logic_reg_throws (gate : Z -> Z -> Z -> op unit) (a b o : Z) (count : nat)
    (q : CoherentUnit) :
  (forall x y z q', is_InvalidArgument (fst (gate x y z q')) = partial_overlapb x y z) ->
  is_InvalidArgument
    (fst (for_op count 0 (fun i => gate (a + i) (b + i) (o + i)) q))
  = negb (Nat.eqb count 0) && partial_overlapb a b o.
Proof.
  intros Hgate. destruct (partial_overlapb a b o) eqn:Hov.
  - destruct count as [|count]; [reflexivity|]. cbn [for_op Nat.eqb negb andb]. unfold bind.
    pose proof (Hgate (a + 0) (b + 0) (o + 0) q) as H0.
    rewrite partial_overlapb_shift, Hov in H0.
    destruct (gate (a + 0) (b + 0) (o + 0) q) as [[[]|what] q']; [discriminate | reflexivity].
  - rewrite andb_false_r.
    rewrite for_op_ok; [reflexivity|]. intros k q' _.
    apply Ok_of_not_thrown. now rewrite Hgate, partial_overlapb_shift.
Qed.

Lemma logic_reg_untouched (gate : Z -> Z -> Z -> op unit) (a b o : Z) (count : nat)
    (q : CoherentUnit) :
  (forall x y z q', partial_overlapb x y z = true ->
     exists what, gate x y z q' = (InvalidArgument what, q')) ->
  partial_overlapb a b o = true ->
  snd (for_op count 0 (fun i => gate (a + i) (b + i) (o + i)) q) = q.
Proof.
  intros Hgate Hov. destruct count as [|count]; [reflexivity|].
  destruct (Hgate (a + 0) (b + 0) (o + 0) q) as [what Hw];
    [now rewrite partial_overlapb_shift|].
  now rewrite (for_op_throws_at_once _ count 0 q q what Hw).
Qed.

Lemma partial_overlapb_spec (a b o : Z) :
  partial_overlapb a b o = true <-> partial_overlap a b o.
Proof.
  unfold partial_overlapb, partial_overlap.
  destruct (Z.eqb_spec a o), (Z.eqb_spec b o), (Z.eqb_spec a b); cbn;
    split; try discriminate; try lia; intros; try (exfalso; lia); intuition lia.
Qed.

Lemma AND_OR_partial_overlap_untouched (a b o : Z) (q : CoherentUnit) :
  partial_overlapb a b o = true ->
  AND a b o q = (InvalidArgument "Invalid AND arguments.", q) /\
  OR a b o q = (InvalidArgument "Invalid OR arguments.", q).
Proof.
  unfold partial_overlapb, AND, OR, throw.
  destruct (Z.eqb_spec a b), (Z.eqb_spec b o), (Z.eqb_spec a o); cbn;
    try discriminate; try lia; intros _; split; reflexivity.
Qed.

(** X13: the register forms of the logic gates.  [CNOT] and [XOR] on
    registers never throw.  [AND] and [OR] on registers throw exactly when the
    length is positive and the start indices overlap partially, and then
    leave the register as it was. *)
Theorem register_logic_gates_throw_iff
    (inputStart1 inputStart2 outputStart length : Z) (q : CoherentUnit) :
  fst (CNOT_reg inputStart1 inputStart2 length q) = Ok tt /\
  fst (XOR_reg inputStart1 inputStart2 outputStart length q) = Ok tt /\
  is_InvalidArgument (fst (AND_reg inputStart1 inputStart2 outputStart length q))
    = (0 <? length) && partial_overlapb inputStart1 inputStart2 outputStart /\
  is_InvalidArgument (fst (OR_reg inputStart1 inputStart2 outputStart length q))
    = (0 <? length) && partial_overlapb inputStart1 inputStart2 outputStart /\
  snd (AND_reg outputStart inputStart2 outputStart length q) = q /\
  snd (AND_reg inputStart1 outputStart outputStart length q) = q /\
  snd (OR_reg outputStart inputStart2 outputStart length q) = q /\
  snd (OR_reg inputStart1 outputStart outputStart length q) = q.
Proof.
  assert (Hcount : negb (Nat.eqb (Z.to_nat length) 0) = (0 <? length)).
  { destruct (Z.ltb_spec 0 length), (Nat.eqb_spec (Z.to_nat length) 0); cbn; try reflexivity; lia. }
  assert (Hall : forall a b o, (a =? b) && (b =? o) = true -> partial_overlapb a b o = false).
  { intros a b o Heq. unfold partial_overlapb. rewrite Heq. cbn. apply andb_false_r. }
  assert (HAND : forall x y z q', partial_overlapb x y z = true ->
            exists what, AND x y z q' = (InvalidArgument what, q')).
  { intros x y z q' Hov.
    destruct (AND_OR_partial_overlap_untouched x y z q' Hov) as [HA _]. eauto. }
  assert (HOR : forall x y z q', partial_overlapb x y z = true ->
            exists what, OR x y z q' = (InvalidArgument what, q')).
  { intros x y z q' Hov.
    destruct (AND_OR_partial_overlap_untouched x y z q' Hov) as [_ HO]. eauto. }
  assert (Hsnd : forall gate a b o,
            (forall x y z q', partial_overlapb x y z = true ->
               exists what, gate x y z q' = (InvalidArgument what, q')) ->
            (a = o \/ b = o) ->
            snd ((if negb ((a =? b) && (b =? o))
                  then for_op (Z.to_nat length) 0 (fun i => gate (a + i) (b + i) (o + i))
                  else ret tt) q) = q).
  { intros gate a b o Hgate Hor.
    destruct ((a =? b) && (b =? o)) eqn:Heq; cbn [negb]; [reflexivity|].
    apply logic_reg_untouched; [exact Hgate|].
    unfold partial_overlapb. rewrite Heq. cbn [negb]. rewrite andb_true_r.
    destruct Hor as [-> | ->]; rewrite Z.eqb_refl; [reflexivity | apply orb_true_r]. }
  repeat split.
  - unfold CNOT_reg. destruct (Z.eqb_spec inputStart1 inputStart2); cbn [negb]; [reflexivity|].
    apply for_op_ok. intros k q' _. apply CNOT_distinct. lia.
  - unfold XOR_reg.
    destruct (negb ((inputStart1 =? inputStart2) && (inputStart2 =? outputStart)));
      [|reflexivity].
    apply for_op_ok. intros k q' _. apply Ok_of_not_thrown, XOR_throws.
  - unfold AND_reg. destruct ((inputStart1 =? inputStart2) && (inputStart2 =? outputStart)) eqn:Heq;
      cbn [negb].
    + rewrite (Hall _ _ _ Heq). now rewrite andb_false_r.
    + rewrite (logic_reg_throws AND) by (intros; apply AND_throws). now rewrite Hcount.
  - unfold OR_reg. destruct ((inputStart1 =? inputStart2) && (inputStart2 =? outputStart)) eqn:Heq;
      cbn [negb].
    + rewrite (Hall _ _ _ Heq). now rewrite andb_false_r.
    + rewrite (logic_reg_throws OR) by (intros; apply OR_throws). now rewrite Hcount.
  - apply (Hsnd AND); [exact HAND | now left].
  - apply (Hsnd AND); [exact HAND | now right].
  - apply (Hsnd OR); [exact HOR | now left].
  - apply (Hsnd OR); [exact HOR | now right].
Qed.

(** X14: [QFT] never throws: the controlled rotations it applies have a
    control above their target.  On a length of 0 it leaves the register as
    it was, and on a length of 1 it is [H]. *)
Theorem QFT_never_throws (start length : Z) (q : CoherentUnit) :
  fst (QFT start length q) = Ok tt /\
  QFT start 0 q = (Ok tt, q) /\
  QFT start 1 q = (Ok tt, H_gate start q).
Proof.
  split; [|split].
  - unfold QFT. destruct (0 <? length); [|reflexivity].
    apply for_op_ok. intros i q' _. unfold bind, run.
    apply for_op_ok. intros j q'' Hj.
    unfold CRTDyad, CRT, throw, run.
    destruct (Z.eqb_spec (i + j) i); [lia | reflexivity].
  - reflexivity.
  - unfold QFT. cbn [Z.ltb Z.compare].
    replace (start + 1 - start) with 1 by lia.
    change (Z.to_nat 1) with 1%nat. cbn [for_op]. unfold bind, run.
    replace (start + 1 - start - 1) with 0 by lia. reflexivity.
Qed.

End Throws.

(** ** X and Swap on registers *)

Lemma in_range_of_land_ones (x n : Z) : 0 <= n -> Z.land x (Z.ones n) = x -> 0 <= x < 2 ^ n.
Proof.
  intros Hn Hx. rewrite <- Hx. rewrite Z.land_ones by assumption.
  apply Z.mod_pos_bound. apply Z.pow_pos_nonneg; lia.
Qed.

Lemma X_reg_dest `{BitCapInt} (n s l x : Z) :
  0 <= s -> 0 <= l -> s + l <= n -> n <= bitCapIntBits -> 0 <= x < 2 ^ n ->
  Z.lor (Z.land (cap_not x) (Z.shiftl (Z.ones l) s))
        (Z.land x (Z.lxor (Z.ones n) (Z.shiftl (Z.ones l) s)))
  = Z.lxor x (Z.shiftl (Z.ones l) s).
Proof.
  intros Hs Hl Hsl Hn Hx. unfold cap_not, wrap.
  rewrite <- Z.land_ones by lia.
  rewrite <- (small_land_ones x n) by lia.
  Z.bitblast.
Qed.

Lemma flipped_range (n s l x : Z) :
  0 <= s -> 0 <= l -> s + l <= n -> 0 <= x < 2 ^ n ->
  0 <= Z.lxor x (Z.shiftl (Z.ones l) s) < 2 ^ n.
Proof.
  intros Hs Hl Hsl Hx. apply in_range_of_land_ones; [lia|].
  rewrite <- (small_land_ones x n) by lia.
  Z.bitblast.
Qed.

Lemma swapped_as_moved (n s1 s2 l x : Z) :
  0 <= s1 -> 0 <= s2 -> 0 <= l -> s1 + l <= n -> s2 + l <= n ->
  s1 + l <= s2 \/ s2 + l <= s1 ->
  swapped n s1 s2 l x
  = moved n s2 l (reg s1 l x) (moved n s1 l (reg s2 l x) x).
Proof.
  intros Hs1 Hs2 Hl H1 H2 Hd. unfold swapped, moved.
  pose proof (reg_range s1 l x Hs1 Hl) as Ha.
  pose proof (reg_range s2 l x Hs2 Hl) as Hb.
  generalize dependent (reg s1 l x). generalize dependent (reg s2 l x).
  intros b Hb a Ha.
  rewrite <- (small_land_ones a l) by assumption.
  rewrite <- (small_land_ones b l) by assumption.
  Z.bitblast.
Qed.

Lemma reg_moved_other (n s1 s2 l a y : Z) :
  0 <= s1 -> 0 <= s2 -> 0 <= l -> s1 + l <= n -> s2 + l <= n ->
  s1 + l <= s2 \/ s2 + l <= s1 ->
  0 <= a < 2 ^ l ->
  reg s1 l (moved n s2 l a y) = reg s1 l y.
Proof.
  intros Hs1 Hs2 Hl H1 H2 Hd Ha. unfold reg, moved.
  rewrite !reg_shiftr_land by assumption.
  rewrite <- (small_land_ones a l) by assumption.
  Z.bitblast.
Qed.

Lemma moved_comm (n s1 s2 l a b z : Z) :
  0 <= s1 -> 0 <= s2 -> 0 <= l -> s1 + l <= n -> s2 + l <= n ->
  s1 + l <= s2 \/ s2 + l <= s1 ->
  0 <= a < 2 ^ l -> 0 <= b < 2 ^ l ->
  moved n s1 l a (moved n s2 l b z) = moved n s2 l b (moved n s1 l a z).
Proof.
  intros Hs1 Hs2 Hl H1 H2 Hd Ha Hb. unfold moved.
  rewrite <- (small_land_ones a l) by assumption.
  rewrite <- (small_land_ones b l) by assumption.
  Z.bitblast.
Qed.

Lemma swapped_range (n s1 s2 l x : Z) :
  0 <= s1 -> 0 <= s2 -> 0 <= l -> s1 + l <= n -> s2 + l <= n ->
  s1 + l <= s2 \/ s2 + l <= s1 ->
  0 <= x < 2 ^ n -> 0 <= swapped n s1 s2 l x < 2 ^ n.
Proof.
  intros Hs1 Hs2 Hl H1 H2 Hd Hx. rewrite swapped_as_moved by assumption.
  apply moved_range; try lia; [apply reg_range; lia|].
  apply moved_range; try lia. apply reg_range; lia.
Qed.

Lemma reg_swapped (n s1 s2 l x : Z) :
  0 <= s1 -> 0 <= s2 -> 0 <= l -> s1 + l <= n -> s2 + l <= n ->
  s1 + l <= s2 \/ s2 + l <= s1 ->
  reg s1 l (swapped n s1 s2 l x) = reg s2 l x /\
  reg s2 l (swapped n s1 s2 l x) = reg s1 l x.
Proof.
  intros Hs1 Hs2 Hl H1 H2 Hd. rewrite swapped_as_moved by assumption.
  pose proof (reg_range s1 l x Hs1 Hl) as Ha.
  pose proof (reg_range s2 l x Hs2 Hl) as Hb.
  split.
  - rewrite reg_moved_other by assumption. apply reg_moved; lia.
  - apply reg_moved; lia.
Qed.

Lemma swapped_swapped (n s1 s2 l x : Z) :
  0 <= s1 -> 0 <= s2 -> 0 <= l -> s1 + l <= n -> s2 + l <= n ->
  s1 + l <= s2 \/ s2 + l <= s1 ->
  0 <= x < 2 ^ n -> swapped n s1 s2 l (swapped n s1 s2 l x) = x.
Proof.
  intros Hs1 Hs2 Hl H1 H2 Hd Hx.
  pose proof (reg_range s1 l x Hs1 Hl) as Ha.
  pose proof (reg_range s2 l x Hs2 Hl) as Hb.
  destruct (reg_swapped n s1 s2 l x Hs1 Hs2 Hl H1 H2 Hd) as [Hr1 Hr2].
  rewrite (swapped_as_moved n s1 s2 l (swapped n s1 s2 l x)) by assumption.
  rewrite Hr1, Hr2. rewrite swapped_as_moved by assumption.
  rewrite (moved_comm n s1 s2 l (reg s1 l x) (reg s1 l x)) by assumption.
  rewrite (moved_moved n s1 l (reg s2 l x) (reg s1 l x)) by lia.
  rewrite (moved_reg n s1 l x) by lia.
  rewrite (moved_moved n s2 l (reg s1 l x) (reg s2 l x)) by lia.
  apply moved_reg; lia.
Qed.

Lemma swapped_testbit_outside (n s1 s2 l x j : Z) :
  0 <= s1 -> 0 <= s2 -> 0 <= l -> s1 + l <= n -> s2 + l <= n ->
  s1 + l <= s2 \/ s2 + l <= s1 ->
  0 <= x < 2 ^ n ->
  ~ (s1 <= j < s1 + l) -> ~ (s2 <= j < s2 + l) ->
  Z.testbit (swapped n s1 s2 l x) j = Z.testbit x j.
Proof.
  intros Hs1 Hs2 Hl H1 H2 Hd Hx Hj1 Hj2. rewrite swapped_as_moved by assumption.
  pose proof (reg_range s1 l x Hs1 Hl) as Ha.
  pose proof (reg_range s2 l x Hs2 Hl) as Hb.
  rewrite moved_testbit_outside; try lia.
  - apply moved_testbit_outside; lia.
  - apply moved_range; lia.
Qed.

Lemma scatter_round_trip (f g : Z -> Z) (src : list Complex16) (n : Z) :
  (forall i, 0 <= i < n -> 0 <= f i < n) ->
  (forall i, 0 <= i < n -> 0 <= g i < n) ->
  (forall i, 0 <= i < n -> g (f i) = i) ->
  (forall i, 0 <= i < n -> f (g i) = i) ->
  length src = Z.to_nat n ->
  fold_left (fun ns i =>
     set_at ns (g i)
       (at_ (fold_left (fun ns i => set_at ns (f i) (at_ src i)) (seqZ 0 n) (new_zeroed n)) i))
    (seqZ 0 n) (new_zeroed n) = src.
Proof.
  intros Hf Hg Hgf Hfg Hlen.
  destruct (scatter_spec f g src n Hf Hgf) as [Hlen1 Hat1].
  set (mid := fold_left (fun ns i => set_at ns (f i) (at_ src i)) (seqZ 0 n) (new_zeroed n)) in *.
  destruct (scatter_spec g f mid n Hg Hfg) as [Hlen2 Hat2].
  apply list_eq_at; [congruence|].
  intros i Hi. rewrite Hlen2 in Hi.
  assert (Hi' : 0 <= i < n) by lia.
  rewrite <- (Hgf i Hi') at 1. rewrite Hat2 by auto. apply Hat1. assumption.
Qed.

Section RegisterGates.
Context `{BitCapInt}.
Hypothesis Hbits : 32 <= bitCapIntBits.

Lemma ones_shiftl_1 (l : Z) : 0 <= l -> Z.shiftl 1 l - 1 = Z.ones l.
Proof. intros Hl. rewrite shiftl_1_pow2, Z.ones_equiv by assumption. lia. Qed.

Lemma X_reg_stateVec (start length : Z) (q : CoherentUnit) :
  well_formed q -> 0 <= start -> 0 <= length -> length <> 1 ->
  start + length <= qubitCount q ->
  X_reg start length q =
  with_stateVec
    (fold_left (fun ns lcv =>
       set_at ns (Z.lxor lcv (Z.shiftl (Z.ones length) start)) (at_ (stateVec q) lcv))
       (seqZ 0 (maxQPower q)) (new_zeroed (maxQPower q))) q.
Proof.
  intros (Hn & Hpow & Hlen) Hs Hl Hl1 Hsl. unfold X_reg.
  destruct (Z.eqb_spec length 1); [contradiction|].
  unfold ResetStateVec. f_equal. rewrite par_for_fold.
  apply fold_left_ext_seqZ. intros ns lcv Hlcv. f_equal.
  rewrite !ones_shiftl_1 by lia.
  apply X_reg_dest with (n := qubitCount q); lia.
Qed.

(** X15: [X] on a register of a length other than 1 that lies inside the
    state moves the amplitude of every basis index to the index with the
    bits of the register inverted, and applied twice gives back the
    register. *)
Theorem X_reg_inverts_register (start length : Z) (q : CoherentUnit) :
  well_formed q -> 0 <= start -> 0 <= length -> length <> 1 ->
  start + length <= qubitCount q ->
  (forall lcv, 0 <= lcv < maxQPower q ->
     at_ (stateVec (X_reg start length q)) (Z.lxor lcv (Z.shiftl (Z.ones length) start))
     = at_ (stateVec q) lcv) /\
  X_reg start length (X_reg start length q) = q.
Proof.
  intros Hwf Hs Hl Hl1 Hsl. pose proof Hwf as (Hn & Hpow & Hlen).
  set (f := fun lcv => Z.lxor lcv (Z.shiftl (Z.ones length) start)).
  assert (Hr : forall i, 0 <= i < maxQPower q -> 0 <= f i < maxQPower q).
  { intros i Hi. rewrite Hpow in *. apply flipped_range; lia. }
  assert (Hff : forall i, 0 <= i < maxQPower q -> f (f i) = i).
  { intros i _. unfold f. rewrite Z.lxor_assoc, Z.lxor_nilpotent. apply Z.lxor_0_r. }
  rewrite (X_reg_stateVec start length q Hwf Hs Hl Hl1 Hsl).
  destruct (scatter_spec f f (stateVec q) (maxQPower q) Hr Hff) as [Hlen' Hat].
  split; [exact Hat|].
  rewrite X_reg_stateVec;
    [| apply well_formed_with_stateVec; assumption | assumption..].
  cbn [stateVec maxQPower qubitCount with_stateVec]. rewrite with_stateVec_twice.
  pose proof (scatter_round_trip f f (stateVec q) (maxQPower q) Hr Hr Hff Hff Hlen) as Hrt.
  subst f. cbv beta in Hrt. rewrite Hrt. apply with_stateVec_same.
Qed.

Lemma Swap_reg_stateVec (start1 start2 length : Z) (q : CoherentUnit) :
  well_formed q -> 0 <= start1 -> 0 <= start2 -> 0 <= length -> length <> 1 ->
  start1 + length <= qubitCount q -> start2 + length <= qubitCount q ->
  start1 + length <= start2 \/ start2 + length <= start1 ->
  Swap_reg start1 start2 length q =
  with_stateVec
    (fold_left (fun ns lcv =>
       set_at ns (swapped (qubitCount q) start1 start2 length lcv) (at_ (stateVec q) lcv))
       (seqZ 0 (maxQPower q)) (new_zeroed (maxQPower q))) q.
Proof.
  intros (Hn & Hpow & Hlen) Hs1 Hs2 Hl Hl1 H1 H2 Hd. unfold Swap_reg.
  destruct (Z.eqb_spec length 1); [contradiction|].
  assert (Hdist : ((if start1 - start2 <? 0 then (start1 - start2) * -1 else start1 - start2)
                   <? length) = false).
  { destruct (Z.ltb_spec (start1 - start2) 0); apply Z.ltb_ge; lia. }
  rewrite Hdist.
  unfold ResetStateVec. f_equal. rewrite par_for_fold.
  apply fold_left_ext_seqZ. intros ns lcv Hlcv. f_equal.
  rewrite !ones_shiftl_1 by lia.
  fold (reg start1 length lcv). fold (reg start2 length lcv).
  unfold swapped.
  pose proof (reg_range start1 length lcv Hs1 Hl) as Ha.
  pose proof (reg_range start2 length lcv Hs2 Hl) as Hb.
  pose proof (pow2_le_30 (qubitCount q) ltac:(lia)) as Hp.
  assert (Hmax : cap_sub (maxQPower q) 1 = Z.ones (qubitCount q)).
  { unfold cap_sub. rewrite (wrap_small Hbits) by lia. rewrite Z.ones_equiv. lia. }
  rewrite Hmax. unfold cap_shl.
  rewrite (wrap_small Hbits (Z.shiftl (reg start1 length lcv) start2))
    by (pose proof (shiftl_small (reg start1 length lcv) start2 length); lia).
  rewrite (wrap_small Hbits (Z.shiftl (reg start2 length lcv) start1))
    by (pose proof (shiftl_small (reg start2 length lcv) start1 length); lia).
  reflexivity.
Qed.

(** X16: [Swap] on two registers of a length other than 1 that lie inside
    the state and do not overlap moves the amplitude of every basis index to
    the index with the values of the two registers exchanged and the other
    bits the same, and applied twice gives back the register. *)
Theorem Swap_reg_exchanges_registers (start1 start2 length : Z) (q : CoherentUnit) :
  well_formed q -> 0 <= start1 -> 0 <= start2 -> 0 <= length -> length <> 1 ->
  start1 + length <= qubitCount q -> start2 + length <= qubitCount q ->
  start1 + length <= start2 \/ start2 + length <= start1 ->
  (forall lcv, 0 <= lcv < maxQPower q ->
     exists dest, 0 <= dest < maxQPower q /\
       at_ (stateVec (Swap_reg start1 start2 length q)) dest = at_ (stateVec q) lcv /\
       register_value start1 length dest = register_value start2 length lcv /\
       register_value start2 length dest = register_value start1 length lcv /\
       forall j, ~ (start1 <= j < start1 + length) -> ~ (start2 <= j < start2 + length) ->
                 Z.testbit dest j = Z.testbit lcv j) /\
  Swap_reg start1 start2 length (Swap_reg start1 start2 length q) = q.
Proof.
  intros Hwf Hs1 Hs2 Hl Hl1 H1 H2 Hd. pose proof Hwf as (Hn & Hpow & Hlen).
  set (f := swapped (qubitCount q) start1 start2 length).
  assert (Hr : forall i, 0 <= i < maxQPower q -> 0 <= f i < maxQPower q).
  { intros i Hi. rewrite Hpow in *. apply swapped_range; lia. }
  assert (Hff : forall i, 0 <= i < maxQPower q -> f (f i) = i).
  { intros i Hi. rewrite Hpow in *. apply swapped_swapped; lia. }
  rewrite (Swap_reg_stateVec start1 start2 length q Hwf Hs1 Hs2 Hl Hl1 H1 H2 Hd).
  destruct (scatter_spec f f (stateVec q) (maxQPower q) Hr Hff) as [Hlen' Hat].
  split.
  - intros lcv Hlcv. exists (f lcv). split; [auto|]. split; [apply Hat; assumption|].
    rewrite <- !register_value_reg by assumption.
    destruct (reg_swapped (qubitCount q) start1 start2 length lcv Hs1 Hs2 Hl H1 H2 Hd)
      as [Hr1 Hr2].
    split; [exact Hr1|]. split; [exact Hr2|].
    intros j Hj1 Hj2. rewrite Hpow in Hlcv. apply swapped_testbit_outside; lia.
  - rewrite Swap_reg_stateVec;
      [| apply well_formed_with_stateVec; assumption | assumption..].
    cbn [stateVec maxQPower qubitCount with_stateVec]. rewrite with_stateVec_twice.
    pose proof (scatter_round_trip f f (stateVec q) (maxQPower q) Hr Hr Hff Hff Hlen) as Hrt.
    subst f. cbv beta in Hrt. rewrite Hrt. apply with_stateVec_same.
Qed.

End RegisterGates.

(** ** The loops that skip indices *)

Lemma for_loop_any (P : Z -> bool) (count : nat) :
  forall (i : Z) (u : bool),
    for_loop count i (fun k unordered => unordered || P k) u = true <->
    u = true \/ exists k, i <= k < i + Z.of_nat count /\ P k = true.
Proof.
  induction count as [|count IH]; intros i u.
  - cbn [for_loop]. split; [tauto | intros [Hu | (k & Hk & _)]; [assumption | lia]].
  - cbn [for_loop]. rewrite IH, orb_true_iff. split.
    + intros [[Hu | HP] | (k & Hk & HP)]; [tauto | right; exists i; split; [lia | assumption]|].
      right. exists k. split; [lia | assumption].
    + intros [Hu | (k & Hk & HP)]; [tauto|].
      destruct (Z.eq_dec k i) as [-> | Hne]; [tauto|].
      right. exists k. split; [lia | assumption].
Qed.

Lemma worker_log_app (count : nat) (end_ : Z) (inc : Z -> Z) :
  forall (i : Z) (acc : list Z),
    par_for_worker count i end_ inc (fun k l => l ++ [k]) acc
    = acc ++ par_for_worker count i end_ inc (fun k l => l ++ [k]) [].
Proof.
  induction count as [|count IH]; intros i acc.
  - cbn. now rewrite app_nil_r.
  - cbn [par_for_worker]. cbv zeta. destruct (end_ <=? inc i).
    + now rewrite app_nil_r.
    + rewrite (IH (i + 1) (acc ++ [inc i])), (IH (i + 1) ([] ++ [inc i])).
      cbn [app]. now rewrite <- app_assoc.
Qed.

Lemma worker_fold_log {St : Type} (fn : Z -> St -> St) (count : nat) (end_ : Z) (inc : Z -> Z) :
  forall (i : Z) (s : St),
    par_for_worker count i end_ inc fn s
    = fold_left (fun s k => fn k s)
        (par_for_worker count i end_ inc (fun k l => l ++ [k]) []) s.
Proof.
  induction count as [|count IH]; intros i s.
  - reflexivity.
  - cbn [par_for_worker]. cbv zeta. destruct (end_ <=? inc i); [reflexivity|].
    rewrite worker_log_app. cbn [app fold_left]. apply IH.
Qed.

Lemma worker_log_visits (count : nat) (end_ : Z) (inc : Z -> Z) :
  forall (i : Z),
    Forall (fun k => k < end_ /\ exists c, i <= c < i + Z.of_nat count /\ k = inc c)
           (par_for_worker count i end_ inc (fun k l => l ++ [k]) []).
Proof.
  induction count as [|count IH]; intros i.
  - constructor.
  - cbn [par_for_worker]. cbv zeta. destruct (Z.leb_spec end_ (inc i)); [constructor|].
    rewrite worker_log_app. cbn [app]. constructor.
    + split; [assumption|]. exists i. split; [lia | reflexivity].
    + apply (Forall_impl _ _ _ (IH (i + 1))). intros k [Hk (c & Hc & ->)].
      split; [assumption|]. exists c. split; [lia | reflexivity].
Qed.




Section Masks.
Context `{BitCapInt}.

(** X17: [par_for_mask] throws "Too many masks" exactly when there are more
    masks than qubits; otherwise it throws "Masks must be ordered by size"
    exactly when some mask is below the one before it (equal neighbours
    pass); it does not throw exactly when neither holds. *)
Theorem par_for_mask_throws_iff {St : Type} (qubitCount begin end_ : Z) (maskArray : list Z)
    (maskLen : Z) (fn : Z -> St -> St) (s : St) :
  (par_for_mask qubitCount begin end_ maskArray maskLen fn s
     = InvalidArgument "Too many masks" <-> qubitCount < maskLen) /\
  (par_for_mask qubitCount begin end_ maskArray maskLen fn s
     = InvalidArgument "Masks must be ordered by size" <->
   maskLen <= qubitCount /\
   exists i, 1 <= i < maskLen /\ at_Z maskArray i < at_Z maskArray (i - 1)) /\
  (is_InvalidArgument (par_for_mask qubitCount begin end_ maskArray maskLen fn s) = false <->
   maskLen <= qubitCount /\
   forall i, 1 <= i < maskLen -> at_Z maskArray (i - 1) <= at_Z maskArray i).
Proof.
  unfold par_for_mask.
  pose proof (for_loop_any (fun i => at_Z maskArray i <? at_Z maskArray (i - 1))
                (Z.to_nat (maskLen - 1)) 1 false) as Hloop.
  destruct (Z.ltb_spec qubitCount maskLen) as [Hmany | Hfew].
  - repeat split; try tauto; try lia; try discriminate; intros [? _]; lia.
  - destruct (for_loop _ 1 _ false) eqn:Hcheck.
    + destruct (proj1 Hloop eq_refl) as [Hf | (k & Hk & Hlt)]; [discriminate|].
      apply Z.ltb_lt in Hlt.
      repeat split; try discriminate; try lia.
      * exists k. split; [lia | assumption].
      * intros [_ Hall]. specialize (Hall k ltac:(lia)). lia.
    + repeat split; try discriminate; try lia.
      * intros [_ (i & Hi & Hlt)].
        enough (false = true) by discriminate.
        apply Hloop. right. exists i.
        split; [lia | now apply Z.ltb_lt].
      * intros i Hi. destruct (Z.leb_spec (at_Z maskArray (i - 1)) (at_Z maskArray i)); [assumption|].
        enough (false = true) by discriminate.
        apply Hloop. right. exists i.
        split; [lia | now apply Z.ltb_lt].
Qed.

End Masks.

(** ** The increments of the loops that skip indices *)

Section MaskBits.
Context `{BitCapInt}.

Lemma wrap_land (z : Z) : 0 <= bitCapIntBits -> wrap z = Z.land z (Z.ones bitCapIntBits).
Proof. intros Hw. unfold wrap. now rewrite Z.land_ones. Qed.

Lemma low_mask_ones (p : Z) : 0 <= p < bitCapIntBits -> cap_sub (2 ^ p) 1 = Z.ones p.
Proof.
  intros Hp. unfold cap_sub, wrap. rewrite Z.ones_equiv.
  apply Z.mod_small.
  assert (2 ^ p < 2 ^ bitCapIntBits) by (apply Z.pow_lt_mono_r; lia).
  assert (0 < 2 ^ p) by (apply Z.pow_pos_nonneg; lia). lia.
Qed.

Lemma low_plus_mask_ones (p : Z) :
  0 <= p < bitCapIntBits -> cap_add (Z.ones p) (2 ^ p) = Z.ones (p + 1).
Proof.
  intros Hp. unfold cap_add, wrap. rewrite !Z.ones_equiv.
  assert (2 ^ (p + 1) <= 2 ^ bitCapIntBits) by (apply Z.pow_le_mono_r; lia).
  rewrite Z.pow_add_r in * by lia. change (2 ^ 1) with 2 in *.
  assert (0 < 2 ^ p) by (apply Z.pow_pos_nonneg; lia).
  replace (Z.pred (2 ^ p) + 2 ^ p) with (Z.pred (2 ^ p * 2)) by lia.
  apply Z.mod_small. lia.
Qed.

(** The increment of [par_for_skip]: bits below [p] stay, [maskWidth] zero
    bits follow, the bits from [p] on move up by [maskWidth]. *)
Lemma skip_inc_bits (p w i j : Z) :
  0 <= p -> 1 <= w -> p + w <= bitCapIntBits -> 0 <= j ->
  Z.testbit
    (Z.lor (Z.land (cap_shl i w)
              (cap_shl (cap_not (cap_add (cap_sub (2 ^ p) 1) (2 ^ p))) (w - 1)))
           (Z.land i (cap_sub (2 ^ p) 1))) j
  = if j <? p then Z.testbit i j
    else if j <? p + w then false
    else (j <? bitCapIntBits) && Z.testbit i (j - w).
Proof.
  intros Hp Hw Hpw Hj.
  rewrite low_mask_ones, low_plus_mask_ones by lia.
  unfold cap_shl, cap_not. rewrite !wrap_land by lia.
  destruct (Z.ltb_spec j p); [|destruct (Z.ltb_spec j (p + w)); [|destruct (Z.ltb_spec j bitCapIntBits)]];
    Z.bitblast_core.
Qed.








(** X19: with the mask [2^p], [par_for_skip] hands to the body indices below
    [end] that are a counter [c] of the loop with [maskWidth] zero bits
    inserted at position [p]: the bits below [p] are those of [c], the bits
    [p .. p + maskWidth - 1] are clear, and the bits above are those of [c]
    moved up by [maskWidth]. *)
Theorem par_for_skip_inserts_zero_bits {St : Type} (begin end_ p maskWidth : Z)
    (fn : Z -> St -> St) (s : St) :
  0 <= p -> 1 <= maskWidth -> p + maskWidth < bitCapIntBits ->
  par_for_skip begin end_ (2 ^ p) maskWidth fn s
    = fold_left (fun s i => fn i s)
        (par_for_skip begin end_ (2 ^ p) maskWidth (fun i l => l ++ [i]) []) s /\
  Forall (fun i => i < end_ /\
            exists c, begin <= c < end_ /\
              forall j, 0 <= j ->
                Z.testbit i j
                = if j <? p then Z.testbit c j
                  else if j <? p + maskWidth then false
                  else (j <? bitCapIntBits) && Z.testbit c (j - maskWidth))
         (par_for_skip begin end_ (2 ^ p) maskWidth (fun i l => l ++ [i]) []).
Proof.
  intros Hp Hw Hpw. unfold par_for_skip, par_for_inc. cbv zeta. split.
  - apply worker_fold_log.
  - match goal with
    | |- Forall _ (par_for_worker _ _ _ ?inc _ _) =>
        apply (Forall_impl _ _ _ (worker_log_visits (Z.to_nat (end_ - begin)) end_ inc begin))
    end.
    intros k [Hk (c & Hc & ->)]. split; [assumption|].
    exists c. split; [lia|]. intros j Hj. apply skip_inc_bits; lia.
Qed.

End MaskBits.

(** ** Construction, basis states and raw copies *)

Lemma fill_indexed {A : Type} (v : Z -> A) (l0 : list A) :
  forall k : nat, (k <= length l0)%nat ->
    fold_left (fun l i => <[Z.to_nat i := v i]> l) (seqZ 0 (Z.of_nat k)) l0
    = ((fun i : nat => v (Z.of_nat i)) <$> seq 0 k) ++ drop k l0.
Proof.
  induction k as [|k IH]; intros Hk.
  - cbn. now rewrite drop_0.
  - rewrite seqZ_S, fold_left_app, IH by lia. cbn [fold_left]. rewrite Z.add_0_l, Nat2Z.id.
    destruct (lookup_lt_is_Some_2 l0 k ltac:(lia)) as [x Hx].
    rewrite insert_app_r_alt by (rewrite length_fmap, length_seq; lia).
    rewrite length_fmap, length_seq, Nat.sub_diag.
    rewrite (drop_S l0 x k Hx). cbn [insert list_insert].
    rewrite seq_S, fmap_app. cbn. now rewrite <- app_assoc.
Qed.

Lemma fill_all {A : Type} (v : Z -> A) (l0 : list A) (n : Z) :
  0 <= n -> length l0 = Z.to_nat n ->
  for_loop (Z.to_nat n) 0 (fun i l => <[Z.to_nat i := v i]> l) l0
  = (fun i : nat => v (Z.of_nat i)) <$> seq 0 (Z.to_nat n).
Proof.
  intros Hn Hlen. rewrite for_loop_fold.
  rewrite (fill_indexed v l0 (Z.to_nat n)) by lia.
  rewrite <- Hlen, drop_all. apply app_nil_r.
Qed.

Lemma at_new_zeroed (n j : Z) : at_ (new_zeroed n) j = Czero.
Proof.
  unfold at_, new_zeroed. destruct (replicate _ _ !! _) as [a|] eqn:E; [|reflexivity].
  apply lookup_replicate in E as [-> _]. reflexivity.
Qed.

Lemma norm_unit (angle : R) : norm (mkComplex16 (cos angle) (sin angle)) = 1%R.
Proof.
  unfold norm. cbn [real imag]. pose proof (sin2_cos2 angle) as Hsc.
  unfold Rsqr in Hsc. lra.
Qed.

Lemma copy_n_all (input output : list Complex16) (n : Z) :
  0 <= n -> length input = Z.to_nat n -> length output = Z.to_nat n ->
  copy_n n input output = input.
Proof.
  intros Hn Hin Hout. unfold copy_n, set_at.
  rewrite (fill_all (fun i => at_ input i) output n Hn Hout).
  apply list_eq. intros i. rewrite list_lookup_fmap.
  destruct (input !! i) as [a|] eqn:Ha.
  - pose proof (lookup_lt_Some _ _ _ Ha) as Hlt.
    rewrite lookup_seq_lt by lia. cbn. unfold at_. now rewrite Nat2Z.id, Ha.
  - pose proof (lookup_ge_None_1 _ _ Ha) as Hge.
    rewrite lookup_seq_ge by lia. reflexivity.
Qed.

(** X20: [CloneRawState] writes the normalized state into the array, and
    [SetQuantumState] of that array puts the state back into a register of
    the same size, whatever its buffer held. *)
Theorem CloneRawState_SetQuantumState_round_trip
    (output buffer : list Complex16) (q : CoherentUnit) :
  buffer_sized q ->
  length output = Z.to_nat (maxQPower q) -> length buffer = Z.to_nat (maxQPower q) ->
  fst (CloneRawState output q) = stateVec (normalize_if_needed q) /\
  snd (CloneRawState output q) = normalize_if_needed q /\
  SetQuantumState (fst (CloneRawState output q))
    (with_stateVec buffer (snd (CloneRawState output q)))
  = snd (CloneRawState output q).
Proof.
  intros Hq Hout Hbuf.
  pose proof (normalize_if_needed_sized q Hq) as [Hn0 Hlen0].
  pose proof (normalize_if_needed_size q) as [_ Hmax].
  unfold CloneRawState. cbv zeta. cbn [fst snd].
  rewrite (copy_n_all (stateVec (normalize_if_needed q)) output) by first [assumption | rewrite Hmax; assumption].
  split; [reflexivity|]. split; [reflexivity|].
  unfold SetQuantumState. cbn [maxQPower stateVec with_stateVec].
  rewrite copy_n_all by first [assumption | rewrite Hmax; assumption].
  rewrite with_stateVec_twice. apply with_stateVec_same.
Qed.

(** X21: the array that [ProbArray] fills holds the squared magnitude of
    every amplitude of the normalized state: its entry [i] is what [ProbAll]
    returns for [i], and both leave the same register. *)
Theorem ProbArray_agrees_with_ProbAll (q : CoherentUnit) :
  buffer_sized q ->
  fst (ProbArray q) = norm <$> stateVec (normalize_if_needed q) /\
  forall i, 0 <= i < maxQPower q ->
    at_R (fst (ProbArray q)) i = fst (ProbAll i q) /\
    snd (ProbArray q) = snd (ProbAll i q).
Proof.
  intros Hq.
  pose proof (normalize_if_needed_sized q Hq) as [Hn0 Hlen0].
  pose proof (normalize_if_needed_size q) as [_ Hmax].
  assert (Harr : fst (ProbArray q) = norm <$> stateVec (normalize_if_needed q)).
  { unfold ProbArray. cbv zeta. cbn [fst].
    rewrite (fill_all (fun lcv => norm (at_ (stateVec (normalize_if_needed q)) lcv)))
      by (rewrite ?length_replicate; lia).
    apply list_eq. intros i. rewrite !list_lookup_fmap.
    destruct (stateVec (normalize_if_needed q) !! i) as [a|] eqn:Ha.
    - pose proof (lookup_lt_Some _ _ _ Ha) as Hlt.
      rewrite lookup_seq_lt by lia. cbn. unfold at_. now rewrite Nat2Z.id, Ha.
    - pose proof (lookup_ge_None_1 _ _ Ha) as Hge.
      rewrite lookup_seq_ge by lia. reflexivity. }
  split; [exact Harr|]. intros i Hi. split; [|reflexivity].
  rewrite Harr. unfold ProbAll, at_R, at_. cbv zeta. cbn [fst].
  rewrite list_lookup_fmap.
  destruct (lookup_lt_is_Some_2 (stateVec (normalize_if_needed q)) (Z.to_nat i) ltac:(lia))
    as [a Ha].
  now rewrite Ha.
Qed.

Lemma fold_left_ext_sized (f g : list Complex16 -> Z -> list Complex16) (n : Z) (xs : list Z) :
  (forall l i, length l = Z.to_nat n -> 0 <= i < n -> f l i = g l i) ->
  (forall l i, length (g l i) = length l) ->
  Forall (fun i => 0 <= i < n) xs ->
  forall s, length s = Z.to_nat n -> fold_left f xs s = fold_left g xs s.
Proof.
  intros Hfg Hlen. induction xs as [|x xs IH]; intros Hxs s Hs; [reflexivity|].
  apply Forall_cons in Hxs as [Hx Hxs]. cbn [fold_left].
  rewrite (Hfg s x Hs Hx). apply (IH Hxs). now rewrite Hlen.
Qed.

Section Construction.
Context `{BitCapInt}.

(** X22: the constructor throws exactly when asked for more qubits than
    [bitCapInt] has bits, whatever the other arguments.  Otherwise, for up to
    30 qubits, it builds a well-formed register with [runningNorm] 1 whose
    amplitudes are zero except at [initState]: there it puts the phase it was
    given, or, for the phase (-999, -999), a unit phase from one draw of the
    engine. *)
Theorem CoherentUnit_new_basis_state (qBitCount initState : Z) (phaseFac : Complex16)
    (engine : nat -> R) (drawn : nat) :
  (bitCapIntBits < qBitCount ->
     CoherentUnit_new qBitCount initState phaseFac engine drawn
     = InvalidArgument
         "Cannot instantiate a register with greater capacity than native types on emulating system.") /\
  (0 <= qBitCount <= 30 -> 0 <= initState < 2 ^ qBitCount -> qBitCount <= bitCapIntBits ->
   exists q, CoherentUnit_new qBitCount initState phaseFac engine drawn = Ok q /\
     well_formed q /\ qubitCount q = qBitCount /\ runningNorm q = 1%R /\
     (forall lcv, 0 <= lcv -> lcv <> initState -> at_ (stateVec q) lcv = Czero) /\
     if Reqb (real phaseFac) (-999) && Reqb (imag phaseFac) (-999)
     then norm (at_ (stateVec q) initState) = 1%R /\ rand_drawn q = S drawn
     else at_ (stateVec q) initState = phaseFac /\ rand_drawn q = drawn).
Proof.
  unfold CoherentUnit_new. split.
  - intros Hbig. destruct (Z.ltb_spec bitCapIntBits qBitCount); [reflexivity | lia].
  - intros Hn Hinit Hfit. destruct (Z.ltb_spec bitCapIntBits qBitCount); [lia|].
    rewrite shiftl_1_pow2 by lia.
    assert (Hp : 0 < 2 ^ qBitCount) by (apply Z.pow_pos_nonneg; lia).
    assert (Hin : (Z.to_nat initState < length (new_zeroed (2 ^ qBitCount)))%nat)
      by (unfold new_zeroed; rewrite length_replicate; lia).
    destruct (Reqb (real phaseFac) (-999) && Reqb (imag phaseFac) (-999)).
    + cbn [Rand stateVec]. eexists. split; [reflexivity|].
      cbn [qubitCount maxQPower stateVec runningNorm rand_drawn with_stateVec].
      split; [|split; [reflexivity|split; [reflexivity|split]]].
      * repeat split; cbn; try lia.
        unfold set_at, new_zeroed. now rewrite length_insert, length_replicate.
      * intros lcv Hlcv Hne. rewrite at_set_at_ne by lia. apply at_new_zeroed.
      * rewrite at_set_at_eq by (try assumption; lia). split; [apply norm_unit | reflexivity].
    + eexists. split; [reflexivity|].
      cbn [qubitCount maxQPower stateVec runningNorm rand_drawn with_stateVec].
      split; [|split; [reflexivity|split; [reflexivity|split]]].
      * repeat split; cbn; try lia.
        unfold set_at, new_zeroed. now rewrite length_insert, length_replicate.
      * intros lcv Hlcv Hne. rewrite at_set_at_ne by lia. apply at_new_zeroed.
      * rewrite at_set_at_eq by (try assumption; lia). split; reflexivity.
Qed.

(** X23: on a register of more or fewer than one qubit, [SetPermutation]
    consumes one draw and leaves a well-formed register with [runningNorm] 1
    whose amplitudes are zero except for a unit phase at [perm], whatever the
    state was. *)
Theorem SetPermutation_basis_state (perm : Z) (q : CoherentUnit) :
  well_formed q -> qubitCount q <> 1 -> 0 <= perm < maxQPower q ->
  well_formed (SetPermutation perm q) /\
  runningNorm (SetPermutation perm q) = 1%R /\
  norm (at_ (stateVec (SetPermutation perm q)) perm) = 1%R /\
  (forall lcv, 0 <= lcv -> lcv <> perm -> at_ (stateVec (SetPermutation perm q)) lcv = Czero) /\
  rand_drawn (SetPermutation perm q) = S (rand_drawn q).
Proof.
  intros (Hn & Hpow & Hlen) Hn1 Hperm. unfold SetPermutation, SetReg.
  destruct (Z.eqb_spec (qubitCount q) 1); [contradiction|].
  rewrite !Z.eqb_refl. cbn [andb Rand].
  cbn [maxQPower stateVec with_runningNorm with_stateVec qubitCount runningNorm rand_drawn].
  assert (Hp : 0 <= maxQPower q) by lia.
  set (zeros := (fun _ : nat => Czero) <$> seq 0 (Z.to_nat (maxQPower q))).
  assert (Hfill : for_loop (Z.to_nat (maxQPower q)) 0
                    (fun (i : Z) (sv : list Complex16) => set_at sv i Czero) (stateVec q)
                  = zeros)
    by (apply (fill_all (fun _ => Czero)); assumption).
  rewrite Hfill.
  assert (Hzlen : length zeros = Z.to_nat (maxQPower q))
    by (unfold zeros; now rewrite length_fmap, length_seq).
  assert (Hz : forall j, at_ zeros j = Czero).
  { intros j. unfold at_, zeros. rewrite list_lookup_fmap.
    destruct (seq 0 (Z.to_nat (maxQPower q)) !! Z.to_nat j); reflexivity. }
  split; [|split; [reflexivity|split; [|split; [|reflexivity]]]].
  - repeat split; cbn; try lia. unfold set_at. now rewrite length_insert.
  - rewrite at_set_at_eq by lia. apply norm_unit.
  - intros lcv Hlcv Hne. rewrite at_set_at_ne by lia. apply Hz.
Qed.

(** X24: [Cohere] with a vector of one register is [Cohere] with that
    register. *)
Theorem Cohere_vector_of_one (toCopy q : CoherentUnit) :
  Cohere_vector [toCopy] q = (fst (Cohere toCopy q), [snd (Cohere toCopy q)]).
Proof.
  unfold Cohere_vector, Cohere. cbv zeta. cbn [fold_left app fst snd length].
  pose proof (normalize_if_needed_size q) as [Hqn _].
  pose proof (normalize_if_needed_size toCopy) as [Hcn _].
  f_equal. do 2 f_equal. rewrite !par_for_fold.
  set (n := Z.shiftl 1 (qubitCount (normalize_if_needed q)
                        + qubitCount (normalize_if_needed toCopy))).
  rewrite Hqn.
  destruct (Z.le_gt_cases 0 n) as [Hpos | Hneg];
    [|rewrite (seqZ_nil 0 n) by lia; reflexivity].
  apply (fold_left_ext_sized _ _ n).
  - intros l i Hl Hi. cbn [for_loop]. unfold at_Z. cbn [lookup list_lookup default].
    rewrite at_set_at_eq by lia.
    unfold set_at. now rewrite list_insert_insert_eq.
  - intros l i. unfold set_at. now rewrite length_insert.
  - apply Forall_forall. intros i Hi. apply elem_of_seqZ in Hi. lia.
  - unfold new_zeroed. now rewrite length_replicate.
Qed.

End Construction.

(** ** The collapse of MReg *)

Section Collapse.
Context `{BitCapInt}.

Lemma MReg_of_normalized (start length : Z) (q : CoherentUnit) :
  MReg start length q = MReg start length (normalize_if_needed q).
Proof.
  unfold MReg, M.
  rewrite (normalize_if_needed_id (normalize_if_needed q))
    by apply normalize_if_needed_normalized.
  reflexivity.
Qed.

Lemma MReg_on_normalized (start length : Z) (q : CoherentUnit) :
  length <> 1 -> runningNorm q = 1%R ->
  MReg start length q =
  let prob := rand_distribution q (rand_drawn q) in
  let phi := (rand_distribution q (S (rand_drawn q)) * 2 * PI)%R in
  let s := MReg_select (Z.to_nat (maxQPower q)) (maxQPower q) prob
             (MReg_probArray start length q)
             (mkMReg_locals false 0 0 0 (cap_sub (Z.shiftl 1 length) 1) 0) in
  (result_ s,
   UpdateRunningNorm (with_stateVec
     (MReg_collapse (cap_shl (result_ s) start)
        (Cdiv (mkComplex16 (cos phi) (sin phi)) (nrmlzr_ s)) q) (drawn 2 q))).
Proof.
  intros Hl Hn. unfold MReg.
  destruct (Z.eqb_spec length 1); [contradiction|].
  rewrite normalize_if_needed_id by assumption. reflexivity.
Qed.

(** X25: on a length other than 1, [MReg] keeps an amplitude exactly when its
    index has every set bit of the result (shifted to the register), and
    multiplies all that it keeps by one and the same factor; the others it
    zeroes.  The bits of the register that are clear in the result are not
    compared. *)
Theorem MReg_collapse_by_bit_inclusion (start length : Z) (q : CoherentUnit) :
  buffer_sized q -> length <> 1 ->
  exists nrm, forall lcv, 0 <= lcv < maxQPower q ->
    at_ (stateVec (snd (MReg start length q))) lcv
    = if Z.land lcv (cap_shl (fst (MReg start length q)) start)
         =? cap_shl (fst (MReg start length q)) start
      then Cmul nrm (at_ (stateVec (normalize_if_needed q)) lcv)
      else Czero.
Proof.
  intros Hq Hl1.
  pose proof (normalize_if_needed_sized q Hq) as [Hn0 Hlen0].
  pose proof (normalize_if_needed_normalized q) as Hnorm.
  pose proof (normalize_if_needed_size q) as [_ Hmax].
  pose proof (eq_trans (MReg_of_normalized start length q)
                (MReg_on_normalized start length (normalize_if_needed q) Hl1 Hnorm)) as Hr.
  cbv zeta in Hr. rewrite Hr. clear Hr.
  set (q0 := normalize_if_needed q) in *.
  set (s := MReg_select _ _ _ _ _).
  set (nrm := Cdiv _ (nrmlzr_ s)).
  cbn [fst snd stateVec UpdateRunningNorm with_runningNorm with_stateVec].
  unfold MReg_collapse.
  set (ptr := cap_shl (result_ s) start).
  rewrite (par_for_inplace
             (fun lcv a => if Z.land lcv ptr =? ptr then Cmul nrm a else Czero))
    by (try assumption; intros l i x Hx;
        destruct (set_at_lookup l i x Czero Hx) as [Hs1 Hat];
        destruct (set_at_lookup l i x (Cmul nrm x) Hx) as [Hs2 _];
        rewrite Hat; destruct (_ =? ptr); assumption).
  exists nrm. intros lcv Hlcv. rewrite <- Hmax in Hlcv.
  now rewrite (at_imap (fun lcv a => if Z.land lcv ptr =? ptr then Cmul nrm a else Czero))
    by lia.
Qed.

End Collapse.

(** ** The norm under the permutations of the amplitudes *)

Lemma sum_permutation (h : Z -> R) (l l' : list Z) :
  l ≡ₚ l' ->
  forall a : R, fold_left (fun acc k => (acc + h k)%R) l a
                = fold_left (fun acc k => (acc + h k)%R) l' a.
Proof.
  induction 1 as [|x l l' _ IH|x y l|l l' l'' _ IH1 _ IH2]; intros a; cbn [fold_left].
  - reflexivity.
  - apply IH.
  - f_equal. lra.
  - now rewrite IH1.
Qed.

Lemma bijection_permutation (f g : Z -> Z) (n : Z) :
  (forall i, 0 <= i < n -> 0 <= f i < n) ->
  (forall i, 0 <= i < n -> 0 <= g i < n) ->
  (forall i, 0 <= i < n -> g (f i) = i) ->
  (forall i, 0 <= i < n -> f (g i) = i) ->
  f <$> seqZ 0 n ≡ₚ seqZ 0 n.
Proof.
  intros Hf Hg Hgf Hfg. apply NoDup_Permutation.
  - apply NoDup_fmap_2_strong; [|apply NoDup_seqZ].
    intros x y Hx Hy Hxy. apply elem_of_seqZ in Hx, Hy.
    rewrite <- (Hgf x), <- (Hgf y) by lia. now rewrite Hxy.
  - apply NoDup_seqZ.
  - intros x. rewrite list_elem_of_fmap. split.
    + intros (y & -> & Hy). apply elem_of_seqZ in Hy. apply elem_of_seqZ.
      pose proof (Hf y ltac:(lia)). lia.
    + intros Hx. apply elem_of_seqZ in Hx. exists (g x). split.
      * symmetry. apply Hfg. lia.
      * apply elem_of_seqZ. pose proof (Hg x ltac:(lia)). lia.
Qed.

Lemma fold_left_sum_fmap (h : Z -> R) (f : Z -> Z) (l : list Z) :
  forall a : R, fold_left (fun acc k => (acc + h k)%R) (f <$> l) a
                = fold_left (fun acc k => (acc + h (f k))%R) l a.
Proof. induction l as [|x l IH]; intros a; [reflexivity | cbn; apply IH]. Qed.

Lemma permuted_norm (f g : Z -> Z) (src dst : list Complex16) (n : Z) :
  (forall i, 0 <= i < n -> 0 <= f i < n) ->
  (forall i, 0 <= i < n -> 0 <= g i < n) ->
  (forall i, 0 <= i < n -> g (f i) = i) ->
  (forall i, 0 <= i < n -> f (g i) = i) ->
  (forall i, 0 <= i < n -> at_ dst (f i) = at_ src i) ->
  par_norm n dst = par_norm n src.
Proof.
  intros Hf Hg Hgf Hfg Hat. unfold par_norm. f_equal.
  destruct (Z.le_gt_cases 0 n) as [Hn | Hn];
    [|now replace (Z.to_nat n) with 0%nat by lia].
  rewrite !for_loop_fold, Z2Nat.id by assumption.
  rewrite <- (sum_permutation (fun i => norm (at_ dst i)) _ _
                (bijection_permutation f g n Hf Hg Hgf Hfg)).
  rewrite fold_left_sum_fmap.
  apply fold_left_ext_seqZ. intros a i Hi. now rewrite Hat.
Qed.

Section NormKept.
Context `{BitCapInt}.
Hypothesis Hbits : 32 <= bitCapIntBits.

(** X26: [INC] and [DEC] on a register that lies inside the state keep the
    norm: [par_norm] of the state vector is the same after as before, which is
    why they need not update [runningNorm]. *)
Theorem INC_DEC_keep_norm (k start length : Z) (q : CoherentUnit) :
  well_formed q -> 0 <= start -> 0 <= length -> start + length <= qubitCount q ->
  par_norm (maxQPower q) (stateVec (INC k start length q))
    = par_norm (maxQPower q) (stateVec q) /\
  par_norm (maxQPower q) (stateVec (DEC k start length q))
    = par_norm (maxQPower q) (stateVec q) /\
  runningNorm (INC k start length q) = runningNorm q /\
  runningNorm (DEC k start length q) = runningNorm q.
Proof.
  intros Hwf Hs Hl Hsl. pose proof Hwf as (Hn & Hpow & Hlen).
  assert (Hp : 0 < 2 ^ length) by (apply Z.pow_pos_nonneg; lia).
  destruct (INC_shape Hbits k start length q Hwf Hs Hl Hsl) as (svi & Hi & Hli & Hati).
  destruct (DEC_shape Hbits k start length q Hwf Hs Hl Hsl) as (svd & Hd & Hld & Hatd).
  rewrite Hi, Hd. cbn [stateVec runningNorm with_stateVec].
  set (n := qubitCount q) in *.
  set (fI := fun lcv => moved n start length ((reg start length lcv + k) mod 2 ^ length) lcv).
  set (fD := fun lcv => moved n start length ((reg start length lcv - k) mod 2 ^ length) lcv).
  assert (HrI : forall i, 0 <= i < maxQPower q -> 0 <= fI i < maxQPower q).
  { intros i Hr. rewrite Hpow in *. apply moved_range; try lia. apply Z.mod_pos_bound. lia. }
  assert (HrD : forall i, 0 <= i < maxQPower q -> 0 <= fD i < maxQPower q).
  { intros i Hr. rewrite Hpow in *. apply moved_range; try lia. apply Z.mod_pos_bound. lia. }
  assert (HDI : forall i, 0 <= i < maxQPower q -> fD (fI i) = i).
  { intros i Hr. rewrite Hpow in Hr. unfold fD, fI.
    pose proof (reg_range start length i Hs Hl) as Hv.
    rewrite reg_moved, moved_moved by (try apply Z.mod_pos_bound; lia).
    rewrite mod_add_sub_cancel by assumption. apply moved_reg; lia. }
  assert (HID : forall i, 0 <= i < maxQPower q -> fI (fD i) = i).
  { intros i Hr. rewrite Hpow in Hr. apply moved_back; lia. }
  repeat split.
  - apply (permuted_norm fI fD); assumption.
  - apply (permuted_norm fD fI); assumption.
Qed.

(** X27: [X] and [Swap] on registers of a length other than 1 keep the norm
    too. *)
Theorem X_reg_Swap_reg_keep_norm (start start2 length : Z) (q : CoherentUnit) :
  well_formed q -> 0 <= start -> 0 <= start2 -> 0 <= length -> length <> 1 ->
  start + length <= qubitCount q -> start2 + length <= qubitCount q ->
  start + length <= start2 \/ start2 + length <= start ->
  par_norm (maxQPower q) (stateVec (X_reg start length q))
    = par_norm (maxQPower q) (stateVec q) /\
  par_norm (maxQPower q) (stateVec (Swap_reg start start2 length q))
    = par_norm (maxQPower q) (stateVec q).
Proof.
  intros Hwf Hs1 Hs2 Hl Hl1 H1 H2 Hd. pose proof Hwf as (Hn & Hpow & Hlen).
  split.
  - rewrite (X_reg_stateVec Hbits start length q Hwf Hs1 Hl Hl1 H1). cbn [stateVec with_stateVec].
    set (f := fun lcv => Z.lxor lcv (Z.shiftl (Z.ones length) start)).
    assert (Hr : forall i, 0 <= i < maxQPower q -> 0 <= f i < maxQPower q).
    { intros i Hi. rewrite Hpow in *. apply flipped_range; lia. }
    assert (Hff : forall i, 0 <= i < maxQPower q -> f (f i) = i).
    { intros i _. unfold f. rewrite Z.lxor_assoc, Z.lxor_nilpotent. apply Z.lxor_0_r. }
    destruct (scatter_spec f f (stateVec q) (maxQPower q) Hr Hff) as [_ Hat].
    apply (permuted_norm f f); assumption.
  - rewrite (Swap_reg_stateVec Hbits start start2 length q Hwf Hs1 Hs2 Hl Hl1 H1 H2 Hd).
    cbn [stateVec with_stateVec].
    set (f := swapped (qubitCount q) start start2 length).
    assert (Hr : forall i, 0 <= i < maxQPower q -> 0 <= f i < maxQPower q).
    { intros i Hi. rewrite Hpow in *. apply swapped_range; lia. }
    assert (Hff : forall i, 0 <= i < maxQPower q -> f (f i) = i).
    { intros i Hi. rewrite Hpow in *. apply swapped_swapped; lia. }
    destruct (scatter_spec f f (stateVec q) (maxQPower q) Hr Hff) as [_ Hat].
    apply (permuted_norm f f); assumption.
Qed.

End NormKept.

(** ** The templates reverse and rotate *)

Section TemplateProofs.
Context {A : Type}.

Lemma iter_swap_lookup (a : list A) (first last : Z) (i : nat) :
  0 <= first -> first < last -> last < Z.of_nat (length a) ->
  length (Templates.iter_swap a first last) = length a /\
  Templates.iter_swap a first last !! i
  = if Z.of_nat i =? first then a !! Z.to_nat last
    else if Z.of_nat i =? last then a !! Z.to_nat first
    else a !! i.
Proof.
  intros Hf Hfl Hl. unfold Templates.iter_swap.
  destruct (lookup_lt_is_Some_2 a (Z.to_nat first) ltac:(lia)) as [x Hx].
  destruct (lookup_lt_is_Some_2 a (Z.to_nat last) ltac:(lia)) as [y Hy].
  rewrite Hx, Hy. split; [now rewrite !length_insert|].
  destruct (Z.eqb_spec (Z.of_nat i) first) as [Hi | Hi].
  - rewrite list_lookup_insert_ne by lia.
    replace i with (Z.to_nat first) by lia.
    rewrite list_lookup_insert_eq by lia. reflexivity.
  - destruct (Z.eqb_spec (Z.of_nat i) last) as [Hi' | Hi'].
    + replace i with (Z.to_nat last) by lia.
      rewrite list_lookup_insert_eq by (rewrite length_insert; lia). reflexivity.
    + rewrite !list_lookup_insert_ne by lia. reflexivity.
Qed.

Lemma reverse_passes_lookup (passes : nat) :
  forall (a : list A) (first last : Z),
    0 <= first -> last <= Z.of_nat (length a) -> last - first <= 2 * Z.of_nat passes ->
    length (Templates.reverse_passes passes a first last 1) = length a /\
    forall i : nat,
      Templates.reverse_passes passes a first last 1 !! i
      = if (first <=? Z.of_nat i) && (Z.of_nat i <? last)
        then a !! Z.to_nat (first + last - 1 - Z.of_nat i)
        else a !! i.
Proof.
  induction passes as [|passes IH]; intros a first last Hf Hl Hp.
  - cbn [Templates.reverse_passes]. split; [reflexivity|]. intros i.
    destruct (Z.leb_spec first (Z.of_nat i)), (Z.ltb_spec (Z.of_nat i) last);
      cbn [andb]; try reflexivity; lia.
  - cbn [Templates.reverse_passes].
    destruct (Z.ltb_spec first last) as [Hfl | Hfl]; cbn [andb];
      [destruct (Z.ltb_spec first (last - 1)) as [Hfl1 | Hfl1]|].
    + cbv zeta.
      assert (Hswap : forall i, _) by
        (intros i; exact (iter_swap_lookup a first (last - 1) i Hf Hfl1 ltac:(lia))).
      destruct (Hswap 0%nat) as [Hlen _].
      destruct (IH (Templates.iter_swap a first (last - 1)) (first + 1) (last - 1)
                  ltac:(lia) ltac:(lia) ltac:(lia)) as [Hlen' Hat].
      split; [congruence|]. intros i. rewrite Hat.
      destruct (Hswap i) as [_ Hi].
      destruct (Hswap (Z.to_nat (first + 1 + (last - 1) - 1 - Z.of_nat i))) as [_ Hj].
      destruct (Z.leb_spec (first + 1) (Z.of_nat i)), (Z.ltb_spec (Z.of_nat i) (last - 1)),
        (Z.leb_spec first (Z.of_nat i)), (Z.ltb_spec (Z.of_nat i) last);
        cbn [andb]; try lia; rewrite ?Hj, ?Hi;
        repeat match goal with
               | |- context [?x =? ?y] => destruct (Z.eqb_spec x y)
               end; try lia; try reflexivity; f_equal; lia.
    + split; [reflexivity|]. intros i.
      destruct (Z.leb_spec first (Z.of_nat i)), (Z.ltb_spec (Z.of_nat i) last);
        cbn [andb]; try reflexivity. f_equal. lia.
    + split; [reflexivity|]. intros i.
      destruct (Z.leb_spec first (Z.of_nat i)), (Z.ltb_spec (Z.of_nat i) last);
        cbn [andb]; try reflexivity; lia.
Qed.

Lemma reverse_lookup (a : list A) (first last : Z) :
  0 <= first -> last <= Z.of_nat (length a) ->
  length (Templates.reverse a first last 1) = length a /\
  forall i : nat,
    Templates.reverse a first last 1 !! i
    = if (first <=? Z.of_nat i) && (Z.of_nat i <? last)
      then a !! Z.to_nat (first + last - 1 - Z.of_nat i)
      else a !! i.
Proof.
  intros Hf Hl. unfold Templates.reverse. apply reverse_passes_lookup; lia.
Qed.

(** X28: with a stride of 1, [reverse] reverses the elements between [first]
    and [last] and leaves the others: the element at position [i] of the
    range comes from position [first + last - 1 - i].  Any number of passes
    from half the length of the range on gives the same array. *)
Theorem reverse_stride_1_reverses_range (a : list A) (first last : Z) :
  0 <= first -> last <= Z.of_nat (length a) ->
  length (Templates.reverse a first last 1) = length a /\
  (forall i : nat,
     Templates.reverse a first last 1 !! i
     = if (first <=? Z.of_nat i) && (Z.of_nat i <? last)
       then a !! Z.to_nat (first + last - 1 - Z.of_nat i)
       else a !! i) /\
  forall passes : nat, last - first <= 2 * Z.of_nat passes ->
    Templates.reverse_passes passes a first last 1 = Templates.reverse a first last 1.
Proof.
  intros Hf Hl. destruct (reverse_lookup a first last Hf Hl) as [Hlen Hat].
  split; [exact Hlen|]. split; [exact Hat|].
  intros passes Hp.
  destruct (reverse_passes_lookup passes a first last Hf Hl Hp) as [Hlen' Hat'].
  apply list_eq. intros i. now rewrite Hat, Hat'.
Qed.

(** X29: with a stride of 1, [rotate] moves the elements from [middle] to
    [last] to the front of the range that starts at [first], followed by the
    elements from [first] to [middle]; the elements outside the range stay. *)
Theorem rotate_stride_1_rotates_range (a : list A) (first middle last : Z) :
  0 <= first -> first <= middle -> middle <= last -> last <= Z.of_nat (length a) ->
  length (Templates.rotate a first middle last 1) = length a /\
  forall i : nat,
    Templates.rotate a first middle last 1 !! i
    = if (first <=? Z.of_nat i) && (Z.of_nat i <? last)
      then if Z.of_nat i + (middle - first) <? last
           then a !! Z.to_nat (Z.of_nat i + (middle - first))
           else a !! Z.to_nat (Z.of_nat i + middle - last)
      else a !! i.
Proof.
  intros Hf Hfm Hml Hl. unfold Templates.rotate. cbv zeta.
  destruct (reverse_lookup a first middle Hf ltac:(lia)) as [Hlen1 Hat1].
  set (r1 := Templates.reverse a first middle 1) in *.
  destruct (reverse_lookup r1 middle last ltac:(lia) ltac:(lia)) as [Hlen2 Hat2].
  set (r2 := Templates.reverse r1 middle last 1) in *.
  destruct (reverse_lookup r2 first last Hf ltac:(lia)) as [Hlen3 Hat3].
  split; [congruence|]. intros i. rewrite Hat3.
  destruct (Z.leb_spec first (Z.of_nat i)), (Z.ltb_spec (Z.of_nat i) last); cbn [andb].
  - rewrite Hat2.
    destruct (Z.leb_spec middle (Z.of_nat (Z.to_nat (first + last - 1 - Z.of_nat i)))),
      (Z.ltb_spec (Z.of_nat (Z.to_nat (first + last - 1 - Z.of_nat i))) last);
      cbn [andb]; try lia.
    + rewrite Hat1.
      destruct (Z.leb_spec first
                  (Z.of_nat (Z.to_nat (middle + last - 1
                     - Z.of_nat (Z.to_nat (first + last - 1 - Z.of_nat i)))))),
        (Z.ltb_spec (Z.of_nat (Z.to_nat (middle + last - 1
                     - Z.of_nat (Z.to_nat (first + last - 1 - Z.of_nat i))))) middle);
        cbn [andb]; try lia.
      destruct (Z.ltb_spec (Z.of_nat i + (middle - first)) last); [|lia].
      f_equal. lia.
    + rewrite Hat1.
      destruct (Z.leb_spec first (Z.of_nat (Z.to_nat (first + last - 1 - Z.of_nat i)))),
        (Z.ltb_spec (Z.of_nat (Z.to_nat (first + last - 1 - Z.of_nat i))) middle);
        cbn [andb]; try lia.
      destruct (Z.ltb_spec (Z.of_nat i + (middle - first)) last); [lia|].
      f_equal. lia.
  - rewrite Hat2.
    destruct (Z.leb_spec middle (Z.of_nat i)), (Z.ltb_spec (Z.of_nat i) last);
      cbn [andb]; try lia; rewrite Hat1;
      destruct (Z.leb_spec first (Z.of_nat i)), (Z.ltb_spec (Z.of_nat i) middle);
      cbn [andb]; try lia; reflexivity.
  - rewrite Hat2.
    destruct (Z.leb_spec middle (Z.of_nat i)), (Z.ltb_spec (Z.of_nat i) last);
      cbn [andb]; try lia; rewrite Hat1;
      destruct (Z.leb_spec first (Z.of_nat i)), (Z.ltb_spec (Z.of_nat i) middle);
      cbn [andb]; try lia; reflexivity.
  - rewrite Hat2.
    destruct (Z.leb_spec middle (Z.of_nat i)), (Z.ltb_spec (Z.of_nat i) last);
      cbn [andb]; try lia; rewrite Hat1;
      destruct (Z.leb_spec first (Z.of_nat i)), (Z.ltb_spec (Z.of_nat i) middle);
      cbn [andb]; try lia; reflexivity.
Qed.

End TemplateProofs.

(** ** Signed addition *)

Lemma testbit_top (l x : Z) :
  1 <= l -> 0 <= x < 2 ^ l -> Z.testbit x (l - 1) = (2 ^ (l - 1) <=? x).
Proof.
  intros Hl Hx.
  assert (Hp : 0 < 2 ^ (l - 1)) by (apply Z.pow_pos_nonneg; lia).
  assert (H2 : 2 ^ l = 2 * 2 ^ (l - 1)).
  { replace l with (1 + (l - 1)) at 1 by lia. rewrite Z.pow_add_r by lia. reflexivity. }
  rewrite Z.testbit_odd, Z.shiftr_div_pow2 by lia.
  destruct (Z.leb_spec (2 ^ (l - 1)) x) as [Hge | Hlt].
  - replace (x / 2 ^ (l - 1)) with 1; [reflexivity|].
    apply Z.div_unique with (r := x - 2 ^ (l - 1)); lia.
  - rewrite Z.div_small by lia. reflexivity.
Qed.

Section Signed.
Context `{BitCapInt}.
Hypothesis Hbits : 32 <= bitCapIntBits.

Lemma cap_not_testbit (x j : Z) :
  0 <= j < bitCapIntBits -> Z.testbit (cap_not x) j = negb (Z.testbit x j).
Proof.
  intros Hj. unfold cap_not, wrap. rewrite <- Z.land_ones by lia.
  rewrite Z.land_spec, Z.lnot_spec, Z.testbit_ones_nonneg by lia.
  destruct (Z.ltb_spec j bitCapIntBits); [apply andb_true_r | lia].
Qed.

Lemma negated (l x : Z) :
  1 <= l <= 30 -> 0 <= x < 2 ^ l ->
  cap_add (Z.land (cap_not x) (Z.shiftl 1 l - 1)) 1 = 2 ^ l - x.
Proof.
  intros Hl Hx.
  assert (Hp : 0 < 2 ^ l <= 2 ^ 30) by (apply pow2_le_30; lia).
  rewrite shiftl_1_pow2 by lia.
  replace (2 ^ l - 1) with (Z.ones l) by (rewrite Z.ones_equiv; lia).
  assert (Hland : Z.land (cap_not x) (Z.ones l) = 2 ^ l - 1 - x).
  { rewrite Z.land_ones by lia. unfold cap_not, wrap.
    rewrite Z.mod_mod_divide
      by (exists (2 ^ (bitCapIntBits - l)); rewrite <- Z.pow_add_r by lia; f_equal; lia).
    unfold Z.lnot. symmetry. apply Z.mod_unique with (q := -1); lia. }
  rewrite Hland. unfold cap_add. rewrite (wrap_small Hbits) by lia. lia.
Qed.

Lemma isOverflow_signed (l a b : Z) :
  1 <= l <= 30 -> 0 <= a < 2 ^ l -> 0 <= b < 2 ^ l ->
  (if negb (Z.land (Z.land a b) (Z.shiftl 1 (l - 1)) =? 0) then
     Z.shiftl 1 (l - 1)
     <? cap_add (cap_add (Z.land (cap_not a) (Z.shiftl 1 l - 1)) 1)
                (cap_add (Z.land (cap_not b) (Z.shiftl 1 l - 1)) 1)
   else if negb (Z.land (Z.land (cap_not a) (cap_not b)) (Z.shiftl 1 (l - 1)) =? 0) then
     Z.shiftl 1 (l - 1) <=? cap_add a b
   else false)
  = signed_overflow l a b.
Proof.
  intros Hl Ha Hb.
  assert (Hp : 0 < 2 ^ l <= 2 ^ 30) by (apply pow2_le_30; lia).
  assert (Hq : 0 < 2 ^ (l - 1)) by (apply Z.pow_pos_nonneg; lia).
  assert (H2 : 2 ^ l = 2 * 2 ^ (l - 1)).
  { replace l with (1 + (l - 1)) at 1 by lia. rewrite Z.pow_add_r by lia. reflexivity. }
  rewrite !land_pow2_zero_testbit by lia. rewrite !negb_involutive.
  rewrite !Z.land_spec, !cap_not_testbit by lia.
  rewrite !(testbit_top l) by lia.
  rewrite !negated by lia.
  rewrite (shiftl_1_pow2 (l - 1)) by lia.
  destruct (Z.leb_spec (2 ^ (l - 1)) a), (Z.leb_spec (2 ^ (l - 1)) b);
    cbn [andb negb]; unfold cap_add; rewrite ?(wrap_small Hbits) by lia;
    unfold signed_overflow, signed;
    repeat match goal with
           | |- context [?x <? ?y] => destruct (Z.ltb_spec x y)
           | |- context [?x <=? ?y] => destruct (Z.leb_spec x y)
           end; cbn [orb andb negb]; try reflexivity; lia.
Qed.

Lemma INCS_stateVec (toAdd start length overflowIndex : Z) (q : CoherentUnit) :
  well_formed q -> 0 <= start -> 1 <= length -> start + length <= qubitCount q ->
  0 <= toAdd < 2 ^ length -> 0 <= overflowIndex ->
  INCS toAdd start length overflowIndex q =
  with_stateVec
    (fold_left (fun ns lcv =>
       set_at ns (moved (qubitCount q) start length
                    ((reg start length lcv + toAdd) mod 2 ^ length) lcv)
         (if signed_overflow length (reg start length lcv) toAdd
             && Z.testbit (moved (qubitCount q) start length
                             ((reg start length lcv + toAdd) mod 2 ^ length) lcv)
                          overflowIndex
          then Cneg (at_ (stateVec q) lcv) else at_ (stateVec q) lcv))
       (seqZ 0 (maxQPower q)) (new_zeroed (maxQPower q))) q.
Proof.
  intros (Hn & Hpow & Hlen) Hs Hl Hsl Hk Ho. unfold INCS.
  unfold ResetStateVec. f_equal. rewrite par_for_fold.
  apply fold_left_ext_seqZ. intros ns lcv Hlcv. cbv zeta.
  rewrite (shiftl_1_pow2 length) by lia.
  rewrite (shiftl_1_pow2 (qubitCount q)) by lia.
  replace (2 ^ length - 1) with (Z.ones length) by (rewrite Z.ones_equiv; lia).
  replace (2 ^ qubitCount q - 1) with (Z.ones (qubitCount q)) by (rewrite Z.ones_equiv; lia).
  pose proof (pow2_le_30 length ltac:(lia)) as Hpl.
  assert (Hones : 0 <= Z.ones length < 2 ^ length) by (rewrite Z.ones_equiv; lia).
  assert (Hmask : cap_shl (Z.ones length) start = Z.shiftl (Z.ones length) start).
  { unfold cap_shl. apply (wrap_small Hbits).
    pose proof (shiftl_small (Z.ones length) start length); lia. }
  rewrite !Hmask.
  fold (reg start length lcv).
  pose proof (reg_range start length lcv Hs ltac:(lia)) as Hv.
  set (v := reg start length lcv) in *.
  assert (Hout : (if cap_add v toAdd <? 2 ^ length
                  then Z.lor (cap_shl (cap_add v toAdd) start)
                         (Z.land lcv (Z.lxor (Z.ones (qubitCount q))
                                        (Z.shiftl (Z.ones length) start)))
                  else Z.lor (cap_shl (cap_sub (cap_add v toAdd) (2 ^ length)) start)
                         (Z.land lcv (Z.lxor (Z.ones (qubitCount q))
                                        (Z.shiftl (Z.ones length) start))))
                 = moved (qubitCount q) start length ((v + toAdd) mod 2 ^ length) lcv).
  { unfold cap_add. rewrite (wrap_small Hbits (v + toAdd)) by lia. unfold moved.
    destruct (Z.ltb_spec (v + toAdd) (2 ^ length)) as [Hlt | Hge].
    - rewrite (Z.mod_small (v + toAdd)) by lia.
      unfold cap_shl. rewrite (wrap_small Hbits); [reflexivity|].
      pose proof (shiftl_small (v + toAdd) start length); lia.
    - unfold cap_sub, cap_shl. rewrite (wrap_small Hbits (_ - _)) by lia.
      replace ((v + toAdd) mod 2 ^ length) with (v + toAdd - 2 ^ length)
        by (apply Z.mod_unique with (q := 1); lia).
      rewrite (wrap_small Hbits); [reflexivity|].
      pose proof (shiftl_small (v + toAdd - 2 ^ length) start length); lia. }
  rewrite Hout.
  replace (Z.ones length) with (Z.shiftl 1 length - 1)
    by (rewrite shiftl_1_pow2, Z.ones_equiv by lia; lia).
  rewrite (isOverflow_signed length v toAdd) by lia.
  rewrite land_pow2_testbit by assumption.
  destruct (signed_overflow length v toAdd && _); reflexivity.
Qed.

(** X30: [INCS] with an operand below [2^length] moves the amplitude of every
    basis index to the index whose register value is the sum modulo
    [2^length], as [INC] does, and negates it exactly when the sum of the two
    values, read as signed integers of [length] bits, leaves their range and
    the overflow qubit is set in the index it moves to. *)
Theorem INCS_negates_on_signed_overflow
    (toAdd start length overflowIndex : Z) (q : CoherentUnit) :
  well_formed q -> 0 <= start -> 1 <= length -> start + length <= qubitCount q ->
  0 <= toAdd < 2 ^ length -> 0 <= overflowIndex <= 30 ->
  well_formed (INCS toAdd start length overflowIndex q) /\
  forall lcv, 0 <= lcv < maxQPower q ->
    let dest := moved (qubitCount q) start length
                  ((reg start length lcv + toAdd) mod 2 ^ length) lcv in
    0 <= dest < maxQPower q /\
    register_value start length dest
      = (register_value start length lcv + toAdd) mod 2 ^ length /\
    at_ (stateVec (INCS toAdd start length overflowIndex q)) dest
    = if signed_overflow length (register_value start length lcv) toAdd
         && Z.testbit dest overflowIndex
      then Cneg (at_ (stateVec q) lcv) else at_ (stateVec q) lcv.
Proof.
  intros Hwf Hs Hl Hsl Hk [Ho _]. pose proof Hwf as (Hn & Hpow & Hlen).
  assert (Hp : 0 < 2 ^ length) by (apply Z.pow_pos_nonneg; lia).
  rewrite (INCS_stateVec toAdd start length overflowIndex q Hwf Hs Hl Hsl Hk Ho).
  set (n := qubitCount q) in *.
  set (f := fun lcv => moved n start length ((reg start length lcv + toAdd) mod 2 ^ length) lcv).
  set (g := fun lcv => moved n start length ((reg start length lcv - toAdd) mod 2 ^ length) lcv).
  set (v := fun lcv =>
         if signed_overflow length (reg start length lcv) toAdd
            && Z.testbit (f lcv) overflowIndex
         then Cneg (at_ (stateVec q) lcv) else at_ (stateVec q) lcv).
  assert (Hr : forall i, 0 <= i < maxQPower q -> 0 <= f i < maxQPower q).
  { intros i Hi. rewrite Hpow in *. apply moved_range; try lia. apply Z.mod_pos_bound. lia. }
  assert (Hgf : forall i, 0 <= i < maxQPower q -> g (f i) = i).
  { intros i Hi. rewrite Hpow in Hi. unfold f, g.
    pose proof (reg_range start length i Hs ltac:(lia)) as Hv.
    rewrite reg_moved, moved_moved by (try apply Z.mod_pos_bound; lia).
    rewrite mod_add_sub_cancel by assumption. apply moved_reg; lia. }
  destruct (scatter_values f g v (maxQPower q) Hr Hgf) as [Hlen' Hat].
  split.
  - apply well_formed_with_stateVec; assumption.
  - intros lcv Hlcv dest. subst dest. cbn [stateVec with_stateVec].
    split; [apply Hr; assumption|]. split.
    + rewrite <- !register_value_reg by lia. apply reg_moved; try lia.
      apply Z.mod_pos_bound. lia.
    + rewrite <- register_value_reg by lia. exact (Hat lcv Hlcv).
Qed.

End Signed.

(** * The further theorems at concrete registers *)

Lemma buffer_sized_two_qubits_00_11 : buffer_sized two_qubits_00_11.
Proof. split; [cbn; lia | reflexivity]. Qed.

Lemma well_formed_four_qubits_one : well_formed four_qubits_one.
Proof. repeat split; cbn; try lia; reflexivity. Qed.

(** [PhaseFlip] twice on two qubits. *)
Lemma PhaseFlip_negates_and_is_involutive_witness :
  buffer_sized two_qubits_00_11 /\
  PhaseFlip (PhaseFlip two_qubits_00_11) = two_qubits_00_11.
Proof.
  split; [exact buffer_sized_two_qubits_00_11|].
  apply (PhaseFlip_negates_and_is_involutive two_qubits_00_11 buffer_sized_two_qubits_00_11).
Defined.

(** [ZeroPhaseFlip] on qubit 0 of two qubits. *)
Lemma ZeroPhaseFlip_negates_zero_register_witness :
  well_formed two_qubits_00_11 /\ 0 + 1 <= qubitCount two_qubits_00_11 /\
  ZeroPhaseFlip 0 1 (ZeroPhaseFlip 0 1 two_qubits_00_11) = two_qubits_00_11.
Proof.
  split; [exact well_formed_two_qubits_00_11|]. split; [cbn; lia|].
  apply (ZeroPhaseFlip_negates_zero_register uint64_bits 0 1 two_qubits_00_11
           well_formed_two_qubits_00_11); cbn; lia.
Defined.

(** [CPhaseFlipIfLess] with the flag on qubit 1 of two qubits. *)
Lemma CPhaseFlipIfLess_negates_less_with_flag_witness :
  buffer_sized two_qubits_00_11 /\ 0 + 1 <= 30 /\ 0 <= 1 <= 30 /\
  CPhaseFlipIfLess 1 0 1 1 (CPhaseFlipIfLess 1 0 1 1 two_qubits_00_11) = two_qubits_00_11.
Proof.
  split; [exact buffer_sized_two_qubits_00_11|]. split; [lia|]. split; [lia|].
  apply (CPhaseFlipIfLess_negates_less_with_flag 1 0 1 1 two_qubits_00_11
           buffer_sized_two_qubits_00_11); lia.
Defined.

(** [NormalizeState] on one qubit with amplitude 2 and [runningNorm] 2. *)
Lemma NormalizeState_idempotent_witness :
  buffer_sized one_qubit_unnormalized /\ runningNorm one_qubit_unnormalized <> 0%R /\
  runningNorm (NormalizeState one_qubit_unnormalized) = 1%R /\
  NormalizeState (NormalizeState one_qubit_unnormalized)
  = NormalizeState one_qubit_unnormalized.
Proof.
  assert (Hs : buffer_sized one_qubit_unnormalized) by (split; [cbn; lia | reflexivity]).
  assert (Hr : runningNorm one_qubit_unnormalized <> 0%R) by (cbn; lra).
  split; [exact Hs|]. split; [exact Hr|].
  destruct (NormalizeState_idempotent one_qubit_unnormalized Hs Hr) as (H1 & _ & _ & Hi).
  split; assumption.
Defined.

(** [M] on qubit 0 of two qubits. *)
Lemma M_collapses_onto_result_witness :
  buffer_sized two_qubits_00_11 /\ 0 <= 0 <= 30 /\
  length (stateVec (snd (M 0 two_qubits_00_11))) = length (stateVec two_qubits_00_11).
Proof.
  split; [exact buffer_sized_two_qubits_00_11|]. split; [lia|].
  apply (M_collapses_onto_result 0 two_qubits_00_11 buffer_sized_two_qubits_00_11). lia.
Defined.

(** [Prob] and [M] on qubit 2 of two qubits. *)
Lemma Prob_M_beyond_register_witness :
  well_formed two_qubits_00_11 /\ qubitCount two_qubits_00_11 <= 2 <= 30 /\
  fst (Prob 2 two_qubits_00_11) = 0%R /\ fst (M 2 two_qubits_00_11) = false.
Proof.
  split; [exact well_formed_two_qubits_00_11|]. split; [cbn; lia|].
  apply (Prob_M_beyond_register 2 two_qubits_00_11 well_formed_two_qubits_00_11). cbn. lia.
Defined.

(** [INC] by 1 and then by 2 on two qubits. *)
Lemma INC_INC_adds_witness :
  well_formed two_qubits_00_11 /\ 0 + 2 <= qubitCount two_qubits_00_11 /\
  INC 2 0 2 (INC 1 0 2 two_qubits_00_11) = INC (2 + 1) 0 2 two_qubits_00_11.
Proof.
  split; [exact well_formed_two_qubits_00_11|]. split; [cbn; lia|].
  apply (INC_INC_adds uint64_bits 2 1 0 2 two_qubits_00_11 well_formed_two_qubits_00_11);
    cbn; lia.
Defined.

(** [DEC] by 1 on two qubits. *)
Lemma DEC_is_INC_of_complement_witness :
  well_formed two_qubits_00_11 /\ 0 + 2 <= qubitCount two_qubits_00_11 /\
  DEC 1 0 2 two_qubits_00_11 = INC (2 ^ 2 - 1 mod 2 ^ 2) 0 2 two_qubits_00_11.
Proof.
  split; [exact well_formed_two_qubits_00_11|]. split; [cbn; lia|].
  apply (DEC_is_INC_of_complement uint64_bits 1 0 2 two_qubits_00_11
           well_formed_two_qubits_00_11); cbn; lia.
Defined.

(** [X] on both qubits of two qubits. *)
Lemma X_reg_inverts_register_witness :
  well_formed two_qubits_00_11 /\ 2 <> 1 /\ 0 + 2 <= qubitCount two_qubits_00_11 /\
  X_reg 0 2 (X_reg 0 2 two_qubits_00_11) = two_qubits_00_11.
Proof.
  split; [exact well_formed_two_qubits_00_11|]. split; [lia|]. split; [cbn; lia|].
  apply (X_reg_inverts_register uint64_bits 0 2 two_qubits_00_11
           well_formed_two_qubits_00_11); cbn; lia.
Defined.

(** [Swap] of the low and the high pair of four qubits. *)
Lemma Swap_reg_exchanges_registers_witness :
  well_formed four_qubits_one /\ 2 <> 1 /\
  0 + 2 <= qubitCount four_qubits_one /\ 2 + 2 <= qubitCount four_qubits_one /\
  (0 + 2 <= 2 \/ 2 + 2 <= 0) /\
  Swap_reg 0 2 2 (Swap_reg 0 2 2 four_qubits_one) = four_qubits_one.
Proof.
  split; [exact well_formed_four_qubits_one|]. split; [lia|].
  split; [cbn; lia|]. split; [cbn; lia|]. split; [left; lia|].
  apply (Swap_reg_exchanges_registers uint64_bits 0 2 2 four_qubits_one
           well_formed_four_qubits_one); cbn; lia.
Defined.


(** [par_for_skip] over two bits at position 1. *)
Lemma par_for_skip_inserts_zero_bits_witness :
  0 <= 1 /\ 1 <= 2 /\ 1 + 2 < bitCapIntBits /\
  Forall (fun i => i < 16 /\
            exists c, 0 <= c < 16 /\
              forall j, 0 <= j ->
                Z.testbit i j
                = if j <? 1 then Z.testbit c j
                  else if j <? 1 + 2 then false
                  else (j <? bitCapIntBits) && Z.testbit c (j - 2))
         (par_for_skip 0 16 (2 ^ 1) 2 (fun i l => l ++ [i]) []).
Proof.
  assert (Hw : 1 + 2 < bitCapIntBits) by (unfold bitCapIntBits, uint64; lia).
  split; [lia|]. split; [lia|]. split; [exact Hw|].
  apply (par_for_skip_inserts_zero_bits 0 16 1 2 (fun i l => l ++ [i]) []
           ltac:(lia) ltac:(lia) Hw).
Defined.

(** [CloneRawState] of two qubits into an array of four zeros. *)
Lemma CloneRawState_SetQuantumState_round_trip_witness :
  buffer_sized two_qubits_00_11 /\
  length (new_zeroed 4) = Z.to_nat (maxQPower two_qubits_00_11) /\
  fst (CloneRawState (new_zeroed 4) two_qubits_00_11)
  = stateVec (normalize_if_needed two_qubits_00_11).
Proof.
  split; [exact buffer_sized_two_qubits_00_11|]. split; [reflexivity|].
  apply (CloneRawState_SetQuantumState_round_trip (new_zeroed 4) (new_zeroed 4)
           two_qubits_00_11 buffer_sized_two_qubits_00_11 eq_refl eq_refl).
Defined.

(** [ProbArray] on two qubits. *)
Lemma ProbArray_agrees_with_ProbAll_witness :
  buffer_sized two_qubits_00_11 /\
  at_R (fst (ProbArray two_qubits_00_11)) 3 = fst (ProbAll 3 two_qubits_00_11).
Proof.
  split; [exact buffer_sized_two_qubits_00_11|].
  destruct (ProbArray_agrees_with_ProbAll two_qubits_00_11 buffer_sized_two_qubits_00_11)
    as [_ Hat].
  apply (Hat 3). cbn. lia.
Defined.

(** A register of two qubits built in the state |10> with the phase 1, and a
    register of 65 qubits asked of a [bitCapInt] of 64 bits. *)
Lemma CoherentUnit_new_basis_state_witness :
  bitCapIntBits < 65 /\
  CoherentUnit_new 65 0 (mkComplex16 1 0) (constant_draws 0) 0
  = InvalidArgument
      "Cannot instantiate a register with greater capacity than native types on emulating system." /\
  0 <= 2 <= 30 /\ 0 <= 2 < 2 ^ 2 /\ 2 <= bitCapIntBits /\
  exists q, CoherentUnit_new 2 2 (mkComplex16 1 0) (constant_draws 0) 0 = Ok q /\
            well_formed q /\ at_ (stateVec q) 2 = mkComplex16 1 0.
Proof.
  assert (Hbig : bitCapIntBits < 65) by (unfold bitCapIntBits, uint64; lia).
  assert (Hfit : 2 <= bitCapIntBits) by (unfold bitCapIntBits, uint64; lia).
  split; [exact Hbig|].
  split; [exact (proj1 (CoherentUnit_new_basis_state 65 0 (mkComplex16 1 0)
                          (constant_draws 0) 0) Hbig)|].
  split; [lia|]. split; [lia|]. split; [exact Hfit|].
  destruct (proj2 (CoherentUnit_new_basis_state 2 2 (mkComplex16 1 0) (constant_draws 0) 0)
              ltac:(lia) ltac:(lia) Hfit) as (q & Hq & Hwf & _ & _ & _ & Hph).
  exists q. split; [exact Hq|]. split; [exact Hwf|].
  cbn [real imag] in Hph. rewrite (Reqb_false 1 (-999)) in Hph by lra. cbn [andb] in Hph.
  exact (proj1 Hph).
Defined.

(** [SetPermutation] to |11> on two qubits. *)
Lemma SetPermutation_basis_state_witness :
  well_formed two_qubits_00_11 /\ qubitCount two_qubits_00_11 <> 1 /\
  0 <= 3 < maxQPower two_qubits_00_11 /\
  runningNorm (SetPermutation 3 two_qubits_00_11) = 1%R /\
  norm (at_ (stateVec (SetPermutation 3 two_qubits_00_11)) 3) = 1%R.
Proof.
  assert (Hn : qubitCount two_qubits_00_11 <> 1) by (cbn; lia).
  assert (Hp : 0 <= 3 < maxQPower two_qubits_00_11) by (cbn; lia).
  split; [exact well_formed_two_qubits_00_11|]. split; [exact Hn|]. split; [exact Hp|].
  destruct (SetPermutation_basis_state 3 two_qubits_00_11 well_formed_two_qubits_00_11 Hn Hp)
    as (_ & Hnorm & Hat & _).
  split; assumption.
Defined.

(** [MReg] on both qubits of two qubits. *)
Lemma MReg_collapse_by_bit_inclusion_witness :
  buffer_sized two_qubits_00_11 /\ 2 <> 1 /\
  exists nrm, forall lcv, 0 <= lcv < maxQPower two_qubits_00_11 ->
    at_ (stateVec (snd (MReg 0 2 two_qubits_00_11))) lcv
    = if Z.land lcv (cap_shl (fst (MReg 0 2 two_qubits_00_11)) 0)
         =? cap_shl (fst (MReg 0 2 two_qubits_00_11)) 0
      then Cmul nrm (at_ (stateVec (normalize_if_needed two_qubits_00_11)) lcv)
      else Czero.
Proof.
  assert (Hl : 2 <> 1) by lia.
  split; [exact buffer_sized_two_qubits_00_11|]. split; [exact Hl|].
  apply (MReg_collapse_by_bit_inclusion 0 2 two_qubits_00_11
           buffer_sized_two_qubits_00_11 Hl).
Defined.

(** [INC] and [DEC] by 1 on two qubits. *)
Lemma INC_DEC_keep_norm_witness :
  well_formed two_qubits_00_11 /\ 0 + 2 <= qubitCount two_qubits_00_11 /\
  par_norm (maxQPower two_qubits_00_11) (stateVec (INC 1 0 2 two_qubits_00_11))
    = par_norm (maxQPower two_qubits_00_11) (stateVec two_qubits_00_11).
Proof.
  split; [exact well_formed_two_qubits_00_11|]. split; [cbn; lia|].
  apply (INC_DEC_keep_norm uint64_bits 1 0 2 two_qubits_00_11 well_formed_two_qubits_00_11);
    cbn; lia.
Defined.

(** [X] on the low pair and [Swap] of the two pairs of four qubits. *)
Lemma X_reg_Swap_reg_keep_norm_witness :
  well_formed four_qubits_one /\ 2 <> 1 /\
  0 + 2 <= qubitCount four_qubits_one /\ 2 + 2 <= qubitCount four_qubits_one /\
  (0 + 2 <= 2 \/ 2 + 2 <= 0) /\
  par_norm (maxQPower four_qubits_one) (stateVec (Swap_reg 0 2 2 four_qubits_one))
    = par_norm (maxQPower four_qubits_one) (stateVec four_qubits_one).
Proof.
  split; [exact well_formed_four_qubits_one|]. split; [lia|].
  split; [cbn; lia|]. split; [cbn; lia|]. split; [left; lia|].
  apply (X_reg_Swap_reg_keep_norm uint64_bits 0 2 2 four_qubits_one
           well_formed_four_qubits_one); cbn; lia.
Defined.

(** [reverse] on the middle of an array of five. *)
Lemma reverse_stride_1_reverses_range_witness :
  0 <= 1 /\ 4 <= Z.of_nat (length [10; 11; 12; 13; 14]) /\
  length (Templates.reverse [10; 11; 12; 13; 14] 1 4 1) = length [10; 11; 12; 13; 14].
Proof.
  assert (Hl : 4 <= Z.of_nat (length [10; 11; 12; 13; 14])) by (cbn; lia).
  split; [lia|]. split; [exact Hl|].
  apply (reverse_stride_1_reverses_range [10; 11; 12; 13; 14] 1 4 ltac:(lia) Hl).
Defined.

(** [rotate] on the middle of an array of five. *)
Lemma rotate_stride_1_rotates_range_witness :
  0 <= 1 /\ 1 <= 2 /\ 2 <= 4 /\ 4 <= Z.of_nat (length [10; 11; 12; 13; 14]) /\
  length (Templates.rotate [10; 11; 12; 13; 14] 1 2 4 1) = length [10; 11; 12; 13; 14].
Proof.
  assert (Hl : 4 <= Z.of_nat (length [10; 11; 12; 13; 14])) by (cbn; lia).
  split; [lia|]. split; [lia|]. split; [lia|]. split; [exact Hl|].
  apply (rotate_stride_1_rotates_range [10; 11; 12; 13; 14] 1 2 4
           ltac:(lia) ltac:(lia) ltac:(lia) Hl).
Defined.

(** [INCS] by 1 on the low pair of four qubits, with the overflow on qubit 2. *)
Lemma INCS_negates_on_signed_overflow_witness :
  well_formed four_qubits_one /\ 0 + 2 <= qubitCount four_qubits_one /\
  0 <= 1 < 2 ^ 2 /\ 0 <= 2 <= 30 /\
  well_formed (INCS 1 0 2 2 four_qubits_one).
Proof.
  split; [exact well_formed_four_qubits_one|]. split; [cbn; lia|].
  split; [lia|]. split; [lia|].
  apply (INCS_negates_on_signed_overflow uint64_bits 1 0 2 2 four_qubits_one
           well_formed_four_qubits_one); cbn; lia.
Defined.
